(** * Match-scoring engine of the job screening pipeline

    A shallow embedding of [agents/matching_agent.py] (lexical expander,
    the four component scorers, the score aggregator) and of
    [agents/shortlisting_agent.py] together with the parts of
    [utils/database_utils.py] they call.  It is followed by the writers of
    the store ([add_or_update_match], [add_candidate],
    [update_candidate_extraction]), the orchestration
    [run_matching_and_shortlisting] of [main.py], the answer reader
    [generate_structured_output] of [utils/llm_utils.py] and the cleaning
    of text lists in the two extraction agents.

    Conventions of the embedding.
    - Python [str] values are [string]s of 8-bit characters; [str.lower]
      lowers the ASCII letters (the text handled by the scorers is ASCII).
    - Python [set]s of strings are [gset string]; [dict]s with string keys
      are [gmap string _]; a [dict] iterated in insertion order with
      positional meaning is an association list.
    - Python numbers are kept abstract behind the class [PyNum].  Two
      instances are given: exact rational arithmetic [Q] (the idealised
      reading of [float], used where a result quantifies over numbers and
      needs their arithmetic) and IEEE 754 binary64 (Rocq's primitive
      floats, the arithmetic CPython runs on, used to evaluate the very
      same definitions on concrete inputs).  Results that need no
      arithmetic are proved for every instance.
    - A Python exception is an explicit result: [Raise ZeroDivisionError].
    - The SQLite connection is an explicit database value that the
      functions take and return. *)

From Stdlib Require Import QArith Qround Lqa Floats Uint63 String Ascii List.
From stdpp Require Import gmap strings list fin_sets.

Local Open Scope string_scope.
Local Open Scope Z_scope.

(** ** Python results *)

Inductive exn : Type := ZeroDivisionError.

Inductive pyres (A : Type) : Type :=
| Ret (a : A)
| Raise (e : exn).
Arguments Ret {A} a.
Arguments Raise {A} e.

Definition pybind {A B} (m : pyres A) (k : A → pyres B) : pyres B :=
  match m with
  | Ret a => k a
  | Raise e => Raise e
  end.

Notation "x ←! m ; k" := (pybind m (λ x, k))
  (at level 100, m at next level, right associativity, only parsing).

(** ** Python numbers *)

Class PyNum (T : Type) := {
  of_Q : Q → T;          (* the number denoted by a literal or an [int] *)
  nadd : T → T → T;
  nsub : T → T → T;
  nmul : T → T → T;
  ndiv : T → T → T;      (* quotient for a non-zero divisor *)
  nltb : T → T → bool;   (* [a < b] *)
  nleb : T → T → bool;   (* [a <= b] *)
  neqb : T → T → bool;   (* [a == b] *)
  to_Q : T → option Q;   (* exact value of a finite number *)
}.

Section PyNumOps.
Context {T : Type} `{PyNum T}.

Definition of_nat (n : nat) : T := of_Q (inject_Z (Z.of_nat n)).
Definition ngtb (a b : T) : bool := nltb b a.
Definition ngeb (a b : T) : bool := nleb b a.

(** [a / b] raises [ZeroDivisionError] when [b == 0]. *)
Definition py_div (a b : T) : pyres T :=
  if neqb b (of_Q 0) then Raise ZeroDivisionError else Ret (ndiv a b).

(** The builtins [min(a, b)] and [max(a, b)]: the first argument is kept
    unless the second is strictly smaller (resp. greater). *)
Definition py_min (a b : T) : T := if nltb b a then b else a.
Definition py_max (a b : T) : T := if ngtb b a then b else a.

(** [round(x, ndigits)] for a float [x]: the decimal with [ndigits]
    fractional digits nearest to the exact value of [x], ties to even;
    a non-finite [x] is returned as it is. *)
Definition round_half_even (q : Q) : Z :=
  let f := Qfloor q in
  let r := (q - inject_Z f)%Q in
  match (r ?= 1 # 2)%Q with
  | Lt => f
  | Gt => f + 1
  | Eq => if Z.even f then f else f + 1
  end.

Definition py_round (x : T) (ndigits : nat) : T :=
  match to_Q x with
  | Some q =>
      let p := Z.pow 10 (Z.of_nat ndigits) in
      of_Q (Qmake (round_half_even (q * inject_Z p)%Q) (Z.to_pos p))
  | None => x
  end.
End PyNumOps.

(** Exact rationals. *)
#[export] Instance Q_PyNum : PyNum Q := {|
  of_Q q := q;
  nadd := Qplus; nsub := Qminus; nmul := Qmult; ndiv := Qdiv;
  nltb a b := negb (Qle_bool b a);
  nleb := Qle_bool;
  neqb := Qeq_bool;
  to_Q q := Some q;
|}.

(** IEEE 754 binary64.  [f64_of_Q (n # d)] is the binary64 nearest to the
    exact quotient [n / d] (ties to even, an overflow gives an infinity),
    whatever the sizes of [n] and [d]: the division of the specification
    floats works on the two integers as they are, and rounds once.  This
    is how CPython reads a decimal literal or numeral and how it divides
    two [int]s. *)
Definition SF_of_Z (z : Z) : spec_float :=
  match z with
  | Z0 => S754_zero false
  | Zpos p => S754_finite false p 0
  | Zneg p => S754_finite true p 0
  end.

Definition f64_of_Q (q : Q) : float :=
  SF2Prim (SFdiv prec emax (SF_of_Z (Qnum q)) (SF_of_Z (Zpos (Qden q)))).

Definition f64_to_Q (x : float) : option Q :=
  match Prim2SF x with
  | S754_zero _ => Some 0%Q
  | S754_finite s m e =>
      let v := (inject_Z (Zpos m) * Qpower 2 e)%Q in
      Some (if s then Qopp v else v)
  | _ => None
  end.

#[export] Instance f64_PyNum : PyNum float := {|
  of_Q := f64_of_Q;
  nadd := PrimFloat.add; nsub := PrimFloat.sub;
  nmul := PrimFloat.mul; ndiv := PrimFloat.div;
  nltb := PrimFloat.ltb; nleb := PrimFloat.leb; neqb := PrimFloat.eqb;
  to_Q := f64_to_Q;
|}.

(** ** Python strings *)

Definition lower_ascii (c : ascii) : ascii :=
  let n := nat_of_ascii c in
  if ((65 <=? n) && (n <=? 90))%nat then ascii_of_nat (n + 32) else c.

(** [s.lower()] *)
Fixpoint lower (s : string) : string :=
  match s with
  | EmptyString => EmptyString
  | String c s' => String (lower_ascii c) (lower s')
  end.

Fixpoint is_prefix (p s : string) : bool :=
  match p, s with
  | EmptyString, _ => true
  | String a p', String b s' => Ascii.eqb a b && is_prefix p' s'
  | String _ _, EmptyString => false
  end.

(** [p in s] for two strings: [p] occurs in [s] as a substring. *)
Fixpoint str_in (p s : string) : bool :=
  is_prefix p s ||
  match s with
  | EmptyString => false
  | String _ s' => str_in p s'
  end.

(** [sep.join(l)] *)
Fixpoint join (sep : string) (l : list string) : string :=
  match l with
  | [] => ""
  | [x] => x
  | x :: l' => x ++ sep ++ join sep l'
  end.

(** *** The pattern [\d+\.?\d*] *)

Definition is_digit (c : ascii) : bool :=
  let n := nat_of_ascii c in ((48 <=? n) && (n <=? 57))%nat.

(** Longest run of digits at the head of [s], and what follows it. *)
Fixpoint take_digits (s : string) : string * string :=
  match s with
  | EmptyString => (EmptyString, EmptyString)
  | String c s' =>
      if is_digit c
      then let '(ds, rest) := take_digits s' in (String c ds, rest)
      else (EmptyString, s)
  end.

(** [re.findall(r'\d+\.?\d*', s)[0]] when there is a match: the digits
    before the optional point, whether the point was matched, and the
    digits after it.  The leftmost match starts at the first digit, and
    each of the three greedy parts takes all it can. *)
Fixpoint first_number (s : string) : option (string * string) :=
  match s with
  | EmptyString => None
  | String c s' =>
      if is_digit c then
        let '(ip, rest) := take_digits s in
        match rest with
        | String "."%char rest' => Some (ip, fst (take_digits rest'))
        | _ => Some (ip, EmptyString)
        end
      else first_number s'
  end.

Definition digit_val (c : ascii) : Z := Z.of_nat (nat_of_ascii c - 48).

Fixpoint digits_val (acc : Z) (s : string) : Z :=
  match s with
  | EmptyString => acc
  | String c s' => digits_val (10 * acc + digit_val c) s'
  end.

(** The rational denoted by the decimal [ip.fp]. *)
Definition decimal_value (ip fp : string) : Q :=
  Qmake (digits_val (digits_val 0 ip) fp)
        (Z.to_pos (Z.pow 10 (Z.of_nat (String.length fp)))).

(** ** Data model *)

(** The job summary as the scorers read it: every [jd_data.get(key, [])]
    of a list-valued key is a field holding the stored list (empty when the
    key is absent); the two free-text fields are [None] when absent. *)
Record JobProfile := {
  required_skills : list string;
  preferred_skills : list string;
  jd_domain_expertise : list string;
  jd_soft_skills : list string;
  required_education : option string;
  required_experience_years : option string;
  essential_requirements : list string;
}.

(** A value found under [total_experience_years]. *)
Inductive pyval (T : Type) : Type :=
| PyNone
| PyBool (b : bool)
| PyNumber (x : T)
| PyStr (s : string).
Arguments PyNone {T}.
Arguments PyBool {T} b.
Arguments PyNumber {T} x.
Arguments PyStr {T} s.

Record CandidateProfile (T : Type) := {
  skills : list string;
  cv_domain_expertise : list string;
  cv_soft_skills : list string;
  certifications : list string;
  education : list string;
  total_experience_years : pyval T;
}.
Arguments skills {T} _.
Arguments cv_domain_expertise {T} _.
Arguments cv_soft_skills {T} _.
Arguments certifications {T} _.
Arguments education {T} _.
Arguments total_experience_years {T} _.

(** ** Skill synonym dictionary *)

Definition SKILL_SYNONYMS : gmap string (list string) :=
  list_to_map [
    ("databases", ["sql"; "mysql"; "postgresql"; "nosql"; "database management"; "database"]);
    ("web development", ["html"; "css"; "javascript"; "react"; "angular"; "vue"; "node.js"; "django"; "flask"; "spring boot"; "web dev"; "frontend"; "backend"]);
    ("cloud", ["aws"; "azure"; "gcp"; "google cloud"; "amazon web services"; "cloud computing"]);
    ("machine learning", ["ml"; "deep learning"; "tensorflow"; "pytorch"; "scikit-learn"; "ai"]);
    ("artificial intelligence", ["ai"; "ml"; "deep learning"; "nlp"; "computer vision"]);
    ("cybersecurity", ["security"; "network security"; "penetration testing"; "pen testing"; "risk assessment"; "vulnerability assessment"; "infosec"]);
    ("python", ["python3"]);
    ("java", ["java se"; "java ee"])
  ].

(** ** Helper functions *)

(** [x in l] for a list of strings. *)
Definition list_in (x : string) (l : list string) : bool :=
  existsb (String.eqb x) l.

Definition expand_one (synonyms : gmap string (list string))
    (expanded : gset string) (skill : string) : gset string :=
  let expanded :=
    match synonyms !! skill with
    | Some members => expanded ∪ list_to_set members
    | None => expanded
    end in
  fold_left
    (λ expanded kv,
       if list_in skill kv.2 then expanded ∪ {[kv.1]} else expanded)
    (map_to_list synonyms) expanded.

Definition expand_skills (skill_set : gset string)
    (synonyms : gmap string (list string)) : gset string :=
  if decide (skill_set = ∅) then ∅
  else fold_left (expand_one synonyms) (elements skill_set) skill_set.

Section Scorers.
Context {T : Type} `{PyNum T}.

Definition parse_experience_years (exp_string : option string) : option T :=
  match exp_string with
  | None => None
  | Some "" => None
  | Some s =>
      match first_number s with
      | Some (ip, fp) => Some (of_Q (decimal_value ip fp))
      | None => None
      end
  end.

(** ** Core matching logic *)

(** [calculate_skill_match] treats its four categories (required,
    preferred, domain, soft) by the same two pieces of code, written out
    four times in the source: the match of a category is the ratio
    [len(expanded & cv) / len(raw)] when the raw JD set is non-empty and a
    fallback constant otherwise. *)
Definition category_match (raw expanded cv : gset string) (fallback : Q)
    : pyres T :=
  if decide (raw ≠ ∅)
  then py_div (of_nat (size (expanded ∩ cv))) (of_nat (size raw))
  else Ret (of_Q fallback).

(** [if raw: weighted_score += m * w; total_weight += w] *)
Definition add_category (raw : gset string) (m : T) (w : Q)
    (acc : T * T) : T * T :=
  if decide (raw ≠ ∅)
  then (nadd acc.1 (nmul m (of_Q w)), nadd acc.2 (of_Q w))
  else acc.

Definition calculate_skill_match (jd_data : JobProfile)
    (cv_data : CandidateProfile T) : pyres T :=
  let jd_req_skills_raw : gset string := list_to_set (required_skills jd_data) in
  let jd_pref_skills_raw : gset string := list_to_set (preferred_skills jd_data) in
  let jd_domain_raw : gset string := list_to_set (jd_domain_expertise jd_data) in
  let jd_soft_raw : gset string := list_to_set (jd_soft_skills jd_data) in
  let jd_req_skills := expand_skills jd_req_skills_raw SKILL_SYNONYMS in
  let jd_pref_skills := expand_skills jd_pref_skills_raw SKILL_SYNONYMS in
  let jd_domain := expand_skills jd_domain_raw SKILL_SYNONYMS in
  let jd_soft := jd_soft_raw in
  let cv_tech_skills : gset string := list_to_set (skills cv_data) in
  let cv_domain : gset string := list_to_set (cv_domain_expertise cv_data) in
  let cv_soft : gset string := list_to_set (cv_soft_skills cv_data) in
  let all_cv_skills := cv_tech_skills ∪ cv_domain ∪ cv_soft in
  required_match ←! category_match jd_req_skills_raw jd_req_skills all_cv_skills 0.5;
  preferred_match ←! category_match jd_pref_skills_raw jd_pref_skills all_cv_skills 0;
  domain_match ←! category_match jd_domain_raw jd_domain cv_domain 0.5;
  soft_match ←! category_match jd_soft_raw jd_soft cv_soft 0.5;
  let acc := (of_Q 0, of_Q 0) in
  let acc := add_category jd_req_skills_raw required_match 0.60 acc in
  let acc := add_category jd_pref_skills_raw preferred_match 0.10 acc in
  let acc := add_category jd_domain_raw domain_match 0.15 acc in
  let acc := add_category jd_soft_raw soft_match 0.15 acc in
  let '(weighted_score, total_weight) := acc in
  if neqb total_weight (of_Q 0) then Ret (of_Q 0.5)
  else py_div weighted_score total_weight.

(** [req_lower in cv_quals_combined or req_lower in cv_edu_text] *)
Definition requirement_met (cv_quals_combined : gset string)
    (cv_edu_text : string) (req : string) : bool :=
  let req_lower := lower req in
  bool_decide (req_lower ∈ cv_quals_combined) || str_in req_lower cv_edu_text.

Definition check_essential_requirements (jd_data : JobProfile)
    (cv_data : CandidateProfile T) : pyres T :=
  let essential_reqs : gset string := list_to_set (essential_requirements jd_data) in
  if decide (essential_reqs = ∅) then Ret (of_Q 1)
  else
    let cv_skills : gset string := list_to_set (skills cv_data) in
    let cv_certs : gset string := list_to_set (certifications cv_data) in
    let cv_education_list := education cv_data in
    let cv_quals_combined := cv_skills ∪ cv_certs in
    let cv_edu_text := join " " (map lower cv_education_list) in
    let met_requirements :=
      fold_left
        (λ met req,
           if requirement_met cv_quals_combined cv_edu_text req
           then S met else met)
        (elements essential_reqs) 0%nat in
    if decide (essential_reqs ≠ ∅)
    then py_div (of_nat met_requirements) (of_nat (size essential_reqs))
    else Ret (of_Q 1).

Definition degree_hierarchy : list (string * nat) :=
  [ ("phd", 4); ("doctorate", 4);
    ("master", 3); ("mba", 3); ("msc", 3); ("meng", 3); ("m.sc", 3); ("m.eng", 3);
    ("bachelor", 2); ("undergraduate", 2); ("bs", 2); ("ba", 2); ("beng", 2);
    ("b.s", 2); ("b.a", 2); ("b.eng", 2);
    ("associate", 1); ("diploma", 1); ("certificate", 1) ]%nat.

(** The loop computing [jd_level]. *)
Definition jd_level_of (jd_edu_lower : string) : nat :=
  fold_left
    (λ jd_level dl, if str_in dl.1 jd_edu_lower then Nat.max jd_level dl.2 else jd_level)
    degree_hierarchy 0%nat.

(** The nested loop computing [cv_level]. *)
Definition cv_level_of (cv_education_list : list string) : nat :=
  fold_left
    (λ cv_level edu_str,
       let edu_lower := lower edu_str in
       fold_left
         (λ cv_level dl,
            if str_in dl.1 edu_lower
            then (if (cv_level <? dl.2)%nat then dl.2 else cv_level)
            else cv_level)
         degree_hierarchy cv_level)
    cv_education_list 0%nat.

(** [jd_education_str] is [None] for a null or non-string value;
    [cv_education_list] is [None] for a null or non-list value. *)
Definition calculate_education_match (jd_education_str : option string)
    (cv_education_list : option (list string)) : T :=
  match jd_education_str with
  | None => of_Q 0.5
  | Some jd_str =>
      if (String.eqb jd_str "" || list_in (lower jd_str) ["none"; "none specified"; "n/a"])
      then of_Q 0.5
      else
        match cv_education_list with
        | None | Some [] => of_Q 0
        | Some cv_list =>
            let jd_edu_lower := lower jd_str in
            let jd_level := jd_level_of jd_edu_lower in
            if ((jd_level =? 0) && (3 <? String.length jd_edu_lower))%nat then of_Q 0.5
            else if (jd_level =? 0)%nat then of_Q 0.5
            else
              let cv_level := cv_level_of cv_list in
              if (jd_level <=? cv_level)%nat then of_Q 1 else of_Q 0
        end
  end.

(** [isinstance(v, (int, float))], with the number when it holds
    ([bool] is a subclass of [int]). *)
Definition as_number (v : pyval T) : option T :=
  match v with
  | PyNumber x => Some x
  | PyBool b => Some (of_Q (if b then 1 else 0))
  | PyNone | PyStr _ => None
  end.

Definition calculate_experience_match (jd_exp_years_str : option string)
    (cv_total_exp_years : pyval T) : pyres T :=
  let jd_min_years := parse_experience_years jd_exp_years_str in
  match jd_min_years with
  | None =>
      match as_number cv_total_exp_years with
      | Some cv_years => if ngtb cv_years (of_Q 0) then Ret (of_Q 0.5) else Ret (of_Q 0)
      | None => Ret (of_Q 0)
      end
  | Some jd_min_years =>
      match as_number cv_total_exp_years with
      | None => Ret (of_Q 0)
      | Some cv_years =>
          if nltb cv_years (of_Q 0) then Ret (of_Q 0)
          else if ngeb cv_years jd_min_years then
            let bonus := py_min (of_Q 0.2) (nmul (nsub cv_years jd_min_years) (of_Q 0.05)) in
            let score := py_min (of_Q 1) (nadd (of_Q 1) bonus) in
            Ret score
          else
            partial_score ←! py_div cv_years jd_min_years;
            Ret (py_max (of_Q 0) partial_score)
      end
  end.
End Scorers.

(** ** The store *)

(** Rows of the three tables, with the columns the agents read or write.
    A text column is [None] when it is NULL. *)
Record jd_row := {
  jd_id : Z;
  summary_json : option string;
}.

Record candidate_row := {
  candidate_id : Z;
  cv_filename : string;
  extracted_data_json : option string;
}.

Record match_row (T : Type) := {
  match_id : Z;
  m_jd_id : Z;
  m_candidate_id : Z;
  match_score : T;
  shortlist_status : bool;
}.
Arguments match_id {T} _.
Arguments m_jd_id {T} _.
Arguments m_candidate_id {T} _.
Arguments match_score {T} _.
Arguments shortlist_status {T} _.

Record database (T : Type) := {
  job_descriptions : list jd_row;
  candidates : list candidate_row;
  matches : list (match_row T);
}.
Arguments job_descriptions {T} _.
Arguments candidates {T} _.
Arguments matches {T} _.

(** What [json.loads] can return, as far as the aggregator looks at it:
    a [dict] with its content, or a value of another type. *)
Inductive pyjson (O : Type) : Type :=
| JDict (o : O)
| JList
| JStr
| JInt
| JFloat
| JBool
| JNone.
Arguments JDict {O} o.
Arguments JList {O}.
Arguments JStr {O}.
Arguments JInt {O}.
Arguments JFloat {O}.
Arguments JBool {O}.
Arguments JNone {O}.

(** [type(v).__name__] *)
Definition type_name {O} (v : pyjson O) : string :=
  match v with
  | JDict _ => "dict"
  | JList => "list"
  | JStr => "str"
  | JInt => "int"
  | JFloat => "float"
  | JBool => "bool"
  | JNone => "NoneType"
  end.

Definition is_dict {O} (v : pyjson O) : bool :=
  match v with JDict _ => true | _ => false end.

(** The second component of the aggregator's result: the score breakdown,
    or the error dictionary. *)
Inductive match_details (T : Type) : Type :=
| Breakdown (skills_score experience_score education_score requirements_score : T)
            (weights_used : gmap string T)
| ErrorDetails (d : gmap string string).
Arguments Breakdown {T} _ _ _ _ _.
Arguments ErrorDetails {T} d.

Section Aggregator.
Context {T : Type} `{PyNum T}.

Definition DEFAULT_WEIGHTS : gmap string T :=
  list_to_map [ ("skills", of_Q 0.4); ("experience", of_Q 0.25);
                ("education", of_Q 0.25); ("requirements", of_Q 0.1) ].

(** [weights.get(key, dflt)] *)
Definition weight_get (weights : gmap string T) (key : string) (dflt : Q) : T :=
  default (of_Q dflt) (weights !! key).

(** Steps 4 to 6 of [calculate_match_score], on the two loaded
    dictionaries. *)
Definition score_loaded (weights : gmap string T) (jd_data : JobProfile)
    (cv_data : CandidateProfile T) : pyres (option T * match_details T) :=
  skill_score ←! calculate_skill_match jd_data cv_data;
  experience_score ←!
    calculate_experience_match (required_experience_years jd_data)
                               (total_experience_years cv_data);
  let education_score :=
    calculate_education_match (required_education jd_data)
                              (Some (education cv_data)) in
  requirements_score ←! check_essential_requirements jd_data cv_data;
  let overall_score :=
    nadd (nadd (nadd (nmul skill_score (weight_get weights "skills" 0.4))
                     (nmul experience_score (weight_get weights "experience" 0.25)))
               (nmul education_score (weight_get weights "education" 0.25)))
         (nmul requirements_score (weight_get weights "requirements" 0.1)) in
  let overall_score := py_max (of_Q 0) (py_min (of_Q 1) overall_score) in
  let details :=
    Breakdown (py_round skill_score 3) (py_round experience_score 3)
              (py_round education_score 3) (py_round requirements_score 3)
              weights in
  Ret (Some overall_score, details).

Definition get_jd (conn : database T) (jid : Z) : option jd_row :=
  find (λ r, jd_id r =? jid) (job_descriptions conn).

Definition get_candidate (conn : database T) (cid : Z) : option candidate_row :=
  find (λ r, candidate_id r =? cid) (candidates conn).

Section WithJson.
(** [json.loads] is the standard library's: [None] stands for a
    [JSONDecodeError]; [jd_view] and [cv_view] are the fields the
    scorers read from a loaded dictionary. *)
Context {O : Type}.
Variable json_loads : string → option (pyjson O).
Variable jd_view : O → JobProfile.
Variable cv_view : O → CandidateProfile T.

Definition safe_json_loads (json_string : option string) : pyjson O :=
  match json_string with
  | None => JNone
  | Some "" => JNone
  | Some s =>
      match json_loads s with
      | Some v => v
      | None => JNone
      end
  end.

Definition calculate_match_score (weights : gmap string T)
    (jid cid : Z) (conn : database T)
    : pyres (option T * match_details T) :=
  match get_jd conn jid, get_candidate conn cid with
  | Some jd_r, Some candidate_r =>
      let jd_data := safe_json_loads (summary_json jd_r) in
      let cv_data := safe_json_loads (extracted_data_json candidate_r) in
      match jd_data, cv_data with
      | JDict jd_o, JDict cv_o =>
          score_loaded weights (jd_view jd_o) (cv_view cv_o)
      | _, _ =>
          let error_detail : gmap string string := ∅ in
          let error_detail :=
            if negb (is_dict jd_data)
            then <["jd_error" := "Invalid JD JSON (Type: " ++ type_name jd_data ++ ")"]> error_detail
            else error_detail in
          let error_detail :=
            if negb (is_dict cv_data)
            then <["cv_error" := "Invalid CV JSON (Type: " ++ type_name cv_data ++ ")"]> error_detail
            else error_detail in
          Ret (Some (of_Q 0),
               ErrorDetails ({["error" := "Invalid JSON data structure"]} ∪ error_detail))
      end
  | _, _ => Ret (None, ErrorDetails {["error" := "Missing DB row data"]})
  end.
End WithJson.
End Aggregator.

(** ** Shortlisting *)

(** An entry of the list returned by the shortlister. *)
Record shortlisted (T : Type) := {
  sl_candidate_id : Z;
  sl_cv_filename : string;
  sl_match_score : T;
}.
Arguments sl_candidate_id {T} _.
Arguments sl_cv_filename {T} _.
Arguments sl_match_score {T} _.

Section Shortlister.
Context {T : Type} `{PyNum T}.

(** [ORDER BY m.match_score DESC]: an insertion sort; the order among
    equal scores is not fixed by SQLite, here the earlier row stays
    first. *)
Fixpoint insert_desc (r : match_row T * string)
    (l : list (match_row T * string)) : list (match_row T * string) :=
  match l with
  | [] => [r]
  | r' :: l' =>
      if nltb (match_score r'.1) (match_score r.1)
      then r :: l
      else r' :: insert_desc r l'
  end.

Definition sort_desc (l : list (match_row T * string)) : list (match_row T * string) :=
  fold_right insert_desc [] (rev l).

(** [SELECT m.*, c.cv_filename FROM matches m JOIN candidates c
    ON m.candidate_id = c.candidate_id WHERE m.jd_id = ?
    ORDER BY m.match_score DESC] *)
Definition get_matches_for_jd (conn : database T) (jid : Z)
    : list (match_row T * string) :=
  sort_desc
    (flat_map
       (λ m, if m_jd_id m =? jid
             then map (λ c, (m, cv_filename c))
                      (filter (λ c, candidate_id c = m_candidate_id m) (candidates conn))
             else [])
       (matches conn)).

(** [SET shortlist_status = ?] on one row. *)
Definition set_status (m : match_row T) (status : bool) : match_row T :=
  {| match_id := match_id m; m_jd_id := m_jd_id m;
     m_candidate_id := m_candidate_id m;
     match_score := match_score m;
     shortlist_status := status |}.

(** The store with its [matches] table replaced. *)
Definition with_matches (conn : database T) (ms : list (match_row T)) : database T :=
  {| job_descriptions := job_descriptions conn;
     candidates := candidates conn;
     matches := ms |}.

(** [UPDATE matches SET shortlist_status = ? WHERE match_id = ?];
    the update of the in-memory store cannot fail. *)
Definition update_shortlist_status (conn : database T) (mid : Z) (status : bool)
    : bool * database T :=
  (true,
   with_matches conn
     (map (λ m, if match_id m =? mid then set_status m status else m)
          (matches conn))).

(** The body of the loop over [all_matches]. *)
Definition shortlist_row (SHORTLISTING_THRESHOLD : T)
    (st : list (shortlisted T) * database T * nat)
    (match_r : match_row T * string)
    : list (shortlisted T) * database T * nat :=
  let '(shortlisted_candidates, conn, updated_count) := st in
  let mid := match_id match_r.1 in
  let cid := m_candidate_id match_r.1 in
  let score := match_score match_r.1 in
  let filename := match_r.2 in
  let status := ngeb score SHORTLISTING_THRESHOLD in
  let shortlisted_candidates :=
    if status
    then (shortlisted_candidates ++
           [ {| sl_candidate_id := cid; sl_cv_filename := filename;
                sl_match_score := py_round score 3 |} ])%list
    else shortlisted_candidates in
  let '(success, conn) := update_shortlist_status conn mid status in
  (shortlisted_candidates, conn,
   if success then S updated_count else updated_count).

Definition shortlist_candidates_for_jd (SHORTLISTING_THRESHOLD : T)
    (jid : Z) (conn : database T) : list (shortlisted T) * database T :=
  let all_matches := get_matches_for_jd conn jid in
  match all_matches with
  | [] => ([], conn)
  | _ =>
      let '(shortlisted_candidates, conn, _) :=
        fold_left (shortlist_row SHORTLISTING_THRESHOLD) all_matches ([], conn, 0%nat) in
      (shortlisted_candidates, conn)
  end.
End Shortlister.

(** ** Specification-level readings

    Definitions that follow the wording of the specification; the
    verification part relates the code above to them. *)

(** Levels of the degree keywords that occur in [s] as substrings. *)
Definition keyword_levels (s : string) : list nat :=
  map snd (filter (λ dl, str_in dl.1 s = true) degree_hierarchy).

(** The maximum hierarchy level whose keyword occurs in [s]; 0 if none. *)
Definition level_of (s : string) : nat := max_list (keyword_levels s).

(** The maximum hierarchy level found across all CV phrases. *)
Definition highest_level (phrases : list string) : nat :=
  max_list (map (λ p, level_of (lower p)) phrases).

(** [s] contains no degree-hierarchy keyword as a substring. *)
Definition no_degree_keyword (s : string) : Prop :=
  Forall (λ dl : string * nat, str_in dl.1 s = false) degree_hierarchy.

(** [cv_years] is a positive number. *)
Definition positive_number (v : pyval Q) : bool :=
  match as_number v with
  | Some x => if Qlt_le_dec 0 x then true else false
  | None => false
  end.

(** The experience score as the specification words it, for the parsed
    minimum [jd_min_years] ([None] when no numeric token parses). *)
Definition experience_score_spec (jd_min_years : option Q) (cv_years : pyval Q) : Q :=
  match jd_min_years with
  | None => if positive_number cv_years then 0.5 else 0
  | Some jd =>
      match as_number cv_years with
      | None => 0
      | Some cv =>
          if Qlt_le_dec cv 0 then 0
          else if Qlt_le_dec cv jd then cv / jd
          else 1
      end
  end.

(** No character of [s] is a decimal digit. *)
Definition no_digit (s : string) : Prop :=
  Forall (λ c, is_digit c = false) (list_ascii_of_string s).

(** [p] occurs in [s] as a substring. *)
Definition is_substring (p s : string) : Prop :=
  ∃ pre post : string, s = (pre ++ p ++ post)%string.

(** A requirement counts as met when, lower-cased, it equals a member of
    skills ∪ certifications or occurs in the space-joined lower-cased
    education phrases. *)
Definition met_spec {T} (cv : CandidateProfile T) (req : string) : Prop :=
  lower req ∈ (list_to_set (skills cv) ∪ list_to_set (certifications cv) : gset string)
  ∨ is_substring (lower req) (join " " (map lower (education cv))).

(** The essential-requirements score as the specification words it. *)
Definition requirements_score_spec (reqs : gset string) (met_count : nat) : Q :=
  if decide (reqs = ∅) then 1
  else (inject_Z (Z.of_nat met_count) / inject_Z (Z.of_nat (size reqs)))%Q.

(** Bounds on a Python result: it is a value, and the value lies in [0,1]. *)
Definition returns_in_unit (r : pyres Q) : Prop :=
  ∃ v : Q, r = Ret v ∧ (0 <= v <= 1)%Q.

Definition returns_nonneg (r : pyres Q) : Prop :=
  ∃ v : Q, r = Ret v ∧ (0 <= v)%Q.

(** The call returns a value: it raises nothing. *)
Definition returns {A} (r : pyres A) : Prop := ∃ v : A, r = Ret v.

(** The sets [calculate_skill_match] intersects, and the condition under
    which no ratio exceeds 1: the candidate's terms hit each expanded JD
    set in at most as many terms as the raw set holds. *)
Definition raw_required (jd : JobProfile) : gset string := list_to_set (required_skills jd).
Definition raw_preferred (jd : JobProfile) : gset string := list_to_set (preferred_skills jd).
Definition raw_domain (jd : JobProfile) : gset string := list_to_set (jd_domain_expertise jd).
Definition all_cv_terms {T} (cv : CandidateProfile T) : gset string :=
  list_to_set (skills cv) ∪ list_to_set (cv_domain_expertise cv) ∪ list_to_set (cv_soft_skills cv).

Definition hits_within_raw {T} (jd : JobProfile) (cv : CandidateProfile T) : Prop :=
  (size (expand_skills (raw_required jd) SKILL_SYNONYMS ∩ all_cv_terms cv)
   ≤ size (raw_required jd))%nat
  ∧ (size (expand_skills (raw_preferred jd) SKILL_SYNONYMS ∩ all_cv_terms cv)
     ≤ size (raw_preferred jd))%nat
  ∧ (size (expand_skills (raw_domain jd) SKILL_SYNONYMS ∩ list_to_set (cv_domain_expertise cv))
     ≤ size (raw_domain jd))%nat.

(** A JD asking for "databases" against a CV listing the category and two
    of its members. *)
Definition jd_databases : JobProfile := {|
  required_skills := ["databases"];
  preferred_skills := [];
  jd_domain_expertise := [];
  jd_soft_skills := [];
  required_education := None;
  required_experience_years := None;
  essential_requirements := [];
|}.

Definition cv_databases {T} `{PyNum T} : CandidateProfile T := {|
  skills := ["databases"; "sql"; "mysql"];
  cv_domain_expertise := [];
  cv_soft_skills := [];
  certifications := [];
  education := [];
  total_experience_years := PyNone;
|}.

(** The end-to-end scenario of the specification. *)
Definition jd_e2e : JobProfile := {|
  required_skills := ["python"; "sql"];
  preferred_skills := [];
  jd_domain_expertise := [];
  jd_soft_skills := [];
  required_education := Some "bachelor's degree";
  required_experience_years := Some "3 years";
  essential_requirements := [];
|}.

Definition cv_e2e {T} `{PyNum T} : CandidateProfile T := {|
  skills := ["python"; "django"];
  cv_domain_expertise := [];
  cv_soft_skills := [];
  certifications := [];
  education := ["bachelor of science"];
  total_experience_years := PyNumber (of_Q 4.0);
|}.

(** A small store and a stand-in for [json.loads] that decodes the text
    "[]" to a list and rejects everything else. *)
Definition loads_only_list (s : string) : option (pyjson unit) :=
  if String.eqb s "[]" then Some JList else None.

Definition fixed_jd_view (_ : unit) : JobProfile := jd_e2e.
Definition fixed_cv_view (_ : unit) : CandidateProfile Q := cv_e2e.

Definition store_with_bad_payloads : database Q := {|
  job_descriptions := [ {| jd_id := 1; summary_json := Some "[]" |} ];
  candidates := [ {| candidate_id := 7; cv_filename := "c7.pdf";
                     extracted_data_json := None |} ];
  matches := [];
|}.

(** *** Shortlisting, as the specification words it *)

Section ShortlistSpec.
Context {T : Type} `{PyNum T}.

(** The candidate of match row [m] has a row in [candidates]. *)
Definition has_candidate (conn : database T) (m : match_row T) : bool :=
  existsb (λ c, candidate_id c =? m_candidate_id m) (candidates conn).

(** [m] is a stored (candidate, score) pair of job [jid]. *)
Definition stored_for (conn : database T) (jid : Z) (m : match_row T) : bool :=
  (m_jd_id m =? jid) && has_candidate conn m.

(** The decision rewritten on [m]: [score >= threshold] for a stored pair
    of the job, the row as it was otherwise. *)
Definition decided (threshold : T) (jid : Z) (conn : database T)
    (m : match_row T) : match_row T :=
  if stored_for conn jid m
  then set_status m (ngeb (match_score m) threshold)
  else m.

(** The entry appended for a row that passes, the test it passes, and the
    effect of the updates issued for the rows [rows] on one stored row. *)
Definition shortlist_entry (r : match_row T * string) : shortlisted T :=
  {| sl_candidate_id := m_candidate_id r.1;
     sl_cv_filename := r.2;
     sl_match_score := py_round (match_score r.1) 3 |}.

Definition passes (threshold : T) (r : match_row T * string) : bool :=
  ngeb (match_score r.1) threshold.

Definition update_by_rows (threshold : T) (rows : list (match_row T * string))
    (m : match_row T) : match_row T :=
  fold_left
    (λ m r, if match_id m =? match_id r.1 then set_status m (passes threshold r) else m)
    rows m.
End ShortlistSpec.

(** A store with three scored pairs for job 1 and one for job 2. *)
Definition store_scored : database Q := {|
  job_descriptions := [ {| jd_id := 1; summary_json := None |};
                        {| jd_id := 2; summary_json := None |} ];
  candidates := [ {| candidate_id := 1; cv_filename := "a.pdf"; extracted_data_json := None |};
                  {| candidate_id := 2; cv_filename := "b.pdf"; extracted_data_json := None |};
                  {| candidate_id := 3; cv_filename := "c.pdf"; extracted_data_json := None |} ];
  matches := [ {| match_id := 10; m_jd_id := 1; m_candidate_id := 1;
                  match_score := 0.5%Q; shortlist_status := true |};
               {| match_id := 11; m_jd_id := 1; m_candidate_id := 2;
                  match_score := 0.8%Q; shortlist_status := false |};
               {| match_id := 12; m_jd_id := 2; m_candidate_id := 1;
                  match_score := 0.9%Q; shortlist_status := false |};
               {| match_id := 13; m_jd_id := 1; m_candidate_id := 3;
                  match_score := 0.75%Q; shortlist_status := false |} ];
|}.
(** ** Writing a score

    [add_or_update_match] of [utils/database_utils.py], the writer the
    orchestration calls after scoring a pair. *)

Section Upsert.
Context {T : Type}.

(** The row is the one of the pair ([jd_id], [candidate_id]). *)
Definition same_pair (jid cid : Z) (m : match_row T) : bool :=
  (m_jd_id m =? jid) && (m_candidate_id m =? cid).

(** [SET match_score = excluded.match_score] on one row. *)
Definition set_score (m : match_row T) (score : T) : match_row T :=
  {| match_id := match_id m; m_jd_id := m_jd_id m;
     m_candidate_id := m_candidate_id m;
     match_score := score;
     shortlist_status := shortlist_status m |}.

(** [INSERT INTO matches (jd_id, candidate_id, match_score, ...) VALUES
    (?, ?, ?, ...) ON CONFLICT(jd_id, candidate_id) DO UPDATE SET
    match_score = excluded.match_score, ...]: the row of the pair gets the
    new score and keeps its id and its flag; when the pair has no row, a
    row is added with the flag at its default 0.  [rowid] is the id the
    engine allocates for an added row (the [AUTOINCREMENT] key).  The
    columns [match_details_json] and [timestamp], which the statement
    also writes, are not part of the row model.  The score is a number:
    SQLite would store a NaN as NULL. *)
Definition add_or_update_match (conn : database T) (jid cid : Z) (score : T)
    (rowid : Z) : bool * database T :=
  (true,
   with_matches conn
     (if existsb (same_pair jid cid) (matches conn)
      then map (λ m, if same_pair jid cid m then set_score m score else m)
               (matches conn)
      else (matches conn ++
             [ {| match_id := rowid; m_jd_id := jid; m_candidate_id := cid;
                  match_score := score; shortlist_status := false |} ])%list)).

(** The constraints of the [matches] table: [match_id] is its primary
    key and ([jd_id], [candidate_id]) is [UNIQUE]. *)
Definition pair_of (m : match_row T) : Z * Z := (m_jd_id m, m_candidate_id m).

Definition store_ok (conn : database T) : Prop :=
  NoDup (map match_id (matches conn)) ∧ NoDup (map pair_of (matches conn)).
End Upsert.

(** ** Registering a candidate

    [add_candidate] and [update_candidate_extraction] of
    [utils/database_utils.py].  The column [cv_text], which [add_candidate]
    also writes, is not part of the row model. *)

Section Candidates.
Context {T : Type}.

(** The store with its [candidates] table replaced. *)
Definition with_candidates (conn : database T) (cs : list candidate_row) : database T :=
  {| job_descriptions := job_descriptions conn;
     candidates := cs;
     matches := matches conn |}.

(** [SELECT candidate_id FROM candidates WHERE cv_filename = ?]; when
    there is a row its id is returned, otherwise
    [INSERT INTO candidates (cv_filename, cv_text) VALUES (?, ?)] adds a
    row without extracted data and [cursor.lastrowid], the id [rowid] the
    engine allocated, is returned. *)
Definition add_candidate (conn : database T) (filename : string) (rowid : Z)
    : Z * database T :=
  match find (λ c, String.eqb (cv_filename c) filename) (candidates conn) with
  | Some result => (candidate_id result, conn)
  | None =>
      (rowid,
       with_candidates conn
         (candidates conn ++
            [ {| candidate_id := rowid; cv_filename := filename;
                 extracted_data_json := None |} ])%list)
  end.

(** [SET extracted_data_json = ?] on one row. *)
Definition set_extraction (c : candidate_row) (data_str : string) : candidate_row :=
  {| candidate_id := candidate_id c; cv_filename := cv_filename c;
     extracted_data_json := Some data_str |}.

(** [UPDATE candidates SET extracted_data_json = ? WHERE candidate_id = ?],
    with [data_str = json.dumps(extracted_data)]. *)
Definition update_candidate_extraction (conn : database T) (cid : Z)
    (data_str : string) : bool * database T :=
  (true,
   with_candidates conn
     (map (λ c, if candidate_id c =? cid then set_extraction c data_str else c)
          (candidates conn))).

(** The constraints of the [candidates] table: [candidate_id] is its
    primary key and [cv_filename] is [UNIQUE]. *)
Definition candidates_ok (conn : database T) : Prop :=
  NoDup (map candidate_id (candidates conn))
  ∧ NoDup (map cv_filename (candidates conn)).
End Candidates.

(** ** Reading the model's answer

    [generate_structured_output] of [utils/llm_utils.py], from the text
    [generate_text] returned. *)

(** [s.startswith(p)] is [is_prefix p s]; [s.endswith(suf)]: a tail of [s]
    is [suf]. *)
Fixpoint endswith (suf s : string) : bool :=
  String.eqb suf s ||
  match s with
  | EmptyString => false
  | String _ s' => endswith suf s'
  end.

(** [s[n:]] *)
Fixpoint drop_chars (n : nat) (s : string) : string :=
  match n, s with
  | O, _ => s
  | S n', String _ s' => drop_chars n' s'
  | S _, EmptyString => EmptyString
  end.

(** [s[:n]] for [n >= 0], and [s[:-n]] for [0 < n]. *)
Fixpoint take_chars (n : nat) (s : string) : string :=
  match n, s with
  | O, _ => EmptyString
  | S n', String c s' => String c (take_chars n' s')
  | S _, EmptyString => EmptyString
  end.

Definition drop_last (n : nat) (s : string) : string :=
  take_chars (String.length s - n) s.

(** The characters [str.strip] removes, among the 8-bit ones. *)
Definition is_space (c : ascii) : bool :=
  let n := nat_of_ascii c in
  (((9 <=? n) && (n <=? 13)) || ((28 <=? n) && (n <=? 32))
   || (n =? 133) || (n =? 160))%nat.

Fixpoint lstrip (s : string) : string :=
  match s with
  | EmptyString => EmptyString
  | String c s' => if is_space c then lstrip s' else s
  end.

Fixpoint rstrip (s : string) : string :=
  match s with
  | EmptyString => EmptyString
  | String c s' =>
      match rstrip s' with
      | EmptyString => if is_space c then EmptyString else String c EmptyString
      | r => String c r
      end
  end.

(** [s.strip()] *)
Definition py_strip (s : string) : string := rstrip (lstrip s).

(** The text handed to [json.loads]: the markdown fences are cut off,
    each on its own test. *)
Definition unfence (raw_response : string) : string :=
  let raw_response :=
    if is_prefix "```json" raw_response then drop_chars 7 raw_response
    else raw_response in
  let raw_response :=
    if endswith "```" raw_response then drop_last 3 raw_response
    else raw_response in
  py_strip raw_response.

(** [None] stands for the function's [None]: an empty answer or a
    [JSONDecodeError]. *)
Definition generate_structured_output {O : Type}
    (json_loads : string → option (pyjson O)) (raw_response : string)
    : option (pyjson O) :=
  match raw_response with
  | EmptyString => None
  | _ => json_loads (unfence raw_response)
  end.

(** ** Cleaning a list of texts

    The list comprehensions of [validate_and_clean_summary] and
    [validate_and_clean_cv_data] that keep texts only, applied when the
    value under the key is a list.  An item of the list the model answered
    is a text or something else.  The comprehensions of the three skills
    lists ([required_skills], [preferred_skills], [skills]), which also
    keep numbers, are not modelled. *)
Inductive jitem : Type :=
| JText (s : string)
| JNotText.

(** [[str(r).lower().strip() for r in reqs if r and isinstance(r, str)]]:
    the JD's [domain_expertise], [soft_skills] and
    [essential_requirements]; the CV's [soft_skills], [domain_expertise],
    [certifications] and [industry_experience]. *)
Definition clean_texts (items : list jitem) : list string :=
  flat_map
    (λ r, match r with
          | JText (String c s) => [py_strip (lower (String c s))]
          | JText EmptyString | JNotText => []
          end)
    items.

(** [[str(e).strip() for e in edu if e and isinstance(e, str)]]: the letter
    case is kept; the CV's [education] and the JD's
    [key_responsibilities]. *)
Definition strip_texts (items : list jitem) : list string :=
  flat_map
    (λ e, match e with
          | JText (String c s) => [py_strip (String c s)]
          | JText EmptyString | JNotText => []
          end)
    items.

(** [[...][:2]]: the CV's [recent_job_titles], stripped like [education]
    and cut to the first two. *)
Definition clean_job_titles (items : list jitem) : list string :=
  take 2 (strip_texts items).

(** ** Orchestration

    [run_matching_and_shortlisting] of [main.py]: every JD with a summary
    is scored against every candidate with extracted data, the scores are
    written, and the shortlister runs for every JD.  What the function
    prints (the counts, the summary of the shortlists) is left out. *)

(** A [for] loop whose body may raise. *)
Fixpoint for_each {A S : Type} (body : S → A → pyres S) (l : list A) (st : S)
    : pyres S :=
  match l with
  | [] => Ret st
  | x :: l' => st' ←! body st x; for_each body l' st'
  end.

(** Truth value of a text column: NULL and the empty text are false. *)
Definition has_text (s : option string) : bool :=
  match s with
  | Some (String _ _) => true
  | _ => false
  end.

Section Orchestration.
Context {T : Type} `{PyNum T} {O : Type}.
Variable json_loads : string → option (pyjson O).
Variable jd_view : O → JobProfile.
Variable cv_view : O → CandidateProfile T.
Variable MATCHING_WEIGHTS : gmap string T.
Variable SHORTLISTING_THRESHOLD : T.
(** [rowids k] is the id the engine allocates for a row added when [k]
    scores have been written in the run. *)
Variable rowids : nat → Z.

(** [SELECT jd_id FROM job_descriptions] *)
Definition get_all_jd_ids (conn : database T) : list Z :=
  map jd_id (job_descriptions conn).

(** [SELECT candidate_id FROM candidates] *)
Definition get_all_candidate_ids (conn : database T) : list Z :=
  map candidate_id (candidates conn).

(** Body of the loop over [all_candidate_ids]; the state is the store and
    [total_matches_calculated]. *)
Definition match_candidate (jid : Z) (st : database T * nat) (cid : Z)
    : pyres (database T * nat) :=
  let '(conn, total_matches_calculated) := st in
  match get_candidate conn cid with
  | Some cand_data_check =>
      if has_text (extracted_data_json cand_data_check) then
        res ←! calculate_match_score json_loads jd_view cv_view
                 MATCHING_WEIGHTS jid cid conn;
        match res.1 with
        | Some score =>
            Ret ((add_or_update_match conn jid cid score
                    (rowids total_matches_calculated)).2,
                 S total_matches_calculated)
        | None => Ret (conn, total_matches_calculated)
        end
      else Ret (conn, total_matches_calculated)
  | None => Ret (conn, total_matches_calculated)
  end.

(** Body of the loop over [all_jd_ids]. *)
Definition match_jd (all_candidate_ids : list Z) (st : database T * nat) (jid : Z)
    : pyres (database T * nat) :=
  match get_jd st.1 jid with
  | Some jd_summary_check =>
      if has_text (summary_json jd_summary_check)
      then for_each (match_candidate jid) all_candidate_ids st
      else Ret st
  | None => Ret st
  end.

(** The second loop: the shortlister runs for each JD in turn. *)
Definition shortlist_all (all_jd_ids : list Z) (conn : database T) : database T :=
  fold_left (λ conn jid, (shortlist_candidates_for_jd SHORTLISTING_THRESHOLD jid conn).2)
            all_jd_ids conn.

Definition run_matching_and_shortlisting (conn : database T) : pyres (database T) :=
  let all_jd_ids := get_all_jd_ids conn in
  let all_candidate_ids := get_all_candidate_ids conn in
  if ((length all_jd_ids =? 0) || (length all_candidate_ids =? 0))%nat
  then Ret conn
  else
    st ←! for_each (match_jd all_candidate_ids) all_jd_ids (conn, 0%nat);
    Ret (shortlist_all all_jd_ids st.1).
End Orchestration.

(** [x] is not a NaN. *)
Definition is_number {T} `{PyNum T} (x : T) : Prop := neqb x x = true.


(** ** Further specification-level readings *)

(** The pair is one the orchestration scores: both rows exist and carry a
    payload; and the score it writes for the pair, if any. *)
Definition eligible {T} (conn : database T) (jid cid : Z) : bool :=
  match get_jd conn jid, get_candidate conn cid with
  | Some jd_r, Some c_r =>
      has_text (summary_json jd_r) && has_text (extracted_data_json c_r)
  | _, _ => false
  end.

Definition scored_pair {T} `{PyNum T} {O : Type}
    (json_loads : string → option (pyjson O)) (jd_view : O → JobProfile)
    (cv_view : O → CandidateProfile T) (weights : gmap string T)
    (conn : database T) (jid cid : Z) : option T :=
  if eligible conn jid cid then
    match calculate_match_score json_loads jd_view cv_view weights jid cid conn with
    | Ret (Some s, _) => Some s
    | _ => None
    end
  else None.

(** A row with the id, the pair and the score of a row of [conn]. *)
Definition row_of {T} (conn : database T) (m' : match_row T) : Prop :=
  ∃ m, m ∈ matches conn ∧ match_id m' = match_id m ∧ pair_of m' = pair_of m
       ∧ match_score m' = match_score m.

(** The invariant of the scoring loops of the orchestration, for the
    pairs [P] treated so far: the payload tables are those of the initial
    store [conn], the constraints of [matches] hold, the ids still to be
    allocated are unused, every treated pair that gets a score has a row
    with it, and every row is a scored one or a row of [conn]. *)
Definition scoring_inv {O : Type}
    (json_loads : string → option (pyjson O)) (jd_view : O → JobProfile)
    (cv_view : O → CandidateProfile Q) (weights : gmap string Q)
    (rowids : nat → Z) (conn : database Q) (P : Z → Z → Prop)
    (st : database Q * nat) : Prop :=
  job_descriptions st.1 = job_descriptions conn
  ∧ candidates st.1 = candidates conn
  ∧ store_ok st.1
  ∧ (∀ k, (st.2 <= k)%nat → rowids k ∉ map match_id (matches st.1))
  ∧ (∀ j c s, P j c →
       scored_pair json_loads jd_view cv_view weights conn j c = Some s →
       ∃ m, m ∈ matches st.1 ∧ same_pair j c m = true ∧ match_score m = s)
  ∧ (∀ m, m ∈ matches st.1 →
       (∃ s, scored_pair json_loads jd_view cv_view weights conn
               (m_jd_id m) (m_candidate_id m) = Some s
             ∧ match_score m = s)
       ∨ m ∈ matches conn).

(** A stand-in for [json.loads] that decodes the text "{}" to a
    dictionary, a store with payloads for JD 1 and candidate 1 only, and
    an allocation of row ids. *)
Definition loads_dict (s : string) : option (pyjson unit) :=
  if String.eqb s "{}" then Some (JDict tt) else None.

Definition store_pipeline : database Q := {|
  job_descriptions := [ {| jd_id := 1; summary_json := Some "{}" |};
                        {| jd_id := 2; summary_json := None |} ];
  candidates := [ {| candidate_id := 1; cv_filename := "a.pdf";
                     extracted_data_json := Some "{}" |};
                  {| candidate_id := 2; cv_filename := "b.pdf";
                     extracted_data_json := None |} ];
  matches := [ {| match_id := 10; m_jd_id := 1; m_candidate_id := 1;
                  match_score := 0.1%Q; shortlist_status := false |};
               {| match_id := 11; m_jd_id := 2; m_candidate_id := 2;
                  match_score := 0.9%Q; shortlist_status := false |} ];
|}.

Definition rowids_from_100 (k : nat) : Z := 100 + Z.of_nat k.

(** A JD whose only essential requirement is what cleaning leaves of a
    text of two spaces. *)
Definition jd_blank_requirement : JobProfile := {|
  required_skills := ["python"];
  preferred_skills := [];
  jd_domain_expertise := [];
  jd_soft_skills := [];
  required_education := None;
  required_experience_years := None;
  essential_requirements := clean_texts [JText "  "; JNotText];
|}.

(** The rows of [l] come in non-increasing order of score. *)
Definition ranked (l : list (match_row Q * string)) : Prop :=
  ∀ (i j : nat) a b, (i <= j)%nat → l !! i = Some a → l !! j = Some b →
    (match_score b.1 <= match_score a.1)%Q.

(** Every character of [s] is a decimal digit. *)
Definition all_digits (s : string) : Prop :=
  Forall (λ c, is_digit c = true) (list_ascii_of_string s).

(** [s] starts with a character that would extend a number: a digit or
    the decimal point. *)
Definition continues_number (s : string) : bool :=
  match s with
  | EmptyString => false
  | String c _ => is_digit c || Ascii.eqb c "."%char
  end.


(** The JD education string makes no requirement: it is empty or one of
    the literals "none", "none specified", "n/a" (in any letter case). *)
Definition blank_education (jd : string) : bool :=
  String.eqb jd "" || list_in (lower jd) ["none"; "none specified"; "n/a"].

(** The match of one skill category over exact numbers: the ratio of the
    hits in the expanded set to the size of the raw set when the JD lists
    the category, the fallback constant otherwise. *)
Definition category_value (raw expanded cv : gset string) (fallback : Q) : Q :=
  if decide (raw ≠ ∅)
  then (inject_Z (Z.of_nat (size (expanded ∩ cv))) / inject_Z (Z.of_nat (size raw)))%Q
  else fallback.

(** The four category matches of a JD and a CV, in the order required,
    preferred, domain, soft. *)
Definition skill_matches {T} (jd : JobProfile) (cv : CandidateProfile T) : Q * Q * Q * Q :=
  let soft : gset string := list_to_set (jd_soft_skills jd) in
  (category_value (raw_required jd)
     (expand_skills (raw_required jd) SKILL_SYNONYMS) (all_cv_terms cv) 0.5,
   category_value (raw_preferred jd)
     (expand_skills (raw_preferred jd) SKILL_SYNONYMS) (all_cv_terms cv) 0,
   category_value (raw_domain jd)
     (expand_skills (raw_domain jd) SKILL_SYNONYMS) (list_to_set (cv_domain_expertise cv)) 0.5,
   category_value soft soft (list_to_set (cv_soft_skills cv)) 0.5).

(** The running numerator and denominator after the four categories. *)
Definition skill_sums (jd : JobProfile) (ms : Q * Q * Q * Q) : Q * Q :=
  let '(m1, m2, m3, m4) := ms in
  add_category (list_to_set (jd_soft_skills jd)) m4 0.15
    (add_category (raw_domain jd) m3 0.15
       (add_category (raw_preferred jd) m2 0.10
          (add_category (raw_required jd) m1 0.60 (0%Q, 0%Q)))).

(** The JD lists at least one skill category. *)
Definition lists_skills (jd : JobProfile) : Prop :=
  required_skills jd ≠ [] ∨ preferred_skills jd ≠ []
  ∨ jd_domain_expertise jd ≠ [] ∨ jd_soft_skills jd ≠ [].

(** Every term the first CV lists, the second lists too, field by field. *)
Definition cv_terms_within {T} (cv cv' : CandidateProfile T) : Prop :=
  skills cv ⊆ skills cv'
  ∧ cv_domain_expertise cv ⊆ cv_domain_expertise cv'
  ∧ cv_soft_skills cv ⊆ cv_soft_skills cv'.

(** A JD with two essential requirements, and the end-to-end candidate
    with a certification, a further skill and a further degree. *)
Definition jd_certified : JobProfile := {|
  required_skills := ["python"; "sql"];
  preferred_skills := ["aws"];
  jd_domain_expertise := [];
  jd_soft_skills := [];
  required_education := Some "bachelor's degree";
  required_experience_years := Some "3 years";
  essential_requirements := ["aws certified"; "bachelor"];
|}.

Definition cv_certified {T} `{PyNum T} : CandidateProfile T := {|
  skills := ["python"; "django"; "sql"; "aws"];
  cv_domain_expertise := [];
  cv_soft_skills := [];
  certifications := ["aws certified"];
  education := ["bachelor of science"; "msc in data science"];
  total_experience_years := PyNumber (of_Q 4.0);
|}.

(** The four category matches by name. *)
Definition required_value {T} (jd : JobProfile) (cv : CandidateProfile T) : Q :=
  (skill_matches jd cv).1.1.1.
Definition preferred_value {T} (jd : JobProfile) (cv : CandidateProfile T) : Q :=
  (skill_matches jd cv).1.1.2.
Definition domain_value {T} (jd : JobProfile) (cv : CandidateProfile T) : Q :=
  (skill_matches jd cv).1.2.
Definition soft_value {T} (jd : JobProfile) (cv : CandidateProfile T) : Q :=
  (skill_matches jd cv).2.

(** A JD that lists eight required skills and nothing else, and a CV
    that lists seven of them. *)
Definition jd_eight_skills : JobProfile := {|
  required_skills := ["rust"; "go"; "scala"; "kotlin"; "swift"; "ruby"; "perl"; "haskell"];
  preferred_skills := [];
  jd_domain_expertise := [];
  jd_soft_skills := [];
  required_education := None;
  required_experience_years := None;
  essential_requirements := [];
|}.

Definition cv_seven_skills {T} `{PyNum T} : CandidateProfile T := {|
  skills := ["rust"; "go"; "scala"; "kotlin"; "swift"; "ruby"; "perl"];
  cv_domain_expertise := [];
  cv_soft_skills := [];
  certifications := [];
  education := [];
  total_experience_years := PyNone;
|}.

(** A JD that lists no skill of any category. *)
Definition jd_no_skills : JobProfile := {|
  required_skills := [];
  preferred_skills := [];
  jd_domain_expertise := [];
  jd_soft_skills := [];
  required_education := Some "bachelor's degree";
  required_experience_years := Some "3 years";
  essential_requirements := [];
|}.


(** * Verification *)

(** ** Lexical expander *)

Lemma list_in_spec (x : string) (l : list string) : list_in x l = true ↔ x ∈ l.
Proof.
  unfold list_in. rewrite existsb_exists. split.
  - intros (y & Hy & Heq). apply String.eqb_eq in Heq. subst y.
    by apply list_elem_of_In.
  - intros Hx. exists x. split; [by apply list_elem_of_In | apply String.eqb_refl].
Qed.

(** The inner loop over [synonyms.items()] adds exactly the keys whose
    member list holds [skill]. *)
Lemma expand_keys_spec (skill x : string) (kvs : list (string * list string))
    (E : gset string) :
  x ∈ fold_left
        (λ expanded kv,
           if list_in skill kv.2 then expanded ∪ {[kv.1]} else expanded)
        kvs E
  ↔ x ∈ E ∨ ∃ l, (x, l) ∈ kvs ∧ skill ∈ l.
Proof.
  revert E. induction kvs as [|[k v] kvs IH]; intros E; simpl.
  - split; [by left | intros [?|(l & Hl & _)]; [done | by apply elem_of_nil in Hl]].
  - rewrite IH. destruct (list_in skill v) eqn:Hin.
    + apply list_in_spec in Hin. rewrite elem_of_union, elem_of_singleton. split.
      * intros [[?| ->]|(l & Hl & ?)]; [by left | right; exists v | right; exists l];
          (split; [|done]); [left | by right].
      * intros [?|(l & Hl & ?)]; [by left; left|].
        apply elem_of_cons in Hl as [[= -> ->]|Hl]; [by left; right|].
        right. by exists l.
    + split.
      * intros [?|(l & Hl & ?)]; [by left|]. right. exists l. split; [by right | done].
      * intros [?|(l & Hl & ?)]; [by left|].
        apply elem_of_cons in Hl as [[= -> ->]|Hl].
        -- apply list_in_spec in H. congruence.
        -- right. by exists l.
Qed.

Lemma expand_one_spec (synonyms : gmap string (list string)) (E : gset string)
    (skill x : string) :
  x ∈ expand_one synonyms E skill
  ↔ x ∈ E
    ∨ (∃ l, synonyms !! skill = Some l ∧ x ∈ l)
    ∨ (∃ l, synonyms !! x = Some l ∧ skill ∈ l).
Proof.
  unfold expand_one. rewrite expand_keys_spec.
  setoid_rewrite elem_of_map_to_list.
  destruct (synonyms !! skill) as [members|] eqn:Hs.
  - rewrite elem_of_union, elem_of_list_to_set. split.
    + intros [[?|?]|?]; [by left | right; left; by exists members | by right; right].
    + intros [?|[(l & [= <-] & ?)|?]]; [by left; left | by left; right | by right].
  - split.
    + intros [?|?]; [by left | by right; right].
    + intros [?|[(l & ? & _)|?]]; [by left | done | by right].
Qed.

Lemma expand_fold_spec (synonyms : gmap string (list string))
    (terms : list string) (E : gset string) (x : string) :
  x ∈ fold_left (expand_one synonyms) terms E
  ↔ x ∈ E
    ∨ (∃ t l, t ∈ terms ∧ synonyms !! t = Some l ∧ x ∈ l)
    ∨ (∃ t l, t ∈ terms ∧ synonyms !! x = Some l ∧ t ∈ l).
Proof.
  revert E. induction terms as [|t terms IH]; intros E; simpl.
  - split; [by left|].
    intros [?|[(t & l & Ht & _)|(t & l & Ht & _)]]; [done | | ];
      by apply elem_of_nil in Ht.
  - rewrite IH, expand_one_spec. split.
    + intros [[?|[(l & ? & ?)|(l & ? & ?)]]|[(t' & l & ? & ? & ?)|(t' & l & ? & ? & ?)]].
      * by left.
      * right; left. exists t, l. split; [by left | done].
      * right; right. exists t, l. split; [by left | done].
      * right; left. exists t', l. split; [by right | done].
      * right; right. exists t', l. split; [by right | done].
    + intros [?|[(t' & l & Ht & ? & ?)|(t' & l & Ht & ? & ?)]].
      * by left; left.
      * apply elem_of_cons in Ht as [->|Ht].
        -- left; right; left. by exists l.
        -- right; left. by exists t', l.
      * apply elem_of_cons in Ht as [->|Ht].
        -- left; right; right. by exists l.
        -- right; right. by exists t', l.
Qed.

(** C7. [expand_skills] of the empty set is the empty set; in general the
    result holds exactly the terms themselves, the members listed under a
    term that is a key of the table, and the keys whose member list holds
    a term: one hop in each direction and nothing beyond.  On the static
    table, expanding "sql" yields "databases" and expanding "databases"
    yields "sql", while expanding "ml" reaches its two categories but none
    of their other members. *)
Theorem expand_skills_one_hop :
  (∀ synonyms, expand_skills ∅ synonyms = ∅)
  ∧ (∀ (terms : gset string) synonyms, terms ⊆ expand_skills terms synonyms)
  ∧ (∀ (terms : gset string) (synonyms : gmap string (list string)) (x : string),
       x ∈ expand_skills terms synonyms
       ↔ x ∈ terms
         ∨ (∃ t l, t ∈ terms ∧ synonyms !! t = Some l ∧ x ∈ l)
         ∨ (∃ t l, t ∈ terms ∧ synonyms !! x = Some l ∧ t ∈ l))
  ∧ "databases" ∈ expand_skills {["sql"]} SKILL_SYNONYMS
  ∧ "sql" ∈ expand_skills {["databases"]} SKILL_SYNONYMS
  ∧ expand_skills {["ml"]} SKILL_SYNONYMS
    = {["ml"; "machine learning"; "artificial intelligence"]}.
Proof.
  assert (Hchar : ∀ (terms : gset string) (synonyms : gmap string (list string)) x,
            x ∈ expand_skills terms synonyms
            ↔ x ∈ terms
              ∨ (∃ t l, t ∈ terms ∧ synonyms !! t = Some l ∧ x ∈ l)
              ∨ (∃ t l, t ∈ terms ∧ synonyms !! x = Some l ∧ t ∈ l)).
  { intros terms synonyms x. unfold expand_skills.
    destruct (decide (terms = ∅)) as [->|Hne].
    - split; [set_solver|].
      intros [?|[(t & l & Ht & _)|(t & l & Ht & _)]]; set_solver.
    - rewrite expand_fold_spec. by setoid_rewrite elem_of_elements. }
  split; [|split; [|split; [exact Hchar|]]].
  - intros synonyms. unfold expand_skills. by rewrite decide_True.
  - intros terms synonyms x Hx. apply Hchar. by left.
  - split; [|split].
    + apply (bool_decide_unpack _). by vm_compute.
    + apply (bool_decide_unpack _). by vm_compute.
    + apply (bool_decide_unpack _). by vm_compute.
Qed.

(** ** Education match *)

Lemma length_lower (s : string) : String.length (lower s) = String.length s.
Proof. induction s as [|c s IH]; simpl; congruence. Qed.

Lemma level_fold_max (s : string) (h : list (string * nat)) (a : nat) :
  fold_left
    (λ jd_level dl, if str_in dl.1 s then Nat.max jd_level dl.2 else jd_level) h a
  = Nat.max a (max_list (map snd (filter (λ dl, str_in dl.1 s = true) h))).
Proof.
  revert a. induction h as [|[d n] h IH]; intros a; simpl.
  - lia.
  - rewrite IH. rewrite filter_cons. simpl.
    destruct (str_in d s) eqn:Hd.
    + rewrite decide_True by done. simpl. lia.
    + rewrite decide_False by done. done.
Qed.

Lemma level_fold_update (s : string) (h : list (string * nat)) (a : nat) :
  fold_left
    (λ cv_level dl,
       if str_in dl.1 s
       then (if (cv_level <? dl.2)%nat then dl.2 else cv_level)
       else cv_level) h a
  = Nat.max a (max_list (map snd (filter (λ dl, str_in dl.1 s = true) h))).
Proof.
  revert a. induction h as [|[d n] h IH]; intros a; simpl.
  - lia.
  - rewrite IH. rewrite filter_cons. simpl.
    destruct (str_in d s) eqn:Hd.
    + rewrite decide_True by done. simpl.
      destruct (Nat.ltb_spec a n); lia.
    + rewrite decide_False by done. done.
Qed.

Lemma jd_level_of_spec (s : string) : jd_level_of s = level_of s.
Proof. unfold jd_level_of, level_of, keyword_levels. by rewrite level_fold_max. Qed.

Lemma cv_level_fold (h : list (string * nat)) (phrases : list string) (a : nat) :
  fold_left
    (λ cv_level edu_str,
       fold_left
         (λ cv_level dl,
            if str_in dl.1 (lower edu_str)
            then (if (cv_level <? dl.2)%nat then dl.2 else cv_level)
            else cv_level)
         h cv_level)
    phrases a
  = Nat.max a
      (max_list
         (map (λ p, max_list (map snd (filter (λ dl, str_in dl.1 (lower p) = true) h)))
              phrases)).
Proof.
  revert a. induction phrases as [|p phrases IH]; intros a; cbn [fold_left map max_list].
  - lia.
  - rewrite IH, level_fold_update. unfold id. symmetry. apply Nat.max_assoc.
Qed.

Lemma cv_level_of_spec (phrases : list string) : cv_level_of phrases = highest_level phrases.
Proof.
  unfold cv_level_of, highest_level, level_of, keyword_levels.
  apply cv_level_fold.
Qed.

Lemma no_keyword_level (s : string) : no_degree_keyword s → level_of s = 0%nat.
Proof.
  unfold no_degree_keyword, level_of, keyword_levels.
  generalize degree_hierarchy as h.
  induction 1 as [|[d n] h Hd _ IH]; [done|].
  rewrite filter_cons. cbn [fst] in Hd.
  rewrite decide_False; [done|]. cbn [fst]. congruence.
Qed.

(** A JD string with a recognised level is none of the "no requirement"
    literals, and is not empty. *)
Lemma recognised_not_blank (jd : string) :
  (1 ≤ level_of (lower jd))%nat →
  (String.eqb jd "" || list_in (lower jd) ["none"; "none specified"; "n/a"]) = false.
Proof.
  intros Hlvl. apply orb_false_intro.
  - destruct jd; [vm_compute in Hlvl; lia | done].
  - apply not_true_is_false. intros Hin. apply list_in_spec in Hin.
    repeat (apply elem_of_cons in Hin as [Hin|Hin];
            [rewrite Hin in Hlvl; vm_compute in Hlvl; lia|]).
    by apply elem_of_nil in Hin.
Qed.

Section EducationFacts.
Context {T : Type} `{PyNum T}.

(** C5. With a JD string of recognised level [jd_level >= 1] and a
    non-empty CV list, the education score is exactly 1 when the highest
    level found across the CV phrases reaches [jd_level] and exactly 0
    otherwise; in particular "Master's degree required" scores a
    bachelor 0, a master 1 and a PhD 1. *)
Theorem education_hard_threshold :
  (∀ (jd : string) (cv : list string),
     (1 ≤ level_of (lower jd))%nat →
     cv ≠ [] →
     calculate_education_match (Some jd) (Some cv)
     = if (level_of (lower jd) <=? highest_level cv)%nat then of_Q 1 else of_Q 0)
  ∧ calculate_education_match (Some "Master's degree required")
                              (Some ["bachelor of science"]) = of_Q 0
  ∧ calculate_education_match (Some "Master's degree required")
                              (Some ["master of science"]) = of_Q 1
  ∧ calculate_education_match (Some "Master's degree required")
                              (Some ["phd in physics"]) = of_Q 1.
Proof.
  split; [|repeat split; vm_compute; reflexivity].
  intros jd cv Hlvl Hcv. unfold calculate_education_match.
  rewrite (recognised_not_blank jd Hlvl).
  destruct cv as [|p cv]; [done|].
  rewrite jd_level_of_spec, cv_level_of_spec.
  destruct (level_of (lower jd)) as [|n] eqn:Hn; [lia|]. done.
Qed.

End EducationFacts.

Lemma education_hard_threshold_witness :
  (1 ≤ level_of (lower "MSc or PhD"))%nat
  ∧ ["b.sc"; "master of arts"] ≠ []
  ∧ calculate_education_match (T:=Q) (Some "MSc or PhD") (Some ["b.sc"; "master of arts"])
    = 0%Q.
Proof.
  assert (Hlvl : (1 ≤ level_of (lower "MSc or PhD"))%nat) by (vm_compute; lia).
  assert (Hcv : ["b.sc"; "master of arts"] ≠ []) by discriminate.
  split; [exact Hlvl | split; [exact Hcv|]].
  rewrite (proj1 (education_hard_threshold (T:=Q)) "MSc or PhD" ["b.sc"; "master of arts"] Hlvl Hcv).
  vm_compute. reflexivity.
Defined.

Section VagueEducation.
Context {T : Type} `{PyNum T}.

(** C3 (as the code has it). For a JD education string with no degree
    keyword and more than 3 characters the score is 0.5 for every
    non-empty CV list; for an empty or non-list CV education it is 0,
    because the empty-CV rule comes first, unless the JD string reads
    "none" or "none specified", which is answered 0.5 before the CV is
    looked at. *)
Theorem education_vague_jd (jd : string) (cv : option (list string)) :
  no_degree_keyword (lower jd) →
  (3 < String.length jd)%nat →
  calculate_education_match (Some jd) cv
  = if list_in (lower jd) ["none"; "none specified"; "n/a"] then of_Q 0.5
    else match cv with
         | None | Some [] => of_Q 0
         | Some (_ :: _) => of_Q 0.5
         end.
Proof.
  intros Hkw Hlen. unfold calculate_education_match.
  destruct jd as [|c jd]; [simpl in Hlen; lia|].
  change (String.eqb (String c jd) "") with false. rewrite orb_false_l.
  destruct (list_in (lower (String c jd)) _); [done|].
  destruct cv as [[|p cv]|]; [done| |done].
  rewrite jd_level_of_spec, (no_keyword_level _ Hkw), length_lower.
  apply Nat.ltb_lt in Hlen. by rewrite Hlen.
Qed.
End VagueEducation.

Lemma education_vague_jd_witness :
  no_degree_keyword (lower "Related Field")
  ∧ (3 < String.length "Related Field")%nat
  ∧ calculate_education_match (T:=Q) (Some "Related Field") (Some ["bsc"]) = 0.5%Q
  ∧ calculate_education_match (T:=Q) (Some "Related Field") (Some []) = 0%Q.
Proof.
  assert (Hkw : no_degree_keyword (lower "Related Field")).
  { unfold no_degree_keyword. vm_compute. repeat constructor. }
  assert (Hlen : (3 < String.length "Related Field")%nat) by (vm_compute; lia).
  split; [exact Hkw | split; [exact Hlen | split]].
  - rewrite (education_vague_jd (T:=Q) "Related Field" (Some ["bsc"]) Hkw Hlen).
    vm_compute. reflexivity.
  - rewrite (education_vague_jd (T:=Q) "Related Field" (Some []) Hkw Hlen).
    vm_compute. reflexivity.
Defined.

(** C3 (as stated) fails: "related field" holds no degree keyword and has
    more than 3 characters, yet with an empty CV education list the score
    is 0, not 0.5. *)
Lemma education_vague_jd_empty_cv :
  no_degree_keyword (lower "related field")
  ∧ (3 < String.length "related field")%nat
  ∧ calculate_education_match (T:=Q) (Some "related field") (Some []) = 0%Q
  ∧ ¬ (calculate_education_match (T:=Q) (Some "related field") (Some []) == 0.5)%Q.
Proof.
  split; [|split; [|split]].
  - unfold no_degree_keyword. vm_compute. repeat constructor.
  - vm_compute. lia.
  - by vm_compute.
  - by vm_compute.
Qed.

(** ** Experience match *)

(** Comparisons and division of the exact instance. *)
Lemma Q_nltb (a b : Q) : nltb a b = true ↔ (a < b)%Q.
Proof.
  simpl. rewrite negb_true_iff, <- not_true_iff_false, Qle_bool_iff.
  split; [apply Qnot_le_lt | apply Qlt_not_le].
Qed.

Lemma Q_nltb_false (a b : Q) : nltb a b = false ↔ (b <= a)%Q.
Proof. simpl. by rewrite negb_false_iff, Qle_bool_iff. Qed.

Lemma Q_nleb (a b : Q) : nleb a b = true ↔ (a <= b)%Q.
Proof. simpl. apply Qle_bool_iff. Qed.

Lemma Q_nleb_false (a b : Q) : nleb a b = false ↔ (b < a)%Q.
Proof.
  simpl. rewrite <- not_true_iff_false, Qle_bool_iff.
  split; [apply Qnot_le_lt | apply Qlt_not_le].
Qed.

Lemma Q_neqb_false (a b : Q) : neqb a b = false ↔ ¬ (a == b)%Q.
Proof. simpl. by rewrite <- not_true_iff_false, Qeq_bool_iff. Qed.

Lemma Q_py_div (a b : Q) : ¬ (b == 0)%Q → py_div a b = Ret (a / b)%Q.
Proof.
  intros Hb. unfold py_div.
  apply Q_neqb_false in Hb. cbn in *. by rewrite Hb.
Qed.

Lemma Qdiv_nonneg (a b : Q) : (0 <= a)%Q → (0 < b)%Q → (0 <= a / b)%Q.
Proof. intros Ha Hb. apply Qle_shift_div_l; [done | lra]. Qed.

Lemma Qdiv_le_1 (a b : Q) : (a <= b)%Q → (0 < b)%Q → (a / b <= 1)%Q.
Proof. intros Ha Hb. apply Qle_shift_div_r; [done | lra]. Qed.

Lemma Q_py_max_0 (p : Q) : (0 <= p)%Q → (py_max 0%Q p == p)%Q.
Proof.
  intros Hp. unfold py_max, ngtb.
  destruct (nltb 0%Q p) eqn:Hlt; [reflexivity|].
  apply Q_nltb_false in Hlt. lra.
Qed.

(** The bonus for exceeding the requirement has no effect on the score. *)
Lemma Q_bonus_clamped (cv jd : Q) :
  (jd <= cv)%Q →
  py_min 1%Q (nadd 1%Q (py_min 0.2%Q (nmul (nsub cv jd) 0.05%Q))) = 1%Q.
Proof.
  intros Hge. unfold py_min at 1.
  destruct (nltb _ 1%Q) eqn:Hlt; [|done].
  apply Q_nltb in Hlt. exfalso. revert Hlt. unfold py_min.
  destruct (nltb _ 0.2%Q) eqn:Hb; cbn; [|lra].
  intros Hlt. lra.
Qed.


(** Over exact numbers the experience scorer returns the score the
    specification words. *)
Lemma experience_match_exact (jd_str : option string) (cv_years : pyval Q) :
  ∃ v : Q, calculate_experience_match jd_str cv_years = Ret v
           ∧ (v == experience_score_spec (parse_experience_years jd_str) cv_years)%Q.
Proof.
  unfold calculate_experience_match, experience_score_spec.
  destruct (parse_experience_years jd_str) as [jd|].
  - destruct (as_number cv_years) as [cv|]; [|by exists 0%Q].
    destruct (nltb cv (of_Q 0)) eqn:Hneg.
    { apply Q_nltb in Hneg. cbn in Hneg. exists 0%Q.
      destruct (Qlt_le_dec cv 0); [done | lra]. }
    apply Q_nltb_false in Hneg. cbn in Hneg.
    destruct (Qlt_le_dec cv 0) as [?|_]; [lra|].
    unfold ngeb. destruct (nleb jd cv) eqn:Hge.
    { apply Q_nleb in Hge. exists 1%Q. split.
      - f_equal. by apply Q_bonus_clamped.
      - destruct (Qlt_le_dec cv jd); [lra | reflexivity]. }
    apply Q_nleb_false in Hge.
    rewrite Q_py_div by lra. cbn [pybind].
    exists (py_max (of_Q 0) (cv / jd)%Q). split; [done|].
    destruct (Qlt_le_dec cv jd); [|lra].
    apply Q_py_max_0, Qdiv_nonneg; lra.
  - unfold positive_number. destruct (as_number cv_years) as [cv|]; [|by exists 0%Q].
    unfold ngtb. destruct (nltb (of_Q 0) cv) eqn:Hpos.
    + apply Q_nltb in Hpos. cbn in Hpos. exists 0.5%Q.
      destruct (Qlt_le_dec 0 cv); [done | lra].
    + apply Q_nltb_false in Hpos. cbn in Hpos. exists 0%Q.
      destruct (Qlt_le_dec 0 cv); [lra | done].
Qed.

(** *** Reading the number *)

Lemma parse_via_first_number {T} `{PyNum T} (s : string) :
  parse_experience_years (T:=T) (Some s)
  = match first_number s with
    | Some (ip, fp) => Some (of_Q (decimal_value ip fp))
    | None => None
    end.
Proof. by destruct s. Qed.

Lemma first_number_skip (pre s : string) :
  no_digit pre → first_number (pre ++ s) = first_number s.
Proof.
  unfold no_digit. induction pre as [|c pre IH]; cbn [list_ascii_of_string]; [done|].
  intros Hnd. apply Forall_cons in Hnd as [Hc Hnd].
  simpl. rewrite Hc. by apply IH.
Qed.

Lemma take_digits_all (ds rest : string) :
  all_digits ds → continues_number rest = false →
  take_digits (ds ++ rest) = (ds, rest).
Proof.
  unfold all_digits. induction ds as [|c ds IH]; cbn [list_ascii_of_string]; intros Hd Hrest.
  - simpl. destruct rest as [|c rest]; [done|].
    cbn [continues_number] in Hrest. apply orb_false_elim in Hrest as [Hc _].
    simpl. by rewrite Hc.
  - apply Forall_cons in Hd as [Hc Hd]. simpl.
    rewrite Hc, IH by done. done.
Qed.




(** *** A NaN in binary64 *)


Lemma f64_ltb_nan (y : float) : PrimFloat.ltb y nan = false.
Proof.
  rewrite FloatAxioms.ltb_spec. change (Prim2SF nan) with S754_nan.
  unfold SFltb. by destruct (Prim2SF y) as [[]|[]| |[] m e].
Qed.






(** ** Essential requirements *)

Lemma is_prefix_spec (p s : string) :
  is_prefix p s = true ↔ ∃ post : string, s = (p ++ post)%string.
Proof.
  revert s. induction p as [|a p IH]; intros s; simpl.
  - split; [by exists s | done].
  - destruct s as [|b s].
    + split; [done | by intros (post & ?)].
    + rewrite andb_true_iff, IH. split.
      * intros [Hab (post & ->)]. apply Ascii.eqb_eq in Hab as ->. by exists post.
      * intros (post & [= -> ->]). split; [apply Ascii.eqb_refl | by exists post].
Qed.

Lemma str_in_spec (p s : string) : str_in p s = true ↔ is_substring p s.
Proof.
  unfold is_substring. induction s as [|b s IH]; simpl.
  - rewrite orb_false_r, is_prefix_spec. split.
    + intros (post & ->). by exists ""%string, post.
    + intros ([|c pre] & post & Heq); [by exists post | done].
  - rewrite orb_true_iff, IH, is_prefix_spec. split.
    + intros [(post & ->)|(pre & post & ->)].
      * by exists ""%string, post.
      * by exists (String b pre), post.
    + intros ([|c pre] & post & Heq).
      * left. by exists post.
      * right. injection Heq as -> ->. by exists pre, post.
Qed.

#[local] Instance is_substring_dec (p s : string) : Decision (is_substring p s).
Proof.
  destruct (str_in p s) eqn:Hin.
  - left. by apply str_in_spec.
  - right. rewrite <- str_in_spec. congruence.
Defined.

#[local] Instance met_spec_dec {T} (cv : CandidateProfile T) (req : string) :
  Decision (met_spec cv req).
Proof. unfold met_spec. apply _. Defined.

Lemma requirement_met_spec {T} (cv : CandidateProfile T) (req : string) :
  requirement_met
    (list_to_set (skills cv) ∪ list_to_set (certifications cv))
    (join " " (map lower (education cv))) req = true
  ↔ met_spec cv req.
Proof.
  unfold requirement_met, met_spec.
  by rewrite orb_true_iff, bool_decide_eq_true, str_in_spec.
Qed.

(** The counting loop counts the elements that satisfy the test. *)
Lemma count_loop (b : string → bool) (l : list string) (n : nat) :
  fold_left (λ met req, if b req then S met else met) l n
  = (n + length (filter (λ r, b r = true) l))%nat.
Proof.
  revert n. induction l as [|x l IH]; intros n; cbn [fold_left].
  - rewrite filter_nil. simpl. lia.
  - rewrite IH, filter_cons. destruct (b x) eqn:Hb.
    + rewrite decide_True by done. simpl. lia.
    + rewrite decide_False by done. lia.
Qed.

Lemma size_set_filter (P : string → Prop) `{!∀ x, Decision (P x)} (X : gset string) :
  size (filter P X) = length (filter P (elements X)).
Proof.
  unfold filter at 1, set_filter. apply size_list_to_set.
  apply NoDup_filter, NoDup_elements.
Qed.

Lemma Q_of_nat_nonzero (n : nat) : n ≠ 0%nat → ¬ (of_nat (T:=Q) n == 0)%Q.
Proof.
  intros Hn. unfold of_nat. cbn. unfold Qeq. simpl. lia.
Qed.

Lemma Q_of_nat_nonneg (n : nat) : (0 <= of_nat (T:=Q) n)%Q.
Proof. unfold of_nat. cbn. unfold Qle. simpl. lia. Qed.

Lemma Q_of_nat_le (a b : nat) : (a ≤ b)%nat → (of_nat (T:=Q) a <= of_nat b)%Q.
Proof. intros Hab. unfold of_nat. cbn. unfold Qle. simpl. lia. Qed.

Lemma Q_of_nat_pos (n : nat) : n ≠ 0%nat → (0 < of_nat (T:=Q) n)%Q.
Proof. intros Hn. unfold of_nat. cbn. unfold Qlt. simpl. lia. Qed.

(** The essential-requirements scorer returns the ratio of the
    specification. *)
Lemma requirements_ratio_exact (jd : JobProfile) (cv : CandidateProfile Q) :
  check_essential_requirements jd cv
  = Ret (requirements_score_spec
           (list_to_set (essential_requirements jd))
           (size (filter (met_spec cv)
                         (list_to_set (essential_requirements jd) : gset string)))).
Proof.
  set (reqs := list_to_set (essential_requirements jd) : gset string).
  unfold check_essential_requirements, requirements_score_spec. fold reqs.
  destruct (decide (reqs = ∅)) as [He|Hne]; [done|].
  rewrite decide_True by done.
  rewrite count_loop, Nat.add_0_l.
  rewrite Q_py_div.
  2:{ apply Q_of_nat_nonzero. intros Hs. apply Hne.
      by apply leibniz_equiv, size_empty_iff. }
  rewrite size_set_filter.
  rewrite (list_filter_iff _ (met_spec cv)) by (intros r; apply requirement_met_spec).
  reflexivity.
Qed.

(** C6. With no essential requirements the score is 1 for every
    candidate; otherwise it is the number of met requirements over the
    number of requirements, a requirement being met exactly when its
    lower-cased form is a member of skills ∪ certifications or a substring
    of the space-joined lower-cased education phrases. *)
Theorem essential_requirements_ratio :
  ∀ (jd : JobProfile) (cv : CandidateProfile Q),
    let reqs : gset string := list_to_set (essential_requirements jd) in
    let met_count := size (filter (met_spec cv) reqs) in
    check_essential_requirements jd cv = Ret (requirements_score_spec reqs met_count)
    ∧ (if decide (reqs = ∅)
       then check_essential_requirements jd cv = Ret 1%Q
       else check_essential_requirements jd cv
            = Ret (inject_Z (Z.of_nat met_count) / inject_Z (Z.of_nat (size reqs)))%Q).
Proof.
  intros jd cv reqs met_count. subst reqs met_count.
  rewrite requirements_ratio_exact. split; [done|].
  unfold requirements_score_spec. by destruct (decide _).
Qed.

(** ** Bounds and absence of division by zero *)

Lemma category_match_cases (raw expanded cv : gset string) (fallback : Q) :
  (raw ≠ ∅ ∧ category_match (T:=Q) raw expanded cv fallback
             = Ret (of_nat (size (expanded ∩ cv)) / of_nat (size raw))%Q)
  ∨ (raw = ∅ ∧ category_match (T:=Q) raw expanded cv fallback = Ret fallback).
Proof.
  unfold category_match. destruct (decide (raw ≠ ∅)) as [Hne|He].
  - left. split; [done|]. apply Q_py_div, Q_of_nat_nonzero.
    intros Hs. apply Hne. by apply leibniz_equiv, size_empty_iff.
  - right. split; [|done]. by destruct (decide (raw = ∅)).
Qed.

Lemma ratio_nonneg (a b : nat) : b ≠ 0%nat → (0 <= of_nat (T:=Q) a / of_nat b)%Q.
Proof. intros Hb. apply Qdiv_nonneg; [apply Q_of_nat_nonneg | by apply Q_of_nat_pos]. Qed.

Lemma ratio_le_1 (a b : nat) :
  b ≠ 0%nat → (a ≤ b)%nat → (of_nat (T:=Q) a / of_nat b <= 1)%Q.
Proof. intros Hb Hab. apply Qdiv_le_1; [by apply Q_of_nat_le | by apply Q_of_nat_pos]. Qed.

Lemma nonempty_size (X : gset string) : X ≠ ∅ → size X ≠ 0%nat.
Proof. intros Hne Hs. apply Hne. by apply leibniz_equiv, size_empty_iff. Qed.

(** A category contributes a match in [0, +∞), and in [0,1] when its
    intersection is no larger than the raw set. *)
Lemma category_match_bounds (raw expanded cv : gset string) (fallback : Q) :
  (0 <= fallback <= 1)%Q →
  ∃ m : Q, category_match raw expanded cv fallback = Ret m
           ∧ (0 <= m)%Q
           ∧ ((size (expanded ∩ cv) ≤ size raw)%nat → (m <= 1)%Q).
Proof.
  intros Hf. destruct (category_match_cases raw expanded cv fallback) as [[Hne ->]|[He ->]].
  - eexists. split; [done|]. split.
    + by apply ratio_nonneg, nonempty_size.
    + intros Hle. by apply ratio_le_1; [apply nonempty_size|].
  - exists fallback. split; [done|]. split; [apply Hf | intros _; apply Hf].
Qed.

(** The accumulators of the weighted sum: after any number of categories
    the numerator is non-negative and the denominator is a sum of
    positive weights; with matches at most 1 the numerator stays below the
    denominator. *)
Lemma add_category_bounds (raw : gset string) (m w : Q) (acc : Q * Q) :
  (0 < w)%Q → (0 <= m)%Q →
  (0 <= acc.1)%Q → (0 <= acc.2)%Q → (acc.2 == 0 → acc.1 == 0)%Q →
  let acc' := add_category raw m w acc in
  (0 <= acc'.1)%Q ∧ (0 <= acc'.2)%Q ∧ (acc'.2 == 0 → acc'.1 == 0)%Q
  ∧ ((m <= 1)%Q → (acc.1 <= acc.2)%Q → (acc'.1 <= acc'.2)%Q).
Proof.
  intros Hw Hm H1 H2 Hz. unfold add_category.
  destruct (decide (raw ≠ ∅)); cbn.
  - repeat split; try nra.
  - repeat split; try done.
Qed.

Lemma skill_match_bounds (jd : JobProfile) (cv : CandidateProfile Q) :
  ∃ v : Q, calculate_skill_match jd cv = Ret v
           ∧ (0 <= v)%Q
           ∧ (hits_within_raw jd cv → (v <= 1)%Q).
Proof.
  unfold calculate_skill_match, hits_within_raw.
  fold (raw_required jd) (raw_preferred jd) (raw_domain jd) (all_cv_terms cv).
  set (soft := list_to_set (jd_soft_skills jd) : gset string).
  set (cvsoft := list_to_set (cv_soft_skills cv) : gset string).
  destruct (category_match_bounds (raw_required jd)
              (expand_skills (raw_required jd) SKILL_SYNONYMS) (all_cv_terms cv) 0.5)
    as (m1 & -> & Hm1 & Hm1'); [lra|].
  destruct (category_match_bounds (raw_preferred jd)
              (expand_skills (raw_preferred jd) SKILL_SYNONYMS) (all_cv_terms cv) 0)
    as (m2 & -> & Hm2 & Hm2'); [lra|].
  destruct (category_match_bounds (raw_domain jd)
              (expand_skills (raw_domain jd) SKILL_SYNONYMS)
              (list_to_set (cv_domain_expertise cv)) 0.5)
    as (m3 & -> & Hm3 & Hm3'); [lra|].
  destruct (category_match_bounds soft soft cvsoft 0.5)
    as (m4 & -> & Hm4 & Hm4'); [lra|].
  assert (Hm4'' : (m4 <= 1)%Q).
  { apply Hm4', subseteq_size, intersection_subseteq_l. }
  cbn [pybind].
  set (a0 := (of_Q 0, of_Q 0) : Q * Q).
  pose proof (add_category_bounds (raw_required jd) m1 0.60 a0) as B1.
  set (a1 := add_category (raw_required jd) m1 0.60 a0) in *.
  pose proof (add_category_bounds (raw_preferred jd) m2 0.10 a1) as B2.
  set (a2 := add_category (raw_preferred jd) m2 0.10 a1) in *.
  pose proof (add_category_bounds (raw_domain jd) m3 0.15 a2) as B3.
  set (a3 := add_category (raw_domain jd) m3 0.15 a2) in *.
  pose proof (add_category_bounds soft m4 0.15 a3) as B4.
  set (a4 := add_category soft m4 0.15 a3) in *.
  cbv zeta in B1, B2, B3, B4.
  destruct B1 as (B1a & B1b & B1c & B1d); [lra | done | cbn; lra | cbn; lra | cbn; lra |].
  destruct B2 as (B2a & B2b & B2c & B2d); [lra | done | done | done | done |].
  destruct B3 as (B3a & B3b & B3c & B3d); [lra | done | done | done | done |].
  destruct B4 as (B4a & B4b & B4c & B4d); [lra | done | done | done | done |].
  destruct a4 as [ws tw]. cbn [fst snd] in *.
  destruct (neqb tw (of_Q 0)) eqn:Htw.
  - exists 0.5%Q. split; [done|]. split; [lra | intros _; lra].
  - apply Q_neqb_false in Htw. cbn in Htw.
    rewrite Q_py_div by done. eexists. split; [done|].
    assert (0 < tw)%Q by lra.
    split; [by apply Qdiv_nonneg|].
    intros (H1 & H2 & H3). apply Qdiv_le_1; [|done].
    apply B4d; [done|]. apply B3d; [by apply Hm3'|].
    apply B2d; [by apply Hm2'|]. apply B1d; [by apply Hm1'|]. cbn. lra.
Qed.

Lemma requirements_bounds (jd : JobProfile) (cv : CandidateProfile Q) :
  returns_in_unit (check_essential_requirements jd cv).
Proof.
  rewrite requirements_ratio_exact.
  eexists. split; [done|]. unfold requirements_score_spec.
  destruct (decide _) as [He|Hne]; [lra|].
  split.
  - by apply (ratio_nonneg _ _ (nonempty_size _ Hne)).
  - apply (ratio_le_1 _ _ (nonempty_size _ Hne)).
    apply subseteq_size. intros x. rewrite elem_of_filter. tauto.
Qed.

Lemma experience_bounds (jd_str : option string) (cv_years : pyval Q) :
  returns_in_unit (calculate_experience_match jd_str cv_years).
Proof.
  destruct (experience_match_exact jd_str cv_years) as (v & -> & Hv).
  exists v. split; [done|]. rewrite Hv. unfold experience_score_spec.
  destruct (parse_experience_years jd_str) as [jd|].
  - destruct (as_number cv_years) as [cv|]; [|lra].
    destruct (Qlt_le_dec cv 0); [lra|].
    destruct (Qlt_le_dec cv jd); [|lra].
    split; [apply Qdiv_nonneg | apply Qdiv_le_1]; lra.
  - destruct (positive_number cv_years); lra.
Qed.

Lemma education_bounds (jd_str : option string) (cv : option (list string)) :
  (0 <= calculate_education_match (T:=Q) jd_str cv <= 1)%Q.
Proof.
  unfold calculate_education_match.
  repeat match goal with
         | |- context [match ?x with _ => _ end] => destruct x
         end; cbn; lra.
Qed.

Lemma Q_clamp_unit (x : Q) : (0 <= py_max 0%Q (py_min 1%Q x) <= 1)%Q.
Proof.
  unfold py_max, py_min, ngtb.
  destruct (nltb x 1%Q) eqn:H1.
  - apply Q_nltb in H1. destruct (nltb 0%Q x) eqn:H0.
    + apply Q_nltb in H0. lra.
    + lra.
  - destruct (nltb 0%Q 1%Q); lra.
Qed.

(** C1 (as the code has it). Over exact numbers and for every pair of
    profiles and every weight map: the experience, education and
    essential-requirements scores lie in [0,1]; the skill score is a value
    that is at least 0, and at most 1 whenever the candidate's terms hit
    each expanded JD set in no more terms than the raw set holds; the
    overall score, which the aggregator clamps, lies in [0,1]. *)
Theorem score_bounds :
  ∀ (weights : gmap string Q) (jd : JobProfile) (cv : CandidateProfile Q),
    returns_in_unit
      (calculate_experience_match (required_experience_years jd) (total_experience_years cv))
    ∧ (0 <= calculate_education_match (T:=Q) (required_education jd) (Some (education cv)) <= 1)%Q
    ∧ returns_in_unit (check_essential_requirements jd cv)
    ∧ returns_nonneg (calculate_skill_match jd cv)
    ∧ (hits_within_raw jd cv → returns_in_unit (calculate_skill_match jd cv))
    ∧ (∃ (overall : Q) (details : match_details Q),
         score_loaded weights jd cv = Ret (Some overall, details)
         ∧ (0 <= overall <= 1)%Q).
Proof.
  intros weights jd cv.
  pose proof (experience_bounds (required_experience_years jd) (total_experience_years cv)) as He.
  pose proof (requirements_bounds jd cv) as Hr.
  pose proof (skill_match_bounds jd cv) as (s & Hs & Hs0 & Hs1).
  split; [exact He|]. split; [apply education_bounds|]. split; [exact Hr|].
  split; [by exists s|]. split; [intros Hh; exists s; auto|].
  destruct He as (e & He & _). destruct Hr as (r & Hr & _).
  unfold score_loaded. rewrite Hs, He, Hr. cbn [pybind].
  eexists _, _. split; [reflexivity|]. apply Q_clamp_unit.
Qed.

Lemma score_bounds_witness :
  hits_within_raw jd_e2e (cv_e2e (T:=Q))
  ∧ returns_in_unit (calculate_skill_match jd_e2e (cv_e2e (T:=Q))).
Proof.
  assert (Hh : hits_within_raw jd_e2e (cv_e2e (T:=Q))).
  { unfold hits_within_raw. vm_compute. lia. }
  split; [exact Hh|].
  exact (proj1 (proj2 (proj2 (proj2 (proj2 (score_bounds ∅ jd_e2e cv_e2e))))) Hh).
Defined.

(** C1 (as stated) fails for the skill score: a JD requiring "databases"
    against a CV listing "databases", "sql" and "mysql" has three hits in
    the expanded set for one raw requirement, and scores 3, which is not
    in [0,1]. *)
Lemma skill_match_exceeds_one :
  ¬ returns_in_unit (calculate_skill_match jd_databases (cv_databases (T:=Q))).
Proof.
  intros (v & Hv & _ & Hle).
  vm_compute in Hv. injection Hv as <-. by vm_compute in Hle.
Qed.

(** The same call evaluated in both arithmetics. *)
Lemma skill_match_databases :
  (∃ v : Q, calculate_skill_match jd_databases cv_databases = Ret v ∧ (v == 3)%Q)
  ∧ calculate_skill_match jd_databases cv_databases = Ret 3%float.
Proof.
  split; [|by vm_compute].
  eexists. split; [by vm_compute | by vm_compute].
Qed.

(** Over exact numbers no component scorer raises [ZeroDivisionError]:
    every call of the skill, essential-requirements and experience
    scorers returns a value, and so does every category ratio of the skill
    scorer (the education scorer is a total function that performs no
    division). *)
Lemma no_division_by_zero_exact :
  ∀ (jd : JobProfile) (cv : CandidateProfile Q)
    (jd_str : option string) (cv_years : pyval Q)
    (raw expanded terms : gset string) (fallback : Q),
    returns (calculate_skill_match jd cv)
    ∧ returns (check_essential_requirements jd cv)
    ∧ returns (calculate_experience_match jd_str cv_years)
    ∧ returns (category_match (T:=Q) raw expanded terms fallback).
Proof.
  intros jd cv jd_str cv_years raw expanded terms fallback.
  split; [|split; [|split]].
  - destruct (skill_match_bounds jd cv) as (v & Hv & _). by exists v.
  - destruct (requirements_bounds jd cv) as (v & Hv & _). by exists v.
  - destruct (experience_bounds jd_str cv_years) as (v & Hv & _). by exists v.
  - destruct (category_match_cases raw expanded terms fallback) as [[_ ->]|[_ ->]];
      by eexists.
Qed.

(** ** End-to-end scenario *)

(** C2 (as the code has it). In the end-to-end scenario the component
    scores are skills 0.5, experience 1, education 1 and requirements 1,
    in exact and in binary64 arithmetic, and so is the returned breakdown.
    Under the default weights the overall score is 0.80 in exact
    arithmetic; in the binary64 arithmetic the code runs on it is
    0x1.9999999999999p-1 = 0.7999999999999999, the double just below the
    one nearest to 0.80, which compares unequal to 0.80 and rounds to 0.8
    at three decimals. *)
Theorem end_to_end_scores :
  (* exact arithmetic *)
  (∃ v : Q, calculate_skill_match jd_e2e cv_e2e = Ret v ∧ (v == 0.5)%Q)
  ∧ calculate_experience_match (required_experience_years jd_e2e)
      (total_experience_years (cv_e2e (T:=Q))) = Ret 1%Q
  ∧ calculate_education_match (T:=Q) (required_education jd_e2e)
      (Some (education (cv_e2e (T:=Q)))) = 1%Q
  ∧ check_essential_requirements jd_e2e (cv_e2e (T:=Q)) = Ret 1%Q
  ∧ (∃ (overall s e d r : Q),
       score_loaded DEFAULT_WEIGHTS jd_e2e cv_e2e
       = Ret (Some overall, Breakdown s e d r DEFAULT_WEIGHTS)
       ∧ (overall == 0.80)%Q
       ∧ (s == 0.5)%Q ∧ (e == 1)%Q ∧ (d == 1)%Q ∧ (r == 1)%Q)
  (* binary64 arithmetic *)
  ∧ calculate_skill_match jd_e2e cv_e2e = Ret 0.5%float
  ∧ calculate_experience_match (required_experience_years jd_e2e)
      (total_experience_years (cv_e2e (T:=float))) = Ret 1%float
  ∧ calculate_education_match (T:=float) (required_education jd_e2e)
      (Some (education (cv_e2e (T:=float)))) = 1%float
  ∧ check_essential_requirements jd_e2e (cv_e2e (T:=float)) = Ret 1%float
  ∧ score_loaded DEFAULT_WEIGHTS jd_e2e cv_e2e
    = Ret (Some 0x1.9999999999999p-1%float,
           Breakdown 0.5%float 1%float 1%float 1%float DEFAULT_WEIGHTS)
  ∧ PrimFloat.eqb 0x1.9999999999999p-1 (of_Q 0.80) = false
  ∧ PrimFloat.next_up 0x1.9999999999999p-1 = of_Q 0.80
  ∧ py_round 0x1.9999999999999p-1%float 3 = of_Q 0.8.
Proof.
  split; [eexists; split; by vm_compute|].
  do 3 (split; [by vm_compute|]).
  split.
  { do 5 eexists. split; [by vm_compute|]. repeat split; by vm_compute. }
  repeat split; by vm_compute.
Qed.

(** C2 (as stated) fails in the arithmetic of the code: the overall score
    returned for the scenario is not the float 0.80 (the comparison
    [overall == 0.80] is false, [overall < 0.80] is true). *)
Lemma end_to_end_overall_not_080 :
  ¬ (∃ (overall : float) (details : match_details float),
       score_loaded DEFAULT_WEIGHTS jd_e2e cv_e2e = Ret (Some overall, details)
       ∧ neqb overall (of_Q 0.80) = true).
Proof.
  intros (overall & details & Hrun & Heq).
  vm_compute in Hrun. injection Hrun as <- _.
  vm_compute in Heq. discriminate.
Qed.

(** ** Failure kinds of the aggregator *)

Section FailureKinds.
Context {T : Type} `{PyNum T} {O : Type}.
Variable json_loads : string → option (pyjson O).
Variable jd_view : O → JobProfile.
Variable cv_view : O → CandidateProfile T.

Lemma safe_json_loads_dict (payload : option string) :
  is_dict (safe_json_loads json_loads payload) = true
  ↔ ∃ (s : string) (o : O), payload = Some s ∧ s ≠ "" ∧ json_loads s = Some (JDict o).
Proof.
  unfold safe_json_loads. split.
  - destruct payload as [[|c s]|]; [done| |done].
    destruct (json_loads (String c s)) as [[]|] eqn:Hl; try done.
    intros _. by exists (String c s), o.
  - intros (s & o & -> & Hne & Hl). destruct s as [|c s]; [done|]. by rewrite Hl.
Qed.

(** C8. When the JD row or the candidate row is absent the aggregator
    returns no score ([None]) with the error "Missing DB row data"; when
    both rows exist and a payload does not load as a dictionary (it is
    NULL, empty, undecodable, or decodes to another type) it returns the
    score 0 with an error dictionary that names each invalid side and its
    type.  Both are returned values: nothing is raised. *)
Theorem match_score_failure_kinds
    (weights : gmap string T) (jid cid : Z) (conn : database T) :
  (get_jd conn jid = None ∨ get_candidate conn cid = None →
   calculate_match_score json_loads jd_view cv_view weights jid cid conn
   = Ret (None, ErrorDetails {["error" := "Missing DB row data"]}))
  ∧ (∀ (jd_r : jd_row) (candidate_r : candidate_row),
       get_jd conn jid = Some jd_r →
       get_candidate conn cid = Some candidate_r →
       let jd_data := safe_json_loads json_loads (summary_json jd_r) in
       let cv_data := safe_json_loads json_loads (extracted_data_json candidate_r) in
       is_dict jd_data = false ∨ is_dict cv_data = false →
       ∃ d : gmap string string,
         calculate_match_score json_loads jd_view cv_view weights jid cid conn
         = Ret (Some (of_Q 0), ErrorDetails d)
         ∧ d !! "error" = Some "Invalid JSON data structure"
         ∧ d !! "jd_error"
           = (if is_dict jd_data then None
              else Some ("Invalid JD JSON (Type: " ++ type_name jd_data ++ ")"))
         ∧ d !! "cv_error"
           = (if is_dict cv_data then None
              else Some ("Invalid CV JSON (Type: " ++ type_name cv_data ++ ")")))
  ∧ (∀ payload : option string,
       is_dict (safe_json_loads json_loads payload) = true
       ↔ ∃ (s : string) (o : O),
           payload = Some s ∧ s ≠ "" ∧ json_loads s = Some (JDict o)).
Proof.
  split; [|split; [|apply safe_json_loads_dict]].
  - unfold calculate_match_score. intros [-> | Hc]; [done|].
    rewrite Hc. by destruct (get_jd conn jid).
  - intros jd_r candidate_r Hjd Hcand jd_data cv_data Hbad.
    unfold calculate_match_score. rewrite Hjd, Hcand.
    fold jd_data cv_data.
    destruct jd_data, cv_data; destruct Hbad as [Hbad|Hbad]; try discriminate Hbad;
      (eexists; split; [reflexivity|]; repeat split; vm_compute; reflexivity).
Qed.
End FailureKinds.

Lemma match_score_failure_kinds_witness :
  calculate_match_score loads_only_list fixed_jd_view fixed_cv_view
    DEFAULT_WEIGHTS 2 7 store_with_bad_payloads
  = Ret (None, ErrorDetails {["error" := "Missing DB row data"]})
  ∧ ∃ d : gmap string string,
      calculate_match_score loads_only_list fixed_jd_view fixed_cv_view
        DEFAULT_WEIGHTS 1 7 store_with_bad_payloads
      = Ret (Some 0%Q, ErrorDetails d)
      ∧ d !! "error" = Some "Invalid JSON data structure"
      ∧ d !! "jd_error" = Some "Invalid JD JSON (Type: list)"
      ∧ d !! "cv_error" = Some "Invalid CV JSON (Type: NoneType)".
Proof.
  split.
  - apply (proj1 (match_score_failure_kinds loads_only_list fixed_jd_view fixed_cv_view
                    DEFAULT_WEIGHTS 2 7 store_with_bad_payloads)).
    left. reflexivity.
  - destruct (proj1 (proj2 (match_score_failure_kinds loads_only_list fixed_jd_view fixed_cv_view
                              DEFAULT_WEIGHTS 1 7 store_with_bad_payloads))
                {| jd_id := 1; summary_json := Some "[]" |}
                {| candidate_id := 7; cv_filename := "c7.pdf"; extracted_data_json := None |}
                eq_refl eq_refl (or_introl eq_refl))
      as (d & Hrun & Herr & Hjd & Hcv).
    exists d. split; [exact Hrun|]. split; [exact Herr|]. split; [exact Hjd | exact Hcv].
Defined.

(** ** Shortlisting *)

Section ShortlistFacts.
Context {T : Type} `{PyNum T}.
Implicit Types (conn : database T) (m : match_row T) (r : match_row T * string).

Lemma with_matches_same conn : with_matches conn (matches conn) = conn.
Proof. by destruct conn. Qed.

Lemma with_matches_twice conn ms ms' :
  with_matches (with_matches conn ms) ms' = with_matches conn ms'.
Proof. done. Qed.

(** The loop appends the entries of the rows that pass, in order, and
    leaves each stored row as the updates issued for the rows make it. *)
Lemma shortlist_loop (threshold : T) (rows : list (match_row T * string))
    (sl : list (shortlisted T)) conn (n : nat) :
  fold_left (shortlist_row threshold) rows (sl, conn, n)
  = ((sl ++ map shortlist_entry (filter (λ r, passes threshold r = true) rows))%list,
     with_matches conn (map (update_by_rows threshold rows) (matches conn)),
     (n + length rows)%nat).
Proof.
  revert sl conn n. induction rows as [|r rows IH]; intros sl conn n.
  - cbn [fold_left]. rewrite filter_nil. cbn [map length].
    rewrite app_nil_r, Nat.add_0_r. unfold update_by_rows. cbn [fold_left].
    by rewrite map_id, with_matches_same.
  - cbn [fold_left]. unfold shortlist_row at 2, update_shortlist_status.
    fold (passes threshold r). rewrite IH. cbn [matches with_matches].
    rewrite with_matches_twice, map_map, filter_cons.
    f_equal; [f_equal|cbn [length]; lia].
    destruct (passes threshold r) eqn:Hp.
    + rewrite decide_True by done. cbn [map]. by rewrite <- app_assoc.
    + rewrite decide_False by done. done.
Qed.

Lemma insert_desc_perm r (l : list (match_row T * string)) :
  Permutation (insert_desc r l) (r :: l).
Proof.
  induction l as [|r' l IH]; cbn [insert_desc]; [done|].
  destruct (nltb _ _); [done|]. rewrite IH. apply perm_swap.
Qed.

Lemma sort_desc_perm (l : list (match_row T * string)) : Permutation (sort_desc l) l.
Proof.
  unfold sort_desc. transitivity (rev l); [|symmetry; apply Permutation_rev].
  generalize (rev l) as l'. induction l' as [|r l' IH]; cbn [fold_right]; [done|].
  by rewrite insert_desc_perm, IH.
Qed.

(** Sorting by score commutes with a change of the rows that keeps the
    scores. *)
Lemma insert_desc_map (g : match_row T * string → match_row T * string) r l :
  (∀ r, match_score (g r).1 = match_score r.1) →
  insert_desc (g r) (map g l) = map g (insert_desc r l).
Proof.
  intros Hg. induction l as [|r' l IH]; cbn [insert_desc map]; [done|].
  rewrite !Hg. destruct (nltb _ _); [done|]. cbn [map]. by rewrite IH.
Qed.

Lemma sort_desc_map (g : match_row T * string → match_row T * string) l :
  (∀ r, match_score (g r).1 = match_score r.1) →
  sort_desc (map g l) = map g (sort_desc l).
Proof.
  intros Hg. unfold sort_desc. rewrite <- map_rev.
  generalize (rev l) as l'. induction l' as [|r l' IH]; cbn [fold_right map]; [done|].
  by rewrite IH, insert_desc_map.
Qed.

(** The rows the query returns: the match rows of the job, each joined
    with a candidate row of the same id. *)
Lemma elem_of_get_matches conn (jid : Z) r :
  r ∈ get_matches_for_jd conn jid
  ↔ r.1 ∈ matches conn ∧ m_jd_id r.1 = jid
    ∧ ∃ c, c ∈ candidates conn ∧ candidate_id c = m_candidate_id r.1
           ∧ r.2 = cv_filename c.
Proof.
  unfold get_matches_for_jd. rewrite sort_desc_perm.
  rewrite list_elem_of_In, in_flat_map. split.
  - intros (m & Hm & Hr). apply list_elem_of_In in Hm.
    destruct (Z.eqb_spec (m_jd_id m) jid) as [Hj|Hj]; [|by destruct Hr].
    apply list_elem_of_In, list_elem_of_fmap in Hr as (c & -> & Hc).
    apply list_elem_of_filter in Hc as [Hid Hc]. cbn [fst snd].
    split; [done|]. split; [done|]. by exists c.
  - intros (Hm & Hj & c & Hc & Hid & Hf). exists r.1.
    split; [by apply list_elem_of_In|].
    apply Z.eqb_eq in Hj. rewrite Hj.
    apply list_elem_of_In, list_elem_of_fmap. exists c. split.
    + destruct r as [m f]. cbn [fst snd] in *. by rewrite Hf.
    + by apply list_elem_of_filter.
Qed.

Lemma has_candidate_spec conn m :
  has_candidate conn m = true
  ↔ ∃ c, c ∈ candidates conn ∧ candidate_id c = m_candidate_id m.
Proof.
  unfold has_candidate. rewrite existsb_exists. split.
  - intros (c & Hc & Hid). exists c. split; [by apply list_elem_of_In | by apply Z.eqb_eq].
  - intros (c & Hc & Hid). exists c. split; [by apply list_elem_of_In | by apply Z.eqb_eq].
Qed.

(** Match ids are a key of the table. *)
Lemma match_id_key (ms : list (match_row T)) m1 m2 :
  NoDup (map match_id ms) → m1 ∈ ms → m2 ∈ ms → match_id m1 = match_id m2 → m1 = m2.
Proof.
  induction ms as [|m ms IH]; intros Hnd H1 H2 Hid; [by apply elem_of_nil in H1|].
  cbn [map] in Hnd. apply NoDup_cons in Hnd as [Hnotin Hnd].
  apply elem_of_cons in H1 as [->|H1], H2 as [->|H2]; [done| | |by apply IH].
  - exfalso. apply Hnotin. rewrite Hid. by apply list_elem_of_fmap_2.
  - exfalso. apply Hnotin. rewrite <- Hid. by apply list_elem_of_fmap_2.
Qed.

Lemma set_status_twice m (a b : bool) : set_status (set_status m a) b = set_status m b.
Proof. done. Qed.

Lemma update_by_rows_spec (threshold : T) (rows : list (match_row T * string)) m :
  (∀ r, r ∈ rows → match_id r.1 = match_id m → match_score r.1 = match_score m) →
  update_by_rows threshold rows m
  = if existsb (λ r, match_id m =? match_id r.1) rows
    then set_status m (ngeb (match_score m) threshold)
    else m.
Proof.
  unfold update_by_rows. revert m.
  induction rows as [|r rows IH]; intros m Hsc; cbn [fold_left existsb]; [done|].
  destruct (Z.eqb_spec (match_id m) (match_id r.1)) as [Hid|Hid]; cbn [orb].
  - unfold passes. rewrite (Hsc r) by (done || by left).
    rewrite IH.
    + cbn [set_status match_id match_score]. destruct (existsb _ rows); by rewrite ?set_status_twice.
    + intros r' Hr' Hid'. cbn [set_status match_id match_score] in *.
      apply Hsc; [by right | done].
  - apply IH. intros r' Hr'. apply Hsc. by right.
Qed.

Lemma row_exists_iff conn (jid : Z) m :
  NoDup (map match_id (matches conn)) → m ∈ matches conn →
  existsb (λ r, match_id m =? match_id r.1) (get_matches_for_jd conn jid)
  = stored_for conn jid m.
Proof.
  intros Hnd Hm. apply eq_true_iff_eq. unfold stored_for.
  rewrite existsb_exists, andb_true_iff, has_candidate_spec, Z.eqb_eq. split.
  - intros (r & Hr & Hid). apply list_elem_of_In, elem_of_get_matches in Hr
      as (Hr & Hj & c & Hc & Hcid & _).
    apply Z.eqb_eq in Hid.
    assert (r.1 = m) as Heq by (by apply (match_id_key (matches conn))).
    rewrite Heq in *. split; [done | by exists c].
  - intros (Hj & c & Hc & Hcid). exists (m, cv_filename c). split.
    + apply list_elem_of_In, elem_of_get_matches. cbn [fst snd].
      split; [done|]. split; [done|]. by exists c.
    + apply Z.eqb_refl.
Qed.

(** What one run returns and leaves in the store. *)
Lemma shortlist_run (threshold : T) (jid : Z) conn :
  NoDup (map match_id (matches conn)) →
  shortlist_candidates_for_jd threshold jid conn
  = (map shortlist_entry
         (filter (λ r, passes threshold r = true) (get_matches_for_jd conn jid)),
     with_matches conn (map (decided threshold jid conn) (matches conn))).
Proof.
  intros Hnd.
  assert (Hdec : map (update_by_rows threshold (get_matches_for_jd conn jid)) (matches conn)
                 = map (decided threshold jid conn) (matches conn)).
  { apply map_ext_in. intros m Hm. apply list_elem_of_In in Hm.
    rewrite update_by_rows_spec.
    - by rewrite row_exists_iff.
    - intros r Hr Hid. apply elem_of_get_matches in Hr as (Hr & _).
      by rewrite (match_id_key (matches conn) r.1 m). }
  unfold shortlist_candidates_for_jd.
  destruct (get_matches_for_jd conn jid) as [|r rows] eqn:Hrows.
  - rewrite filter_nil. cbn [map]. f_equal.
    rewrite <- Hdec. unfold update_by_rows. cbn [fold_left].
    by rewrite map_id, with_matches_same.
  - rewrite shortlist_loop. cbn [app]. by rewrite Hdec.
Qed.

Lemma decided_keeps (threshold : T) (jid : Z) conn m :
  match_id (decided threshold jid conn m) = match_id m
  ∧ m_jd_id (decided threshold jid conn m) = m_jd_id m
  ∧ m_candidate_id (decided threshold jid conn m) = m_candidate_id m
  ∧ match_score (decided threshold jid conn m) = match_score m.
Proof. unfold decided. by destruct (stored_for conn jid m). Qed.

(** The query after a change of the stored rows that keeps job, candidate
    and score returns the changed rows in the same order. *)
Lemma get_matches_after (d : match_row T → match_row T) conn (jid : Z) :
  (∀ m, m_jd_id (d m) = m_jd_id m ∧ m_candidate_id (d m) = m_candidate_id m
        ∧ match_score (d m) = match_score m) →
  get_matches_for_jd (with_matches conn (map d (matches conn))) jid
  = map (λ r, (d r.1, r.2)) (get_matches_for_jd conn jid).
Proof.
  intros Hd. unfold get_matches_for_jd. cbn [matches candidates with_matches].
  rewrite <- sort_desc_map by (intros r; apply Hd). f_equal.
  induction (matches conn) as [|m ms IH]; cbn [map flat_map]; [done|].
  rewrite map_app, IH. f_equal.
  destruct (Hd m) as (-> & -> & _).
  destruct (m_jd_id m =? jid); [|done]. by rewrite map_map.
Qed.

Lemma entries_after (d : match_row T → match_row T) (threshold : T)
    (rows : list (match_row T * string)) :
  (∀ m, m_candidate_id (d m) = m_candidate_id m ∧ match_score (d m) = match_score m) →
  map shortlist_entry
      (filter (λ r, passes threshold r = true) (map (λ r, (d r.1, r.2)) rows))
  = map shortlist_entry (filter (λ r, passes threshold r = true) rows).
Proof.
  intros Hd. induction rows as [|r rows IH]; cbn [map]; [done|].
  destruct (Hd r.1) as [Hc Hs].
  assert (Hp : passes threshold (d r.1, r.2) = passes threshold r)
    by (unfold passes; cbn [fst]; by rewrite Hs).
  rewrite !filter_cons. destruct (passes threshold r) eqn:Hpr.
  - rewrite !decide_True by done. cbn [map]. rewrite IH. f_equal.
    unfold shortlist_entry. cbn [fst snd]. by rewrite Hc, Hs.
  - rewrite !decide_False by congruence. done.
Qed.

(** A run after a run: only the last threshold counts. *)
Lemma shortlist_rerun (threshold threshold2 : T) (jid : Z) conn :
  NoDup (map match_id (matches conn)) →
  shortlist_candidates_for_jd threshold2 jid
    (shortlist_candidates_for_jd threshold jid conn).2
  = shortlist_candidates_for_jd threshold2 jid conn.
Proof.
  intros Hnd. rewrite (shortlist_run threshold jid conn Hnd). cbn [snd].
  set (d := decided threshold jid conn).
  assert (Hd : ∀ m, match_id (d m) = match_id m ∧ m_jd_id (d m) = m_jd_id m
                    ∧ m_candidate_id (d m) = m_candidate_id m
                    ∧ match_score (d m) = match_score m)
    by (intros m; apply decided_keeps).
  rewrite !shortlist_run; [|done|].
  2:{ cbn [matches with_matches]. rewrite map_map.
      erewrite map_ext; [exact Hnd|]. intros m. apply Hd. }
  rewrite get_matches_after by (intros m; destruct (Hd m) as (_ & ? & ? & ?); done).
  rewrite entries_after by (intros m; destruct (Hd m) as (_ & _ & ? & ?); done).
  f_equal. cbn [matches with_matches]. rewrite with_matches_twice, map_map.
  f_equal. apply map_ext. intros m.
  destruct (Hd m) as (Hid & Hj & Hc & Hs).
  unfold decided, stored_for, has_candidate. cbn [candidates with_matches].
  rewrite Hj, Hc, Hs.
  fold (has_candidate conn m). fold (stored_for conn jid m).
  subst d. unfold decided. by destruct (stored_for conn jid m).
Qed.

(** C9. One run of the shortlister over the stored pairs of a job rewrites
    every pair's flag to [score >= threshold], whatever it was before, and
    touches nothing else; the returned list holds exactly the candidates
    of the pairs with [score >= threshold].  Running it again with the
    same threshold changes nothing and returns the same list; running it
    with another threshold gives what a first run with that threshold
    gives, so a lowered threshold turns flags on and a raised one turns
    them off. *)
Theorem shortlist_overwrites (threshold : T) (jid : Z) conn :
  NoDup (map match_id (matches conn)) →
  let res := shortlist_candidates_for_jd threshold jid conn in
  job_descriptions res.2 = job_descriptions conn
  ∧ candidates res.2 = candidates conn
  ∧ matches res.2 = map (decided threshold jid conn) (matches conn)
  ∧ (∀ m', m' ∈ matches res.2 → stored_for conn jid m' = true →
           shortlist_status m' = ngeb (match_score m') threshold)
  ∧ (∀ m', m' ∈ matches res.2 → stored_for conn jid m' = false → m' ∈ matches conn)
  ∧ (∀ cid : Z,
       cid ∈ map sl_candidate_id res.1
       ↔ ∃ m, m ∈ matches conn ∧ stored_for conn jid m = true
              ∧ m_candidate_id m = cid ∧ ngeb (match_score m) threshold = true)
  ∧ shortlist_candidates_for_jd threshold jid res.2 = res
  ∧ (∀ threshold2 : T,
       shortlist_candidates_for_jd threshold2 jid res.2
       = shortlist_candidates_for_jd threshold2 jid conn)
  ∧ (∀ (threshold2 : T) m'',
       m'' ∈ matches (shortlist_candidates_for_jd threshold2 jid res.2).2 →
       stored_for conn jid m'' = true →
       shortlist_status m'' = ngeb (match_score m'') threshold2).
Proof.
  intros Hnd res.
  assert (Hflag : ∀ (t : T) m',
            m' ∈ map (decided t jid conn) (matches conn) →
            stored_for conn jid m' = true →
            shortlist_status m' = ngeb (match_score m') t).
  { intros t m' Hm' Hst. apply list_elem_of_fmap in Hm' as (m & -> & Hm).
    destruct (decided_keeps t jid conn m) as (_ & Hj & Hc & Hs).
    revert Hst. unfold stored_for, has_candidate. rewrite Hj, Hc.
    fold (has_candidate conn m). fold (stored_for conn jid m).
    unfold decided. intros Hst. by rewrite Hst. }
  subst res. rewrite (shortlist_run threshold jid conn Hnd). cbn [fst snd].
  cbn [job_descriptions candidates matches with_matches].
  split; [done|]. split; [done|]. split; [done|].
  split; [apply Hflag|]. split.
  { intros m' Hm' Hst. apply list_elem_of_fmap in Hm' as (m & -> & Hm).
    destruct (decided_keeps threshold jid conn m) as (_ & Hj & Hc & Hs).
    revert Hst. unfold stored_for, has_candidate. rewrite Hj, Hc.
    fold (has_candidate conn m). fold (stored_for conn jid m).
    unfold decided. intros Hst. by rewrite Hst. }
  split.
  { intros cid. rewrite map_map, list_elem_of_fmap. split.
    - intros (r & -> & Hr). apply list_elem_of_filter in Hr as [Hp Hr].
      pose proof Hr as Hr'. apply elem_of_get_matches in Hr' as (Hm & Hj & c & Hc & Hcid & _).
      exists r.1. split; [done|]. split; [|done].
      unfold stored_for. apply andb_true_iff. split; [by apply Z.eqb_eq|].
      apply has_candidate_spec. by exists c.
    - intros (m & Hm & Hst & Hcid & Hp).
      apply andb_true_iff in Hst as [Hj Hc].
      apply has_candidate_spec in Hc as (c & Hc & Hcc).
      exists (m, cv_filename c). split; [done|].
      apply list_elem_of_filter. split; [done|].
      apply elem_of_get_matches. cbn [fst snd].
      split; [done|]. split; [by apply Z.eqb_eq | by exists c]. }
  pose proof (shortlist_rerun threshold threshold jid conn Hnd) as Hsame.
  rewrite (shortlist_run threshold jid conn Hnd) in Hsame. cbn [snd] in Hsame.
  split; [exact Hsame|].
  assert (Hre : ∀ threshold2 : T,
            shortlist_candidates_for_jd threshold2 jid
              (with_matches conn (map (decided threshold jid conn) (matches conn)))
            = shortlist_candidates_for_jd threshold2 jid conn).
  { intros t2. pose proof (shortlist_rerun threshold t2 jid conn Hnd) as Hr.
    by rewrite (shortlist_run threshold jid conn Hnd) in Hr. }
  split; [exact Hre|].
  intros t2 m'' Hm''. rewrite Hre, (shortlist_run t2 jid conn Hnd) in Hm''.
  cbn [snd matches with_matches] in Hm''. by apply Hflag.
Qed.
End ShortlistFacts.

Lemma shortlist_overwrites_witness :
  NoDup (map match_id (matches store_scored))
  ∧ map sl_candidate_id (shortlist_candidates_for_jd 0.75%Q 1 store_scored).1 = [2; 3]
  ∧ map shortlist_status (matches (shortlist_candidates_for_jd 0.75%Q 1 store_scored).2)
    = [false; true; false; true]
  ∧ shortlist_candidates_for_jd 0.75%Q 1
      (shortlist_candidates_for_jd 0.75%Q 1 store_scored).2
    = shortlist_candidates_for_jd 0.75%Q 1 store_scored.
Proof.
  assert (Hnd : NoDup (map match_id (matches store_scored))).
  { apply (bool_decide_unpack _). vm_compute. exact I. }
  split; [exact Hnd|]. split; [vm_compute; reflexivity|]. split; [vm_compute; reflexivity|].
  exact (proj1 (proj2 (proj2 (proj2 (proj2 (proj2 (proj2
           (shortlist_overwrites 0.75%Q 1 store_scored Hnd)))))))).
Defined.

(** ** The experience scorer on a NaN number of years *)

(** C10. In binary64 arithmetic the guards of the experience scorer let a
    NaN number of years through: NaN is an instance of [float], [NaN < 0]
    is false and [NaN >= jd_min_years] is false, so the division is
    reached whatever the JD minimum is; with the JD string "0 years" the
    divisor is 0.0 and the call raises [ZeroDivisionError]. *)
Theorem experience_match_nan_years_raises :
  as_number (PyNumber nan) = Some nan
  ∧ parse_experience_years (Some "0 years") = Some 0%float
  ∧ nltb nan (of_Q 0) = false
  ∧ ngeb nan 0%float = false
  ∧ calculate_experience_match (Some "0 years") (PyNumber nan) = Raise ZeroDivisionError
  ∧ calculate_experience_match (Some "0-2 years of experience") (PyNumber nan)
    = Raise ZeroDivisionError.
Proof. repeat split; by vm_compute. Qed.

(** * Further properties of the scorers *)

(** ** Lexical expander *)

Lemma expand_skills_elem (terms : gset string) (synonyms : gmap string (list string))
    (x : string) :
  x ∈ expand_skills terms synonyms
  ↔ x ∈ terms
    ∨ (∃ t l, t ∈ terms ∧ synonyms !! t = Some l ∧ x ∈ l)
    ∨ (∃ t l, t ∈ terms ∧ synonyms !! x = Some l ∧ t ∈ l).
Proof.
  unfold expand_skills. destruct (decide (terms = ∅)) as [->|Hne].
  - split; [set_solver|].
    intros [?|[(t & l & Ht & _)|(t & l & Ht & _)]]; set_solver.
  - rewrite expand_fold_spec. by setoid_rewrite elem_of_elements.
Qed.

(** X1. Expansion relates two terms symmetrically, for every synonym
    table: [x] is in the expansion of [t] exactly when [t] is in the
    expansion of [x]. *)
Theorem expand_skills_symmetric :
  ∀ (synonyms : gmap string (list string)) (t x : string),
    x ∈ expand_skills {[t]} synonyms ↔ t ∈ expand_skills {[x]} synonyms.
Proof.
  intros synonyms t x. rewrite !expand_skills_elem.
  setoid_rewrite elem_of_singleton. split.
  - intros [->|[(t' & l & -> & Hl & Hx)|(t' & l & -> & Hl & Ht)]].
    + by left.
    + right; right. by exists x, l.
    + right; left. by exists x, l.
  - intros [->|[(x' & l & -> & Hl & Hx)|(x' & l & -> & Hl & Ht)]].
    + by left.
    + right; right. by exists t, l.
    + right; left. by exists t, l.
Qed.

(** X2. Expansion distributes over union, for every synonym table: the
    expansion of a set is the union of the expansions of its parts, so a
    larger set never has a smaller expansion. *)
Theorem expand_skills_union :
  ∀ (synonyms : gmap string (list string)) (A B : gset string),
    expand_skills (A ∪ B) synonyms = expand_skills A synonyms ∪ expand_skills B synonyms
    ∧ (A ⊆ B → expand_skills A synonyms ⊆ expand_skills B synonyms).
Proof.
  intros synonyms A B.
  assert (Hun : ∀ A B : gset string,
            expand_skills (A ∪ B) synonyms
            = expand_skills A synonyms ∪ expand_skills B synonyms).
  { clear. intros A B. apply set_eq. intros x.
    rewrite elem_of_union, !expand_skills_elem.
    setoid_rewrite elem_of_union. split.
    - intros [[?|?]|[(t & l & [?|?] & ? & ?)|(t & l & [?|?] & ? & ?)]];
        first [ by left; left | by right; left
              | left; right; left; by exists t, l
              | right; right; left; by exists t, l
              | left; right; right; by exists t, l
              | right; right; right; by exists t, l ].
    - intros [[?|[(t & l & ? & ? & ?)|(t & l & ? & ? & ?)]]
             |[?|[(t & l & ? & ? & ?)|(t & l & ? & ? & ?)]]];
        first [ by left; left | by left; right
              | right; left; exists t, l; split; [by left | done]
              | right; left; exists t, l; split; [by right | done]
              | right; right; exists t, l; split; [by left | done]
              | right; right; exists t, l; split; [by right | done] ]. }
  split; [apply Hun|].
  intros Hsub. rewrite <- (subseteq_union_1_L A B Hsub), Hun.
  apply union_subseteq_l.
Qed.

(** ** Parsing the required years *)

Lemma digits_val_nonneg (s : string) (acc : Z) : 0 ≤ acc → 0 ≤ digits_val acc s.
Proof.
  revert acc. induction s as [|c s IH]; intros acc Hacc; cbn [digits_val]; [done|].
  apply IH. unfold digit_val. lia.
Qed.

Lemma decimal_value_nonneg (ip fp : string) : (0 <= decimal_value ip fp)%Q.
Proof.
  unfold decimal_value, Qle. cbn [Qnum Qden].
  pose proof (digits_val_nonneg fp (digits_val 0 ip) (digits_val_nonneg ip 0 ltac:(lia))).
  lia.
Qed.

(** X3. What [parse_experience_years] reads from a string: text before
    the first digit is ignored (so is a minus sign), the parsed minimum is
    never negative, and a run of digits followed by anything but a digit
    or a point (the "3" of "3-5 years") is read as that integer. *)
Theorem parse_experience_years_first_number :
  ∀ (T : Type) (N : PyNum T),
    (∀ pre s : string,
       no_digit pre →
       parse_experience_years (T:=T) (Some (pre ++ s)) = parse_experience_years (Some s))
    ∧ (∀ ds rest : string,
         ds ≠ "" → all_digits ds → continues_number rest = false →
         parse_experience_years (T:=T) (Some (ds ++ rest))
         = Some (of_Q (inject_Z (digits_val 0 ds))))
    ∧ (∀ (s : string) (v : Q),
         parse_experience_years (T:=Q) (Some s) = Some v → (0 <= v)%Q).
Proof.
  intros T N. split; [|split].
  - intros pre s Hpre. by rewrite !parse_via_first_number, first_number_skip.
  - intros ds rest Hne Hds Hrest. rewrite parse_via_first_number.
    destruct ds as [|c ds]; [done|].
    pose proof Hds as Hds'. unfold all_digits in Hds'. cbn [list_ascii_of_string] in Hds'.
    apply Forall_cons in Hds' as [Hc _].
    change (String c ds ++ rest)%string with (String c (ds ++ rest)).
    cbn [first_number]. rewrite Hc.
    change (String c (ds ++ rest)) with (String c ds ++ rest)%string.
    rewrite (take_digits_all _ _ Hds Hrest).
    destruct rest as [|c' rest]; [done|].
    cbn [continues_number] in Hrest. apply orb_false_elim in Hrest as [_ Hdot].
    destruct c' as [[] [] [] [] [] [] [] []]; try done.
  - intros s v. rewrite parse_via_first_number.
    destruct (first_number s) as [[ip fp]|]; [|done].
    intros [= <-]. apply decimal_value_nonneg.
Qed.

Lemma parse_experience_years_first_number_witness :
  no_digit "min. -" ∧ all_digits "3" ∧ continues_number "-5 years" = false
  ∧ parse_experience_years (T:=Q) (Some ("min. -" ++ "3-5 years"))
    = parse_experience_years (Some "3-5 years")
  ∧ parse_experience_years (T:=Q) (Some ("3" ++ "-5 years")) = Some 3%Q
  ∧ (0 <= 3)%Q.
Proof.
  assert (Hnd : no_digit "min. -") by (unfold no_digit; vm_compute; repeat constructor).
  assert (Hd : all_digits "3") by (unfold all_digits; vm_compute; repeat constructor).
  assert (Hc : continues_number "-5 years" = false) by reflexivity.
  pose proof (parse_experience_years_first_number Q _) as (H1 & H2 & H3).
  split; [exact Hnd|]. split; [exact Hd|]. split; [exact Hc|].
  split; [exact (H1 "min. -" "3-5 years" Hnd)|].
  split; [exact (H2 "3" "-5 years" ltac:(discriminate) Hd Hc)|].
  exact (H3 "3-5 years" 3%Q eq_refl).
Defined.

(** ** Experience match: order properties *)

Lemma Qdiv_le_compat (a b c : Q) : (0 < c)%Q → (a <= b)%Q → (a / c <= b / c)%Q.
Proof.
  intros Hc Hab. unfold Qdiv. apply Qmult_le_compat_r; [done|].
  apply Qlt_le_weak, Qinv_lt_0_compat, Hc.
Qed.

Lemma Qdiv_lt_1 (a b : Q) : (0 < b)%Q → (a < b)%Q → (a / b < 1)%Q.
Proof. intros Hb Hab. apply Qlt_shift_div_r; [done | lra]. Qed.

Lemma experience_score_spec_mono (jd : option Q) (cv1 cv2 : Q) :
  (cv1 <= cv2)%Q →
  (experience_score_spec jd (PyNumber cv1) <= experience_score_spec jd (PyNumber cv2))%Q.
Proof.
  intros Hle. unfold experience_score_spec, positive_number. cbn [as_number].
  destruct jd as [jd|].
  - destruct (Qlt_le_dec cv1 0), (Qlt_le_dec cv2 0); try lra.
    + destruct (Qlt_le_dec cv2 jd); [apply Qdiv_nonneg; lra | lra].
    + destruct (Qlt_le_dec cv1 jd), (Qlt_le_dec cv2 jd); try lra.
      * apply Qdiv_le_compat; lra.
      * apply Qdiv_le_1; lra.
  - destruct (Qlt_le_dec 0 cv1), (Qlt_le_dec 0 cv2); lra.
Qed.

(** X4. More years never score lower: for every JD string, the experience
    score is monotone in the candidate's number of years. *)
Theorem experience_match_monotone (jd_str : option string) (cv1 cv2 : Q) :
  (cv1 <= cv2)%Q →
  ∃ v1 v2 : Q,
    calculate_experience_match jd_str (PyNumber cv1) = Ret v1
    ∧ calculate_experience_match jd_str (PyNumber cv2) = Ret v2
    ∧ (v1 <= v2)%Q.
Proof.
  intros Hle.
  destruct (experience_match_exact jd_str (PyNumber cv1)) as (v1 & Hr1 & Hv1).
  destruct (experience_match_exact jd_str (PyNumber cv2)) as (v2 & Hr2 & Hv2).
  exists v1, v2. split; [done|]. split; [done|].
  rewrite Hv1, Hv2. by apply experience_score_spec_mono.
Qed.

Lemma experience_match_monotone_witness :
  ∃ v1 v2 : Q,
    calculate_experience_match (Some "5 years") (PyNumber 2%Q) = Ret v1
    ∧ calculate_experience_match (Some "5 years") (PyNumber 4%Q) = Ret v2
    ∧ (v1 <= v2)%Q.
Proof. apply (experience_match_monotone (Some "5 years") 2 4). by vm_compute. Defined.

(** X5. When the JD states a minimum, full credit is given exactly to the
    candidates that reach it: the score is 1 if and only if the years are
    non-negative and at least the minimum, and is below 1 otherwise. *)
Theorem experience_full_credit_iff (jd_str : option string) (jd cv : Q) :
  parse_experience_years jd_str = Some jd →
  ∃ v : Q,
    calculate_experience_match jd_str (PyNumber cv) = Ret v
    ∧ ((v == 1)%Q ↔ (0 <= cv)%Q ∧ (jd <= cv)%Q)
    ∧ (v <= 1)%Q.
Proof.
  intros Hparse.
  destruct (experience_match_exact jd_str (PyNumber cv)) as (v & Hr & Hv).
  exists v. split; [done|]. rewrite Hv, Hparse.
  unfold experience_score_spec. cbn [as_number].
  destruct (Qlt_le_dec cv 0).
  { split; [|lra]. split; [intros Heq; lra | intros [? ?]; lra]. }
  destruct (Qlt_le_dec cv jd).
  - assert (cv / jd < 1)%Q by (apply Qdiv_lt_1; lra).
    split; [|lra]. split; [intros Heq; lra | intros [? ?]; lra].
  - split; [|lra]. split; [by intros _ | reflexivity].
Qed.

Lemma experience_full_credit_iff_witness :
  ∃ v : Q,
    calculate_experience_match (Some "5 years") (PyNumber 7%Q) = Ret v
    ∧ ((v == 1)%Q ↔ (0 <= 7)%Q ∧ (5 <= 7)%Q)
    ∧ (v <= 1)%Q.
Proof. exact (experience_full_credit_iff (Some "5 years") 5 7 eq_refl). Defined.

(** ** Education match: what the score depends on *)

Lemma lower_ascii_idemp (c : ascii) : lower_ascii (lower_ascii c) = lower_ascii c.
Proof. by destruct c as [[] [] [] [] [] [] [] []]. Qed.

Lemma lower_idemp (s : string) : lower (lower s) = lower s.
Proof. induction s as [|c s IH]; cbn [lower]; [done|]. by rewrite lower_ascii_idemp, IH. Qed.

Lemma education_match_levels {T} `{PyNum T} (jd : string) (cv : list string) :
  calculate_education_match (Some jd) (Some cv)
  = if blank_education jd then of_Q 0.5
    else match cv with
         | [] => of_Q 0
         | _ :: _ =>
             if (level_of (lower jd) =? 0)%nat then of_Q 0.5
             else if (level_of (lower jd) <=? highest_level cv)%nat then of_Q 1
             else of_Q 0
         end.
Proof.
  unfold calculate_education_match, blank_education.
  destruct (_ || _); [done|]. destruct cv as [|p cv]; [done|].
  rewrite jd_level_of_spec, cv_level_of_spec.
  destruct (level_of (lower jd) =? 0)%nat; [|done].
  by destruct (_ <? _)%nat.
Qed.

Lemma blank_education_lower (jd : string) :
  blank_education (lower jd) = blank_education jd.
Proof.
  unfold blank_education. rewrite lower_idemp. f_equal. by destruct jd.
Qed.

Lemma highest_level_lower (cv : list string) :
  highest_level (map lower cv) = highest_level cv.
Proof.
  unfold highest_level. rewrite map_map. f_equal.
  apply map_ext. intros p. by rewrite lower_idemp.
Qed.

Lemma highest_level_app (cv more : list string) :
  highest_level (cv ++ more) = Nat.max (highest_level cv) (highest_level more).
Proof.
  unfold highest_level. rewrite map_app.
  induction (map _ cv) as [|n ns IH]; cbn [app max_list_with]; [done|].
  rewrite IH. unfold id. apply Nat.max_assoc.
Qed.

Section EducationOrder.
Context {T : Type} `{PyNum T}.

(** X6. The education score ignores letter case: lower-casing the JD
    string and every CV phrase leaves it unchanged. *)
Theorem education_match_case_insensitive :
  ∀ (jd : string) (cv : option (list string)),
    calculate_education_match (Some jd) cv
    = calculate_education_match (Some (lower jd)) (option_map (map lower) cv).
Proof.
  intros jd [cv|]; cbn [option_map].
  - rewrite !education_match_levels, blank_education_lower, lower_idemp,
      highest_level_lower.
    by destruct cv.
  - unfold calculate_education_match.
    fold (blank_education jd). fold (blank_education (lower jd)).
    by rewrite blank_education_lower.
Qed.

(** X7. The education score does not depend on the order of the CV
    phrases. *)
Theorem education_match_order_irrelevant (jd : option string) (cv cv' : list string) :
  cv ≡ₚ cv' →
  calculate_education_match jd (Some cv) = calculate_education_match jd (Some cv').
Proof.
  intros Hperm. destruct jd as [jd|]; [|done].
  rewrite !education_match_levels.
  assert (Hlvl : highest_level cv = highest_level cv').
  { unfold highest_level. by rewrite Hperm. }
  rewrite Hlvl. destruct cv as [|p cv], cv' as [|p' cv']; try done.
  - by apply Permutation_nil_cons in Hperm.
  - symmetry in Hperm. by apply Permutation_nil_cons in Hperm.
Qed.
End EducationOrder.

Lemma education_match_order_irrelevant_witness :
  ["bsc"; "phd in physics"] ≡ₚ ["phd in physics"; "bsc"]
  ∧ calculate_education_match (T:=Q) (Some "Master's degree") (Some ["bsc"; "phd in physics"])
    = calculate_education_match (Some "Master's degree") (Some ["phd in physics"; "bsc"]).
Proof.
  assert (Hp : ["bsc"; "phd in physics"] ≡ₚ ["phd in physics"; "bsc"]) by apply perm_swap.
  split; [exact Hp|].
  exact (education_match_order_irrelevant (T:=Q) (Some "Master's degree") _ _ Hp).
Defined.

(** X8. More CV phrases never score lower: appending education phrases to
    a CV leaves the education score as it is or raises it. *)
Theorem education_match_monotone :
  ∀ (jd : option string) (cv more : list string),
    (calculate_education_match (T:=Q) jd (Some cv)
     <= calculate_education_match jd (Some (cv ++ more)%list))%Q.
Proof.
  intros jd cv more. destruct jd as [jd|]; [|cbn; lra].
  destruct cv as [|p cv].
  { cbn [app]. pose proof (education_bounds (Some jd) (Some more)) as Hb.
    rewrite (education_match_levels jd []).
    destruct (blank_education jd) eqn:Hbl; cbn [of_Q Q_PyNum]; [|lra].
    rewrite education_match_levels, Hbl. cbn [of_Q Q_PyNum]. lra. }
  rewrite !education_match_levels. cbn [app].
  destruct (blank_education jd); [cbn [of_Q Q_PyNum]; lra|].
  destruct (level_of (lower jd) =? 0)%nat; [cbn [of_Q Q_PyNum]; lra|].
  change (p :: cv ++ more)%list with ((p :: cv) ++ more)%list. rewrite highest_level_app.
  destruct (Nat.leb_spec (level_of (lower jd)) (highest_level (p :: cv))) as [Hle|Hlt].
  - rewrite (proj2 (Nat.leb_le _ _)) by lia. cbn [of_Q Q_PyNum]; lra.
  - destruct (_ <=? _)%nat; cbn [of_Q Q_PyNum]; lra.
Qed.

(** ** Essential requirements: extreme scores and order *)

Lemma Qdiv_eq_1 (a b : Q) : ¬ (b == 0)%Q → (a / b == 1)%Q ↔ (a == b)%Q.
Proof.
  intros Hb. split; intros Heq.
  - transitivity (b * (a / b))%Q; [symmetry; by apply Qmult_div_r|].
    transitivity (b * 1)%Q; [by apply Qmult_comp | ring].
  - transitivity (b / b)%Q; [by apply Qdiv_comp|].
    unfold Qdiv. by apply Qmult_inv_r.
Qed.

Lemma Qdiv_eq_0 (a b : Q) : ¬ (b == 0)%Q → (a / b == 0)%Q ↔ (a == 0)%Q.
Proof.
  intros Hb. split; intros Heq.
  - transitivity (b * (a / b))%Q; [symmetry; by apply Qmult_div_r|].
    transitivity (b * 0)%Q; [by apply Qmult_comp | ring].
  - transitivity (0 / b)%Q; [by apply Qdiv_comp|].
    unfold Qdiv. ring.
Qed.

Lemma Q_of_nat_eq (a b : nat) : (of_nat (T:=Q) a == of_nat b)%Q ↔ a = b.
Proof. unfold of_nat. cbn. unfold Qeq. simpl. lia. Qed.

Lemma filter_all_iff (P : string → Prop) `{!∀ x, Decision (P x)} (X : gset string) :
  size (filter P X) = size X ↔ ∀ x, x ∈ X → P x.
Proof.
  split.
  - intros Hsz x Hx.
    assert (filter P X = X) as Heq.
    { apply set_subseteq_size_eq; [|lia]. intros y. rewrite elem_of_filter. tauto. }
    rewrite <- Heq in Hx. by apply elem_of_filter in Hx as [? _].
  - intros Hall. f_equal. apply set_eq. intros x. rewrite elem_of_filter.
    split; [tauto | intros Hx; split; [by apply Hall | done]].
Qed.

Lemma filter_none_iff (P : string → Prop) `{!∀ x, Decision (P x)} (X : gset string) :
  size (filter P X) = 0%nat ↔ ∀ x, x ∈ X → ¬ P x.
Proof.
  rewrite size_empty_iff. split.
  - intros He x Hx HP. apply (not_elem_of_empty (C:=gset string) x).
    rewrite <- He. by apply elem_of_filter.
  - intros Hnone x. split; [|by intros ?%not_elem_of_empty].
    rewrite elem_of_filter. intros [HP Hx]. by destruct (Hnone x Hx).
Qed.

Lemma requirements_all_met (jd : JobProfile) (cv : CandidateProfile Q) :
  (∀ r, r ∈ (list_to_set (essential_requirements jd) : gset string) → met_spec cv r) →
  ∃ v : Q, check_essential_requirements jd cv = Ret v ∧ (v == 1)%Q.
Proof.
  intros Hall. rewrite requirements_ratio_exact. eexists. split; [done|].
  set (reqs := list_to_set (essential_requirements jd) : gset string) in *.
  unfold requirements_score_spec.
  destruct (decide (reqs = ∅)) as [He|Hne]; [done|].
  pose proof (nonempty_size _ Hne) as Hsz.
  change (inject_Z (Z.of_nat ?n)) with (of_nat (T:=Q) n).
  rewrite Qdiv_eq_1 by (by apply Q_of_nat_nonzero).
  by rewrite Q_of_nat_eq, filter_all_iff.
Qed.

(** X9. The essential-requirements score is 1 exactly when every
    requirement is met (in particular when there is none), and 0 exactly
    when there are requirements and none of them is met. *)
Theorem requirements_score_extremes :
  ∀ (jd : JobProfile) (cv : CandidateProfile Q),
    ∃ v : Q,
      check_essential_requirements jd cv = Ret v
      ∧ ((v == 1)%Q
         ↔ ∀ r, r ∈ (list_to_set (essential_requirements jd) : gset string) → met_spec cv r)
      ∧ ((v == 0)%Q
         ↔ essential_requirements jd ≠ []
           ∧ ∀ r, r ∈ (list_to_set (essential_requirements jd) : gset string)
                  → ¬ met_spec cv r).
Proof.
  intros jd cv.
  rewrite requirements_ratio_exact. eexists. split; [done|].
  set (reqs := list_to_set (essential_requirements jd) : gset string).
  unfold requirements_score_spec.
  destruct (decide (reqs = ∅)) as [He|Hne].
  - split.
    + split; [|done]. intros _ r Hr. rewrite He in Hr. by apply not_elem_of_empty in Hr.
    + split; [intros Heq; by apply Q_apart_0_1 in Heq|].
      intros [Hnil _]. exfalso. subst reqs.
      destruct (essential_requirements jd) as [|r l]; [done|].
      apply (not_elem_of_empty (C:=gset string) r). rewrite <- He. set_solver.
  - pose proof (nonempty_size _ Hne) as Hsz.
    change (inject_Z (Z.of_nat ?n)) with (of_nat (T:=Q) n).
    rewrite Qdiv_eq_1, Qdiv_eq_0 by (by apply Q_of_nat_nonzero).
    rewrite Q_of_nat_eq, (Q_of_nat_eq _ 0), filter_all_iff, filter_none_iff.
    split; [done|]. split; [|tauto].
    intros Hnone. split; [|done]. intros Hnil. apply Hne. subst reqs. by rewrite Hnil.
Qed.

Lemma append_assoc (a b c : string) : ((a ++ b) ++ c = a ++ (b ++ c))%string.
Proof.
  induction a as [|x a IH]; [reflexivity|].
  change (String x ((a ++ b) ++ c) = String x (a ++ (b ++ c)))%string. by rewrite IH.
Qed.

Lemma append_empty_r (a : string) : (a ++ "")%string = a.
Proof.
  induction a as [|x a IH]; [reflexivity|].
  change (String x (a ++ "") = String x a)%string. by rewrite IH.
Qed.

Lemma is_substring_app_r (p s rest : string) :
  is_substring p s → is_substring p (s ++ rest).
Proof.
  intros (pre & post & ->). exists pre, (post ++ rest)%string.
  by rewrite !append_assoc.
Qed.

(** The joined text of a list is a prefix of the joined text of any
    extension of the list. *)
Lemma join_app_prefix (sep : string) (l more : list string) :
  ∃ rest : string, join sep (l ++ more) = (join sep l ++ rest)%string.
Proof.
  induction l as [|x l IH].
  - by exists (join sep more).
  - destruct l as [|y l].
    + destruct more as [|z more]; cbn [app join].
      * exists ""%string. by rewrite append_empty_r.
      * by exists (sep ++ join sep (z :: more))%string.
    + destruct IH as (rest & IH). exists rest.
      change (join sep ((x :: y :: l) ++ more))
        with (x ++ sep ++ join sep ((y :: l) ++ more))%string.
      rewrite IH. cbn [join]. by rewrite !append_assoc.
Qed.

(** X10. A requirement that is the empty string is met by every
    candidate (it is a substring of any education text), so a JD whose
    requirements are all empty strings scores 1 against every CV. *)
Theorem empty_requirement_always_met :
  ∀ (jd : JobProfile) (cv : CandidateProfile Q),
    met_spec cv ""
    ∧ ((∀ r, r ∈ essential_requirements jd → r = "") →
       ∃ v : Q, check_essential_requirements jd cv = Ret v ∧ (v == 1)%Q).
Proof.
  intros jd cv.
  assert (Hmet : met_spec cv "").
  { right. by exists ""%string, (join " " (map lower (education cv))). }
  split; [exact Hmet|]. intros Hall.
  apply requirements_all_met. intros r Hr.
  apply elem_of_list_to_set in Hr. by rewrite (Hall r Hr).
Qed.

(** X11. More qualifications never score lower: a CV that lists every
    skill and certification of another and whose education list extends
    the other's scores at least as high on the essential requirements. *)
Theorem requirements_monotone (jd : JobProfile) (cv cv' : CandidateProfile Q)
    (more : list string) :
  skills cv ⊆ skills cv' →
  certifications cv ⊆ certifications cv' →
  education cv' = (education cv ++ more)%list →
  ∃ v v' : Q,
    check_essential_requirements jd cv = Ret v
    ∧ check_essential_requirements jd cv' = Ret v'
    ∧ (v <= v')%Q.
Proof.
  intros Hs Hc He. rewrite !requirements_ratio_exact. eexists _, _.
  split; [done|]. split; [done|].
  set (reqs := list_to_set (essential_requirements jd) : gset string).
  unfold requirements_score_spec. destruct (decide (reqs = ∅)) as [|Hne]; [lra|].
  apply Qdiv_le_compat; [by apply (Q_of_nat_pos _ (nonempty_size _ Hne))|].
  apply (Q_of_nat_le (size _) (size _)), subseteq_size.
  intros r. rewrite !elem_of_filter. intros [Hmet Hr]. split; [|done].
  destruct Hmet as [Hin|Hsub].
  - left. revert Hin. rewrite !elem_of_union, !elem_of_list_to_set. intros [?|?]; auto.
  - right. rewrite He, map_app.
    destruct (join_app_prefix " " (map lower (education cv)) (map lower more)) as (rest & ->).
    by apply is_substring_app_r.
Qed.

Lemma requirements_monotone_witness :
  skills (cv_e2e (T:=Q)) ⊆ skills (cv_certified (T:=Q))
  ∧ ∃ v v' : Q,
      check_essential_requirements jd_certified (cv_e2e (T:=Q)) = Ret v
      ∧ check_essential_requirements jd_certified (cv_certified (T:=Q)) = Ret v'
      ∧ (v <= v')%Q.
Proof.
  assert (Hs : skills (cv_e2e (T:=Q)) ⊆ skills (cv_certified (T:=Q))).
  { apply (bool_decide_unpack _). by vm_compute. }
  assert (Hc : certifications (cv_e2e (T:=Q)) ⊆ certifications (cv_certified (T:=Q))).
  { apply (bool_decide_unpack _). by vm_compute. }
  split; [exact Hs|].
  exact (requirements_monotone jd_certified cv_e2e cv_certified ["msc in data science"]
           Hs Hc eq_refl).
Defined.

(** ** Skill match: weighted average of the listed categories *)

Lemma category_match_value (raw expanded cv : gset string) (fallback : Q) :
  category_match (T:=Q) raw expanded cv fallback
  = Ret (category_value raw expanded cv fallback).
Proof.
  unfold category_value.
  destruct (category_match_cases raw expanded cv fallback) as [[Hne ->]|[He ->]].
  - by rewrite decide_True.
  - rewrite decide_False; [done|]. by intros ?.
Qed.

(** The skill scorer over exact numbers, in closed form. *)
Lemma skill_match_closed (jd : JobProfile) (cv : CandidateProfile Q) :
  calculate_skill_match jd cv
  = Ret (let sums := skill_sums jd (skill_matches jd cv) in
         if Qeq_bool sums.2 0 then 0.5 else sums.1 / sums.2)%Q.
Proof.
  unfold calculate_skill_match, skill_matches, skill_sums.
  fold (raw_required jd) (raw_preferred jd) (raw_domain jd) (all_cv_terms cv).
  rewrite !category_match_value. cbn [pybind of_Q Q_PyNum].
  set (acc := add_category (list_to_set (jd_soft_skills jd)) _ _ _).
  destruct acc as [ws tw]. cbn [fst snd].
  unfold py_div. cbn [neqb of_Q Q_PyNum ndiv].
  by destruct (Qeq_bool tw 0).
Qed.

Lemma category_value_nonneg (raw expanded cv : gset string) (fallback : Q) :
  (0 <= fallback)%Q → (0 <= category_value raw expanded cv fallback)%Q.
Proof.
  intros Hf. unfold category_value. destruct (decide _) as [Hne|]; [|done].
  by apply (ratio_nonneg _ _ (nonempty_size _ Hne)).
Qed.

Lemma category_value_mono (raw expanded cv cv' : gset string) (fallback : Q) :
  cv ⊆ cv' →
  (category_value raw expanded cv fallback <= category_value raw expanded cv' fallback)%Q.
Proof.
  intros Hsub. unfold category_value. destruct (decide _) as [Hne|]; [|lra].
  apply Qdiv_le_compat; [by apply (Q_of_nat_pos _ (nonempty_size _ Hne))|].
  apply (Q_of_nat_le (size _) (size _)), subseteq_size.
  intros x. rewrite !elem_of_intersection. intros [? ?]. auto.
Qed.

(** Adding a category keeps the denominator independent of the match,
    keeps it non-negative, and is monotone in the match. *)
Lemma add_category_weight (raw : gset string) (m m' w : Q) (acc acc' : Q * Q) :
  acc.2 = acc'.2 → (add_category raw m w acc).2 = (add_category raw m' w acc').2.
Proof. intros Hw. unfold add_category. destruct (decide _); cbn; by rewrite ?Hw. Qed.

Lemma add_category_mono (raw : gset string) (m m' w : Q) (acc acc' : Q * Q) :
  (0 <= w)%Q → (m <= m')%Q → (acc.1 <= acc'.1)%Q →
  ((add_category raw m w acc).1 <= (add_category raw m' w acc').1)%Q.
Proof.
  intros Hw Hm Hacc. unfold add_category. destruct (decide _); cbn; [nra | done].
Qed.

(** The numerator stays between [a] and [b] times the denominator when
    the match of a listed category lies between [a] and [b]. *)
Lemma add_category_between (raw : gset string) (m w a b : Q) (acc : Q * Q) :
  (0 < w)%Q → (raw ≠ ∅ → (a <= m <= b)%Q) →
  (0 <= acc.2)%Q → (a * acc.2 <= acc.1 <= b * acc.2)%Q →
  let acc' := add_category raw m w acc in
  (0 <= acc'.2)%Q ∧ (a * acc'.2 <= acc'.1 <= b * acc'.2)%Q
  ∧ (raw ≠ ∅ → (0 < acc'.2)%Q) ∧ ((0 < acc.2)%Q → (0 < acc'.2)%Q).
Proof.
  intros Hw Hm Hacc2 Hacc. unfold add_category.
  destruct (decide (raw ≠ ∅)) as [Hne|He]; cbn.
  - specialize (Hm Hne). repeat split; try nra.
  - repeat split; try tauto.
Qed.

Lemma list_to_set_nonempty (l : list string) :
  l ≠ [] ↔ (list_to_set l : gset string) ≠ ∅.
Proof.
  destruct l as [|x l]; [done|]. split; [|done].
  intros _ He. apply (not_elem_of_empty (C:=gset string) x). rewrite <- He.
  apply elem_of_list_to_set. by left.
Qed.

Lemma list_to_set_mono (l l' : list string) :
  l ⊆ l' → (list_to_set l : gset string) ⊆ list_to_set l'.
Proof. intros Hsub x. rewrite !elem_of_list_to_set. apply Hsub. Qed.

(** X12. More listed terms never score lower: a CV that lists, field by
    field, every skill, domain and soft skill of another scores at least
    as high on skills, for every JD. *)
Theorem skill_match_monotone (jd : JobProfile) (cv cv' : CandidateProfile Q) :
  cv_terms_within cv cv' →
  ∃ v v' : Q,
    calculate_skill_match jd cv = Ret v
    ∧ calculate_skill_match jd cv' = Ret v'
    ∧ (v <= v')%Q.
Proof.
  intros (Hs & Hd & Hf). rewrite !skill_match_closed. eexists _, _.
  split; [done|]. split; [done|].
  assert (Hall : all_cv_terms cv ⊆ all_cv_terms cv').
  { unfold all_cv_terms. intros x. rewrite !elem_of_union, !elem_of_list_to_set.
    intros [[?|?]|?]; auto. }
  unfold skill_matches, skill_sums.
  set (m1 := category_value (raw_required jd) _ (all_cv_terms cv) _).
  set (m1' := category_value (raw_required jd) _ (all_cv_terms cv') _).
  set (m2 := category_value (raw_preferred jd) _ (all_cv_terms cv) _).
  set (m2' := category_value (raw_preferred jd) _ (all_cv_terms cv') _).
  set (m3 := category_value (raw_domain jd) _ (list_to_set (cv_domain_expertise cv)) _).
  set (m3' := category_value (raw_domain jd) _ (list_to_set (cv_domain_expertise cv')) _).
  set (m4 := category_value _ _ (list_to_set (cv_soft_skills cv)) _).
  set (m4' := category_value _ _ (list_to_set (cv_soft_skills cv')) _).
  assert (H1 : (m1 <= m1')%Q) by (by apply category_value_mono).
  assert (H2 : (m2 <= m2')%Q) by (by apply category_value_mono).
  assert (H3 : (m3 <= m3')%Q) by (by apply category_value_mono, list_to_set_mono).
  assert (H4 : (m4 <= m4')%Q) by (by apply category_value_mono, list_to_set_mono).
  set (soft := list_to_set (jd_soft_skills jd) : gset string).
  set (a1 := add_category (raw_required jd) m1 0.60 (0%Q, 0%Q)).
  set (a1' := add_category (raw_required jd) m1' 0.60 (0%Q, 0%Q)).
  set (a2 := add_category (raw_preferred jd) m2 0.10 a1).
  set (a2' := add_category (raw_preferred jd) m2' 0.10 a1').
  set (a3 := add_category (raw_domain jd) m3 0.15 a2).
  set (a3' := add_category (raw_domain jd) m3' 0.15 a2').
  set (a4 := add_category soft m4 0.15 a3).
  set (a4' := add_category soft m4' 0.15 a3').
  assert (W1 : a1.2 = a1'.2) by (by apply add_category_weight).
  assert (W2 : a2.2 = a2'.2) by (by apply add_category_weight).
  assert (W3 : a3.2 = a3'.2) by (by apply add_category_weight).
  assert (W4 : a4.2 = a4'.2) by (by apply add_category_weight).
  assert (L1 : (a1.1 <= a1'.1)%Q) by (apply add_category_mono; cbn; lra).
  assert (L2 : (a2.1 <= a2'.1)%Q) by (apply add_category_mono; [lra | done | done]).
  assert (L3 : (a3.1 <= a3'.1)%Q) by (apply add_category_mono; [lra | done | done]).
  assert (L4 : (a4.1 <= a4'.1)%Q) by (apply add_category_mono; [lra | done | done]).
  assert (P : (0 <= a4.2)%Q).
  { pose proof (add_category_between (raw_required jd) m1 0.60 m1 m1 (0%Q, 0%Q)) as B1.
    pose proof (add_category_between (raw_preferred jd) m2 0.10 m2 m2 a1) as B2.
    pose proof (add_category_between (raw_domain jd) m3 0.15 m3 m3 a2) as B3.
    pose proof (add_category_between soft m4 0.15 m4 m4 a3) as B4.
    cbv zeta in B1, B2, B3, B4. fold a1 in B1. fold a2 in B2. fold a3 in B3. fold a4 in B4.
    destruct B1 as (B1 & _); [lra | intros; lra | cbn; lra | cbn; lra |].
    assert (0 <= a2.2)%Q as B2'.
    { unfold a2, add_category. destruct (decide _); cbn; lra. }
    assert (0 <= a3.2)%Q as B3'.
    { unfold a3, add_category. destruct (decide _); cbn; lra. }
    unfold a4, add_category. destruct (decide _); cbn; lra. }
  cbv zeta. rewrite <- W4.
  destruct (Qeq_bool a4.2 0) eqn:Hz; [lra|].
  apply Qeq_bool_neq in Hz. apply Qdiv_le_compat; [lra | done].
Qed.

Lemma skill_match_monotone_witness :
  cv_terms_within (cv_e2e (T:=Q)) (cv_certified (T:=Q))
  ∧ ∃ v v' : Q,
      calculate_skill_match jd_certified (cv_e2e (T:=Q)) = Ret v
      ∧ calculate_skill_match jd_certified (cv_certified (T:=Q)) = Ret v'
      ∧ (v <= v')%Q.
Proof.
  assert (Hw : cv_terms_within (cv_e2e (T:=Q)) (cv_certified (T:=Q))).
  { repeat split; apply (bool_decide_unpack _); by vm_compute. }
  split; [exact Hw|].
  exact (skill_match_monotone jd_certified cv_e2e cv_certified Hw).
Defined.

Lemma category_match_unlisted {T} `{PyNum T} (expanded cv : gset string) (fallback : Q) :
  category_match (T:=T) ∅ expanded cv fallback = Ret (of_Q fallback).
Proof. unfold category_match. by rewrite decide_False by (by intros ?). Qed.

Lemma add_category_unlisted {T} `{PyNum T} (m : T) (w : Q) (acc : T * T) :
  add_category ∅ m w acc = acc.
Proof. unfold add_category. by rewrite decide_False by (by intros ?). Qed.

Lemma skill_match_no_categories {T} `{PyNum T} (jd : JobProfile) (cv : CandidateProfile T) :
  neqb (of_Q (T:=T) 0) (of_Q 0) = true →
  required_skills jd = [] → preferred_skills jd = [] →
  jd_domain_expertise jd = [] → jd_soft_skills jd = [] →
  calculate_skill_match jd cv = Ret (of_Q 0.5).
Proof.
  intros Hz H1 H2 H3 H4. unfold calculate_skill_match.
  rewrite H1, H2, H3, H4.
  change (list_to_set [] : gset string) with (∅ : gset string).
  cbv zeta. rewrite !category_match_unlisted. cbn [pybind].
  rewrite !add_category_unlisted. by rewrite Hz.
Qed.

(** X13. A JD that lists no skill in any of the four categories scores the
    neutral 0.5 on skills against every CV, in exact and in binary64
    arithmetic. *)
Theorem skill_match_neutral (jd : JobProfile) :
  required_skills jd = [] → preferred_skills jd = [] →
  jd_domain_expertise jd = [] → jd_soft_skills jd = [] →
  (∀ cv : CandidateProfile Q, calculate_skill_match jd cv = Ret 0.5%Q)
  ∧ (∀ cv : CandidateProfile float, calculate_skill_match jd cv = Ret 0.5%float).
Proof.
  intros H1 H2 H3 H4. split; intros cv.
  - exact (skill_match_no_categories (T:=Q) jd cv eq_refl H1 H2 H3 H4).
  - exact (skill_match_no_categories (T:=float) jd cv eq_refl H1 H2 H3 H4).
Qed.

Lemma skill_match_neutral_witness :
  (∀ cv : CandidateProfile Q, calculate_skill_match jd_no_skills cv = Ret 0.5%Q)
  ∧ (∀ cv : CandidateProfile float, calculate_skill_match jd_no_skills cv = Ret 0.5%float).
Proof. exact (skill_match_neutral jd_no_skills eq_refl eq_refl eq_refl eq_refl). Defined.

(** X14. Over exact numbers the skill score is a weighted average of the
    matches of the categories the JD lists: when each listed category's
    match lies between [a] and [b], so does the score; categories the JD
    does not list have no influence.  In particular a JD that lists only
    required skills scores exactly the required ratio.  In binary64 the
    products and the quotient are rounded and the score can leave the
    interval in the last place: seven of eight required skills score
    0.875 exactly and 0.8750000000000001 in binary64. *)
Theorem skill_match_weighted_average :
  (∀ (jd : JobProfile) (cv : CandidateProfile Q) (a b : Q),
     lists_skills jd →
     (required_skills jd ≠ [] → (a <= required_value jd cv <= b)%Q) →
     (preferred_skills jd ≠ [] → (a <= preferred_value jd cv <= b)%Q) →
     (jd_domain_expertise jd ≠ [] → (a <= domain_value jd cv <= b)%Q) →
     (jd_soft_skills jd ≠ [] → (a <= soft_value jd cv <= b)%Q) →
     ∃ v : Q, calculate_skill_match jd cv = Ret v ∧ (a <= v <= b)%Q)
  ∧ (required_value jd_eight_skills (cv_seven_skills (T:=Q)) == 0.875)%Q
  ∧ (∃ v : Q, calculate_skill_match jd_eight_skills cv_seven_skills = Ret v
              ∧ (v == 0.875)%Q)
  ∧ calculate_skill_match jd_eight_skills cv_seven_skills
    = Ret 0x1.c000000000001p-1%float
  ∧ PrimFloat.ltb 0.875 0x1.c000000000001p-1 = true.
Proof.
  split; [|split; [by vm_compute|split; [|split; by vm_compute]]].
  2:{ eexists. split; [by vm_compute | by vm_compute]. }
  intros jd cv a b.
  intros Hl H1 H2 H3 H4. rewrite skill_match_closed. eexists. split; [done|].
  unfold required_value, preferred_value, domain_value, soft_value in *.
  destruct (skill_matches jd cv) as [[[m1 m2] m3] m4]. cbn [fst snd] in *.
  unfold skill_sums, raw_required, raw_preferred, raw_domain.
  rewrite list_to_set_nonempty in H1, H2, H3, H4.
  unfold lists_skills in Hl. rewrite !list_to_set_nonempty in Hl.
  set (r1 := list_to_set (required_skills jd) : gset string) in *.
  set (r2 := list_to_set (preferred_skills jd) : gset string) in *.
  set (r3 := list_to_set (jd_domain_expertise jd) : gset string) in *.
  set (r4 := list_to_set (jd_soft_skills jd) : gset string) in *.
  pose proof (add_category_between r1 m1 0.60 a b (0%Q, 0%Q)) as B1.
  set (a1 := add_category r1 m1 0.60 (0%Q, 0%Q)) in *.
  pose proof (add_category_between r2 m2 0.10 a b a1) as B2.
  set (a2 := add_category r2 m2 0.10 a1) in *.
  pose proof (add_category_between r3 m3 0.15 a b a2) as B3.
  set (a3 := add_category r3 m3 0.15 a2) in *.
  pose proof (add_category_between r4 m4 0.15 a b a3) as B4.
  set (a4 := add_category r4 m4 0.15 a3) in *.
  cbv zeta in B1, B2, B3, B4.
  destruct B1 as (B1a & B1b & B1c & B1d); [lra | done | cbn; lra | cbn; lra |].
  destruct B2 as (B2a & B2b & B2c & B2d); [lra | done | done | done |].
  destruct B3 as (B3a & B3b & B3c & B3d); [lra | done | done | done |].
  destruct B4 as (B4a & B4b & B4c & B4d); [lra | done | done | done |].
  assert (Hpos : (0 < a4.2)%Q).
  { destruct Hl as [?|[?|[?|?]]]; auto. }
  destruct a4 as [ws tw]. cbn [fst snd] in *.
  cbv zeta. cbn [fst snd].
  destruct (Qeq_bool tw 0) eqn:Hz; [apply Qeq_bool_iff in Hz; lra|].
  split.
  - apply Qle_shift_div_l; [done | lra].
  - apply Qle_shift_div_r; [done | lra].
Qed.

Lemma skill_match_weighted_average_witness :
  lists_skills jd_e2e
  ∧ ∃ v : Q, calculate_skill_match jd_e2e (cv_e2e (T:=Q)) = Ret v
             ∧ (0.5 <= v <= 0.5)%Q.
Proof.
  assert (Hl : lists_skills jd_e2e) by (by left).
  split; [exact Hl|].
  apply (proj1 skill_match_weighted_average jd_e2e cv_e2e 0.5%Q 0.5%Q Hl).
  - intros _. by vm_compute.
  - intros Hne. by destruct Hne.
  - intros Hne. by destruct Hne.
  - intros Hne. by destruct Hne.
Defined.

(** ** Aggregation *)

Lemma Q_clamp_id (x : Q) : (0 <= x <= 1)%Q → (py_max 0%Q (py_min 1%Q x) == x)%Q.
Proof.
  intros [H0 H1]. unfold py_max, py_min, ngtb.
  destruct (nltb x 1%Q) eqn:Hlt.
  - destruct (nltb 0%Q x) eqn:Hpos; [reflexivity|].
    apply Q_nltb_false in Hpos. lra.
  - apply Q_nltb_false in Hlt.
    destruct (nltb 0%Q 1%Q) eqn:Hpos; [lra|].
    apply Q_nltb_false in Hpos. lra.
Qed.

Lemma default_weight_values :
  weight_get (T:=Q) DEFAULT_WEIGHTS "skills" 0.4 = 0.4%Q
  ∧ weight_get (T:=Q) DEFAULT_WEIGHTS "experience" 0.25 = 0.25%Q
  ∧ weight_get (T:=Q) DEFAULT_WEIGHTS "education" 0.25 = 0.25%Q
  ∧ weight_get (T:=Q) DEFAULT_WEIGHTS "requirements" 0.1 = 0.1%Q.
Proof. repeat split; by vm_compute. Qed.

(** Over exact numbers the aggregation of two loaded dictionaries always
    returns a numeric score. *)
Lemma score_loaded_returns (weights : gmap string Q) (jd : JobProfile)
    (cv : CandidateProfile Q) :
  ∃ (s e r : Q),
    calculate_skill_match jd cv = Ret s
    ∧ calculate_experience_match (required_experience_years jd)
        (total_experience_years cv) = Ret e
    ∧ check_essential_requirements jd cv = Ret r
    ∧ (0 <= s)%Q ∧ (hits_within_raw jd cv → (s <= 1)%Q)
    ∧ (0 <= e <= 1)%Q ∧ (0 <= r <= 1)%Q
    ∧ score_loaded weights jd cv
      = Ret (Some (py_max 0%Q (py_min 1%Q
                     (s * weight_get weights "skills" 0.4
                      + e * weight_get weights "experience" 0.25
                      + calculate_education_match (required_education jd)
                          (Some (education cv))
                        * weight_get weights "education" 0.25
                      + r * weight_get weights "requirements" 0.1)))%Q,
             Breakdown (py_round s 3) (py_round e 3)
               (py_round (calculate_education_match (required_education jd)
                            (Some (education cv))) 3)
               (py_round r 3) weights).
Proof.
  destruct (skill_match_bounds jd cv) as (s & Hs & Hs0 & Hs1).
  destruct (experience_bounds (required_experience_years jd) (total_experience_years cv))
    as (e & He & Heb).
  destruct (requirements_bounds jd cv) as (r & Hr & Hrb).
  exists s, e, r. repeat (split; [done|]).
  unfold score_loaded. rewrite Hs, He, Hr. reflexivity.
Qed.

(** X15. Under the default weights the clamp of the aggregator is
    inactive as long as the skill score does not overshoot: the overall
    score is exactly 0.4*skills + 0.25*experience + 0.25*education +
    0.1*requirements. *)
Theorem overall_is_weighted_sum (jd : JobProfile) (cv : CandidateProfile Q) :
  hits_within_raw jd cv →
  ∃ (s e r overall : Q) (details : match_details Q),
    calculate_skill_match jd cv = Ret s
    ∧ calculate_experience_match (required_experience_years jd)
        (total_experience_years cv) = Ret e
    ∧ check_essential_requirements jd cv = Ret r
    ∧ score_loaded DEFAULT_WEIGHTS jd cv = Ret (Some overall, details)
    ∧ (overall == 0.4 * s + 0.25 * e
                  + 0.25 * calculate_education_match (required_education jd)
                             (Some (education cv))
                  + 0.1 * r)%Q.
Proof.
  intros Hh.
  destruct (score_loaded_returns DEFAULT_WEIGHTS jd cv)
    as (s & e & r & Hs & He & Hr & Hs0 & Hs1 & Heb & Hrb & Hrun).
  pose proof (education_bounds (required_education jd) (Some (education cv))) as Hd.
  destruct default_weight_values as (W1 & W2 & W3 & W4).
  rewrite W1, W2, W3, W4 in Hrun.
  eexists s, e, r, _, _. repeat (split; [done|]).
  specialize (Hs1 Hh).
  set (d := calculate_education_match _ _) in *.
  rewrite Q_clamp_id; [ring | nra].
Qed.

Lemma overall_is_weighted_sum_witness :
  hits_within_raw jd_e2e (cv_e2e (T:=Q))
  ∧ ∃ (s e r overall : Q) (details : match_details Q),
      calculate_skill_match jd_e2e cv_e2e = Ret s
      ∧ calculate_experience_match (required_experience_years jd_e2e)
          (total_experience_years (cv_e2e (T:=Q))) = Ret e
      ∧ check_essential_requirements jd_e2e cv_e2e = Ret r
      ∧ score_loaded DEFAULT_WEIGHTS jd_e2e cv_e2e = Ret (Some overall, details)
      ∧ (overall == 0.4 * s + 0.25 * e
                    + 0.25 * calculate_education_match (required_education jd_e2e)
                               (Some (education (cv_e2e (T:=Q))))
                    + 0.1 * r)%Q.
Proof.
  assert (Hh : hits_within_raw jd_e2e (cv_e2e (T:=Q))).
  { unfold hits_within_raw. vm_compute. lia. }
  split; [exact Hh|]. exact (overall_is_weighted_sum jd_e2e cv_e2e Hh).
Defined.

Section ScoreOrNone.
Context {O : Type}.
Variable json_loads : string → option (pyjson O).
Variable jd_view : O → JobProfile.
Variable cv_view : O → CandidateProfile Q.

(** X16. Over exact numbers the aggregator always returns, and its score
    is [None] exactly when the JD row or the candidate row is missing:
    every pair of existing rows gets a numeric score, which is what the
    caller stores. *)
Theorem match_score_none_iff_missing :
  ∀ (weights : gmap string Q) (jid cid : Z) (conn : database Q),
    ∃ (score : option Q) (details : match_details Q),
      calculate_match_score json_loads jd_view cv_view weights jid cid conn
      = Ret (score, details)
      ∧ (score = None ↔ get_jd conn jid = None ∨ get_candidate conn cid = None)
      ∧ (∀ v, score = Some v → (0 <= v <= 1)%Q).
Proof.
  intros weights jid cid conn. unfold calculate_match_score.
  destruct (get_jd conn jid) as [jd_r|]; [|eexists _, _; split; [done|]; split;
    [split; [by left | done] | done]].
  destruct (get_candidate conn cid) as [c_r|]; [|eexists _, _; split; [done|]; split;
    [split; [by right | done] | done]].
  assert (Hno : ¬ (Some jd_r = None ∨ Some c_r = None)) by (by intros [?|?]).
  destruct (safe_json_loads json_loads (summary_json jd_r)) as [jo| | | | | |];
    destruct (safe_json_loads json_loads (extracted_data_json c_r)) as [co| | | | | |];
    try (eexists _, _; split; [reflexivity|]; split;
         [split; [done | by intros ?] | intros v [= <-]; cbn; lra]).
  destruct (score_loaded_returns weights (jd_view jo) (cv_view co))
    as (s & e & r & _ & _ & _ & _ & _ & _ & _ & ->).
  eexists _, _. split; [done|]. split; [split; [done | by intros ?]|].
  intros v [= <-]. apply Q_clamp_unit.
Qed.
End ScoreOrNone.

(** ** Ranking and shortlisting *)

Lemma round_half_even_cases (q : Q) :
  round_half_even q = Qfloor q ∨ round_half_even q = Qfloor q + 1.
Proof.
  unfold round_half_even. destruct (_ ?= _)%Q; [destruct (Z.even _)| |]; auto.
Qed.

Lemma round_half_even_mono (q1 q2 : Q) :
  (q1 <= q2)%Q → round_half_even q1 <= round_half_even q2.
Proof.
  intros Hle. pose proof (Qfloor_resp_le _ _ Hle) as Hf.
  destruct (Z.eq_dec (Qfloor q1) (Qfloor q2)) as [Heq|Hne].
  - unfold round_half_even. rewrite <- Heq.
    assert (Hr : (q1 - inject_Z (Qfloor q1) <= q2 - inject_Z (Qfloor q1))%Q) by lra.
    destruct (Qcompare_spec (q1 - inject_Z (Qfloor q1)) (1 # 2)) as [H1|H1|H1];
      destruct (Qcompare_spec (q2 - inject_Z (Qfloor q1)) (1 # 2)) as [H2|H2|H2];
      try destruct (Z.even _); try lia; lra.
  - destruct (round_half_even_cases q1) as [->| ->],
             (round_half_even_cases q2) as [->| ->]; lia.
Qed.

Lemma Q_py_round_mono (x y : Q) (n : nat) :
  (x <= y)%Q → (py_round x n <= py_round y n)%Q.
Proof.
  intros Hle. unfold py_round. cbn [to_Q of_Q Q_PyNum].
  assert (Hp : 0 < 10 ^ Z.of_nat n) by (apply Z.pow_pos_nonneg; lia).
  unfold Qle. cbn [Qnum Qden].
  apply Z.mul_le_mono_nonneg_r; [lia|].
  apply round_half_even_mono.
  apply Qmult_le_compat_r; [done|].
  unfold Qle. cbn. lia.
Qed.

Lemma ranked_cons r l :
  ranked (r :: l)
  ↔ (∀ b, b ∈ l → (match_score b.1 <= match_score r.1)%Q) ∧ ranked l.
Proof.
  split.
  - intros Hr. split.
    + intros b Hb. apply list_elem_of_lookup in Hb as [j Hj].
      apply (Hr 0%nat (S j) r b); [lia|done|done].
    + intros i j a b Hij Hi Hj. apply (Hr (S i) (S j)); [lia|done|done].
  - intros [Hhd Htl] i j a b Hij Hi Hj. destruct i as [|i], j as [|j]; try lia.
    + cbn in Hi, Hj. injection Hi as <-. injection Hj as <-. lra.
    + cbn in Hi, Hj. injection Hi as <-. apply Hhd.
      by apply list_elem_of_lookup_2 in Hj.
    + cbn in Hi, Hj. apply (Htl i j); [lia|done|done].
Qed.

Lemma insert_desc_ranked r l : ranked l → ranked (insert_desc r l).
Proof.
  induction l as [|r' l IH]; intros Hl; cbn [insert_desc].
  - apply ranked_cons. split; [by intros b Hb%elem_of_nil|done].
  - apply ranked_cons in Hl as [Hhd Htl].
    destruct (nltb (match_score r'.1) (match_score r.1)) eqn:Hlt.
    + apply Q_nltb in Hlt. apply ranked_cons. split.
      * intros b [->|Hb]%elem_of_cons; [lra|]. specialize (Hhd b Hb). lra.
      * apply ranked_cons. by split.
    + apply Q_nltb_false in Hlt. apply ranked_cons. split; [|by apply IH].
      intros b Hb. rewrite insert_desc_perm in Hb.
      apply elem_of_cons in Hb as [->|Hb]; [done | by apply Hhd].
Qed.

Lemma sort_desc_ranked l : ranked (sort_desc l).
Proof.
  unfold sort_desc. induction (rev l) as [|r l' IH]; cbn [fold_right].
  - intros i j a b _ Hi. by rewrite lookup_nil in Hi.
  - by apply insert_desc_ranked.
Qed.

(** In a ranked list the rows that reach the threshold are its head. *)
Lemma ranked_filter_take (threshold : Q) l :
  ranked l →
  filter (λ r, passes threshold r = true) l
  = take (length (filter (λ r, passes threshold r = true) l)) l.
Proof.
  induction l as [|r l IH]; intros Hl; [done|].
  apply ranked_cons in Hl as [Hhd Htl]. rewrite filter_cons.
  destruct (passes threshold r) eqn:Hp.
  - rewrite decide_True by done. cbn [length take]. f_equal. by apply IH.
  - rewrite decide_False by done.
    assert (Hnone : filter (λ r, passes threshold r = true) l = []).
    { clear IH Htl. induction l as [|b l IHl]; [done|].
      rewrite filter_cons, decide_False; [apply IHl; intros b' Hb'; apply Hhd; by right|].
      intros Hpb. specialize (Hhd b (list_elem_of_here _ _)).
      unfold passes, ngeb in Hp, Hpb. cbn [nleb Q_PyNum] in Hp, Hpb.
      apply Qle_bool_iff in Hpb.
      assert (Qle_bool threshold (match_score r.1) = true)
        by (apply Qle_bool_iff; lra).
      congruence. }
    by rewrite Hnone.
Qed.

Lemma shortlist_returned {T : Type} `{PyNum T} (threshold : T) (jid : Z)
    (conn : database T) :
  (shortlist_candidates_for_jd threshold jid conn).1
  = map shortlist_entry
        (filter (λ r, passes threshold r = true) (get_matches_for_jd conn jid)).
Proof.
  unfold shortlist_candidates_for_jd.
  destruct (get_matches_for_jd conn jid) as [|r rows]; [done|].
  by rewrite shortlist_loop.
Qed.

(** X17. The shortlist is the head of the ranking: over exact scores the
    query returns the pairs of the job in non-increasing order of score,
    the returned entries are those of its first rows, in that order, and
    their rounded scores are again in non-increasing order. *)
Theorem shortlist_is_top_of_ranking (threshold : Q) (jid : Z) (conn : database Q) :
  let res := (shortlist_candidates_for_jd threshold jid conn).1 in
  let ranking := get_matches_for_jd conn jid in
  ranked ranking
  ∧ res = map shortlist_entry (take (length res) ranking)
  ∧ (∀ (i j : nat) a b, (i <= j)%nat → res !! i = Some a → res !! j = Some b →
       (sl_match_score b <= sl_match_score a)%Q).
Proof.
  intros res ranking.
  assert (Hrk : ranked ranking) by apply sort_desc_ranked.
  assert (Hres : res = map shortlist_entry
                         (filter (λ r, passes threshold r = true) ranking))
    by apply shortlist_returned.
  assert (Htake : res = map shortlist_entry (take (length res) ranking)).
  { rewrite Hres at 2. rewrite length_map, <- ranked_filter_take by done. done. }
  split; [done|]. split; [done|].
  intros i j a b Hij Hi Hj. rewrite Htake in Hi, Hj.
  rewrite list_lookup_fmap in Hi, Hj.
  destruct (take (length res) ranking !! i) as [ra|] eqn:Hra; [|done].
  destruct (take (length res) ranking !! j) as [rb|] eqn:Hrb; [|done].
  cbn in Hi, Hj. injection Hi as <-. injection Hj as <-.
  unfold shortlist_entry. cbn [sl_match_score].
  apply Q_py_round_mono.
  apply lookup_take_Some in Hra as [Hra _], Hrb as [Hrb _].
  by apply (Hrk i j).
Qed.

Section ShortlistJobs.
Context {T : Type} `{PyNum T}.
Implicit Types (conn : database T) (m : match_row T).

Lemma stored_for_decided (t : T) (j j' : Z) conn m :
  stored_for conn j' (decided t j conn m) = stored_for conn j' m.
Proof.
  destruct (decided_keeps t j conn m) as (_ & Hj & Hc & _).
  unfold stored_for, has_candidate. by rewrite Hj, Hc.
Qed.

Lemma decided_with_matches (t : T) (j : Z) conn ms m :
  decided t j (with_matches conn ms) m = decided t j conn m.
Proof. done. Qed.

Lemma decided_commute (t1 t2 : T) (j1 j2 : Z) conn m :
  j1 ≠ j2 →
  decided t2 j2 conn (decided t1 j1 conn m)
  = decided t1 j1 conn (decided t2 j2 conn m).
Proof.
  intros Hne.
  unfold decided at 1 3. rewrite !stored_for_decided. unfold decided.
  destruct (stored_for conn j1 m) eqn:H1, (stored_for conn j2 m) eqn:H2; try done.
  exfalso. unfold stored_for in H1, H2.
  apply andb_true_iff in H1 as [H1 _], H2 as [H2 _].
  apply Z.eqb_eq in H1, H2. congruence.
Qed.

Lemma decided_ids_nodup (t : T) (j : Z) conn :
  NoDup (map match_id (matches conn)) →
  NoDup (map match_id (map (decided t j conn) (matches conn))).
Proof.
  intros Hnd. rewrite map_map. erewrite map_ext; [exact Hnd|].
  intros m. apply decided_keeps.
Qed.

(** X18. Runs for two different jobs do not interfere, whatever the
    thresholds: each returns the list it returns on the untouched store,
    and the store after both runs does not depend on their order. *)
Theorem shortlist_jobs_independent (t1 t2 : T) (j1 j2 : Z) conn :
  NoDup (map match_id (matches conn)) →
  j1 ≠ j2 →
  let a := shortlist_candidates_for_jd t1 j1 conn in
  let b := shortlist_candidates_for_jd t2 j2 conn in
  (shortlist_candidates_for_jd t2 j2 a.2).1 = b.1
  ∧ (shortlist_candidates_for_jd t1 j1 b.2).1 = a.1
  ∧ (shortlist_candidates_for_jd t2 j2 a.2).2
    = (shortlist_candidates_for_jd t1 j1 b.2).2.
Proof.
  intros Hnd Hne a b. subst a b.
  rewrite (shortlist_run t1 j1 conn Hnd), (shortlist_run t2 j2 conn Hnd). cbn [fst snd].
  rewrite !shortlist_run by (cbn [matches with_matches]; by apply decided_ids_nodup).
  cbn [fst snd matches with_matches].
  assert (Hkeep : ∀ t j m,
            m_jd_id (decided t j conn m) = m_jd_id m
            ∧ m_candidate_id (decided t j conn m) = m_candidate_id m
            ∧ match_score (decided t j conn m) = match_score m).
  { intros t j m. destruct (decided_keeps t j conn m) as (_ & ? & ? & ?). done. }
  rewrite !get_matches_after by (intros m; apply Hkeep).
  rewrite !entries_after by (intros m; destruct (Hkeep t1 j1 m) as (_ & ? & ?),
                               (Hkeep t2 j2 m) as (_ & ? & ?); done).
  split; [done|]. split; [done|].
  rewrite !with_matches_twice, !map_map. f_equal. apply map_ext. intros m.
  rewrite !decided_with_matches. by apply decided_commute.
Qed.
End ShortlistJobs.

Lemma shortlist_jobs_independent_witness :
  let a := shortlist_candidates_for_jd 0.75%Q 1 store_scored in
  let b := shortlist_candidates_for_jd 0.6%Q 2 store_scored in
  (shortlist_candidates_for_jd 0.6%Q 2 a.2).1 = b.1
  ∧ (shortlist_candidates_for_jd 0.75%Q 1 b.2).1 = a.1
  ∧ (shortlist_candidates_for_jd 0.6%Q 2 a.2).2
    = (shortlist_candidates_for_jd 0.75%Q 1 b.2).2.
Proof.
  apply (shortlist_jobs_independent (T:=Q) 0.75%Q 0.6%Q 1 2 store_scored).
  - apply (bool_decide_unpack _). by vm_compute.
  - done.
Defined.

(** ** Writing a score *)

Section UpsertFacts.
Context {T : Type} `{PyNum T}.
Implicit Types (conn : database T) (m : match_row T).

Lemma same_pair_spec (jid cid : Z) m :
  same_pair jid cid m = true ↔ pair_of m = (jid, cid).
Proof.
  unfold same_pair, pair_of. rewrite andb_true_iff, !Z.eqb_eq.
  split; [by intros [-> ->] | by intros [= -> ->]].
Qed.

Lemma exists_pair_spec (jid cid : Z) (ms : list (match_row T)) :
  existsb (same_pair jid cid) ms = true ↔ (jid, cid) ∈ map pair_of ms.
Proof.
  rewrite existsb_exists, list_elem_of_fmap. split.
  - intros (m & Hm & Hp). exists m. apply same_pair_spec in Hp.
    split; [done | by apply list_elem_of_In].
  - intros (m & Hp & Hm). exists m.
    split; [by apply list_elem_of_In | by apply same_pair_spec].
Qed.

Lemma rescore_keeps (jid cid : Z) (score : T) m :
  let m' := if same_pair jid cid m then set_score m score else m in
  match_id m' = match_id m ∧ pair_of m' = pair_of m
  ∧ shortlist_status m' = shortlist_status m.
Proof. cbv zeta. by destruct (same_pair jid cid m). Qed.

Lemma rescore_map_ids (jid cid : Z) (score : T) (ms : list (match_row T)) :
  map match_id (map (λ m, if same_pair jid cid m then set_score m score else m) ms)
  = map match_id ms.
Proof. rewrite map_map. apply map_ext. intros m. apply rescore_keeps. Qed.

Lemma rescore_map_pairs (jid cid : Z) (score : T) (ms : list (match_row T)) :
  map pair_of (map (λ m, if same_pair jid cid m then set_score m score else m) ms)
  = map pair_of ms.
Proof. rewrite map_map. apply map_ext. intros m. apply rescore_keeps. Qed.

Lemma add_or_update_match_ok conn (jid cid : Z) (score : T) (rowid : Z) :
  store_ok conn → rowid ∉ map match_id (matches conn) →
  store_ok (add_or_update_match conn jid cid score rowid).2.
Proof.
  intros [Hid Hpair] Hfresh. unfold store_ok, add_or_update_match.
  cbn [snd matches with_matches].
  destruct (existsb (same_pair jid cid) (matches conn)) eqn:Hex.
  - by rewrite rescore_map_ids, rescore_map_pairs.
  - rewrite !map_app. cbn [map match_id pair_of m_jd_id m_candidate_id].
    split; apply NoDup_app; (split; [done|]); (split; [|apply NoDup_singleton]).
    + intros x Hx ->%list_elem_of_singleton. done.
    + intros x Hx ->%list_elem_of_singleton.
      apply exists_pair_spec in Hx. cbn [m_jd_id m_candidate_id] in Hx. congruence.
Qed.

Lemma shortlist_ok (threshold : T) (jid : Z) conn :
  store_ok conn → store_ok (shortlist_candidates_for_jd threshold jid conn).2.
Proof.
  intros [Hid Hpair]. rewrite (shortlist_run threshold jid conn Hid).
  unfold store_ok. cbn [snd matches with_matches]. rewrite !map_map. split.
  - erewrite map_ext; [exact Hid|]. intros m. apply decided_keeps.
  - erewrite map_ext; [exact Hpair|]. intros m. unfold pair_of.
    destruct (decided_keeps threshold jid conn m) as (_ & -> & -> & _). done.
Qed.

(** X19. The two writers of the matches table keep its constraints: after
    [add_or_update_match] (with a fresh id for an added row) and after a
    shortlisting run, match ids are still a key and there is still at
    most one row for each (JD, candidate) pair. *)
Theorem writers_keep_constraints conn (jid cid : Z) (score threshold : T)
    (rowid : Z) :
  store_ok conn → rowid ∉ map match_id (matches conn) →
  store_ok (add_or_update_match conn jid cid score rowid).2
  ∧ store_ok (shortlist_candidates_for_jd threshold jid conn).2
  ∧ store_ok (shortlist_candidates_for_jd threshold jid
                (add_or_update_match conn jid cid score rowid).2).2.
Proof.
  intros Hok Hfresh. split; [by apply add_or_update_match_ok|].
  split; [by apply shortlist_ok|].
  by apply shortlist_ok, add_or_update_match_ok.
Qed.

Lemma upsert_rows conn (jid cid : Z) (score : T) (rowid : Z) m' :
  store_ok conn →
  (m' ∈ matches (add_or_update_match conn jid cid score rowid).2) ↔
  ((same_pair jid cid m' = false ∧ m' ∈ matches conn)
   ∨ (same_pair jid cid m' = true ∧ match_score m' = score
      ∧ ((∃ m, m ∈ matches conn ∧ same_pair jid cid m = true
               ∧ match_id m' = match_id m
               ∧ shortlist_status m' = shortlist_status m)
         ∨ (((jid, cid) ∉ map pair_of (matches conn))
            ∧ match_id m' = rowid ∧ shortlist_status m' = false)))).
Proof.
  intros [Hid Hpair]. unfold add_or_update_match. cbn [snd matches with_matches].
  destruct (existsb (same_pair jid cid) (matches conn)) eqn:Hex.
  - rewrite list_elem_of_fmap. split.
    + intros (m & -> & Hm). destruct (same_pair jid cid m) eqn:Hp.
      * right. split; [|split; [done|left; by exists m]].
        apply same_pair_spec. apply same_pair_spec in Hp. done.
      * left. done.
    + intros [[Hp Hm]|(Hp & Hs & [(m & Hm & Hpm & Hi & Hf)|(Hno & _)])].
      * exists m'. by rewrite Hp.
      * exists m. rewrite Hpm. split; [|done].
        apply same_pair_spec in Hp, Hpm. unfold pair_of in Hp, Hpm.
        destruct m', m. unfold set_score. cbn in *. congruence.
      * apply exists_pair_spec in Hex. done.
  - assert (Hno : (jid, cid) ∉ map pair_of (matches conn)).
    { intros Hin%exists_pair_spec. congruence. }
    rewrite elem_of_app, list_elem_of_singleton. split.
    + intros [Hm| ->].
      * left. split; [|done]. destruct (same_pair jid cid m') eqn:Hp; [|done].
        exfalso. apply Hno. apply same_pair_spec in Hp. rewrite <- Hp.
        by apply list_elem_of_fmap_2.
      * right. unfold same_pair. cbn. rewrite !Z.eqb_refl.
        split; [done|]. split; [done|]. by right.
    + intros [[Hp Hm]|(Hp & Hs & [(m & Hm & Hpm & _)|(_ & Hi & Hf)])].
      * by left.
      * exfalso. apply Hno. apply same_pair_spec in Hpm. rewrite <- Hpm.
        by apply list_elem_of_fmap_2.
      * right. apply same_pair_spec in Hp. unfold pair_of in Hp.
        destruct m'. cbn in *. congruence.
Qed.

Lemma upsert_has_row conn (jid cid : Z) (score : T) (rowid : Z) :
  ∃ m', m' ∈ matches (add_or_update_match conn jid cid score rowid).2
        ∧ same_pair jid cid m' = true ∧ match_score m' = score.
Proof.
  unfold add_or_update_match. cbn [snd matches with_matches].
  destruct (existsb (same_pair jid cid) (matches conn)) eqn:Hex.
  - apply existsb_exists in Hex as (m & Hm%list_elem_of_In & Hp).
    exists (set_score m score). split; [|done].
    apply list_elem_of_fmap. exists m. by rewrite Hp.
  - eexists. split; [apply elem_of_app; right; apply list_elem_of_singleton; done|].
    unfold same_pair. cbn. by rewrite !Z.eqb_refl.
Qed.

(** X20. [add_or_update_match] is an upsert on the pair, for a score
    that is a number: afterwards the store holds a row of the pair, every
    row of the pair carries the new score, and it keeps the id and the
    shortlist flag of the row it replaces, or is a new row with the
    allocated id and the flag off.  The rows of all other pairs and the
    other two tables are as before. *)
Theorem add_or_update_match_upsert conn (jid cid : Z) (score : T) (rowid : Z) :
  store_ok conn →
  is_number score →
  let res := add_or_update_match conn jid cid score rowid in
  res.1 = true
  ∧ job_descriptions res.2 = job_descriptions conn
  ∧ candidates res.2 = candidates conn
  ∧ (∃ m', m' ∈ matches res.2 ∧ same_pair jid cid m' = true)
  ∧ (∀ m', m' ∈ matches res.2 → same_pair jid cid m' = true →
       match_score m' = score
       ∧ ((∃ m, m ∈ matches conn ∧ same_pair jid cid m = true
                ∧ match_id m' = match_id m
                ∧ shortlist_status m' = shortlist_status m)
          ∨ (((jid, cid) ∉ map pair_of (matches conn))
             ∧ match_id m' = rowid ∧ shortlist_status m' = false)))
  ∧ (∀ m', same_pair jid cid m' = false →
       (m' ∈ matches res.2 ↔ m' ∈ matches conn)).
Proof.
  intros Hok _ res. subst res.
  split; [done|]. split; [done|]. split; [done|]. split; [|split].
  - destruct (upsert_has_row conn jid cid score rowid) as (m' & Hm' & Hp & _).
    by exists m'.
  - intros m' Hm' Hp. apply upsert_rows in Hm' as [[Hp' _]|(_ & Hs & Hrest)];
      [congruence|done|done].
  - intros m' Hp. rewrite upsert_rows by done. split.
    + intros [[_ Hm]|[Hp' _]]; [done|congruence].
    + intros Hm. by left.
Qed.

(** X21. The last write wins: two calls for the same pair leave the
    store that the second call alone leaves (a row added by the first
    call keeps the id it was given). *)
Theorem add_or_update_match_last_wins conn (jid cid : Z) (s1 s2 : T)
    (rowid1 rowid2 : Z) :
  (add_or_update_match (add_or_update_match conn jid cid s1 rowid1).2
     jid cid s2 rowid2).2
  = (add_or_update_match conn jid cid s2 rowid1).2.
Proof.
  unfold add_or_update_match. cbn [snd matches with_matches].
  rewrite with_matches_twice. f_equal.
  destruct (existsb (same_pair jid cid) (matches conn)) eqn:Hex.
  - assert (Hex' : existsb (same_pair jid cid)
             (map (λ m, if same_pair jid cid m then set_score m s1 else m)
                  (matches conn)) = true).
    { apply existsb_exists in Hex as (m & Hm & Hp). apply existsb_exists.
      exists (set_score m s1). split; [|done].
      apply in_map_iff. exists m. by rewrite Hp. }
    rewrite Hex', map_map. apply map_ext. intros m.
    destruct (same_pair jid cid m) eqn:Hp; [|by rewrite Hp].
    by change (same_pair jid cid (set_score m s1)) with (same_pair jid cid m); rewrite Hp.
  - rewrite existsb_app, Hex. cbn [existsb orb]. unfold same_pair at 1.
    cbn [m_jd_id m_candidate_id]. rewrite !Z.eqb_refl. cbn [andb].
    rewrite map_app. cbn [map]. f_equal.
    + rewrite <- (map_id (matches conn)) at 2. apply map_ext_in. intros m Hm.
      destruct (same_pair jid cid m) eqn:Hp; [|done].
      assert (existsb (same_pair jid cid) (matches conn) = true)
        by (apply existsb_exists; by exists m).
      congruence.
    + unfold same_pair. cbn [m_jd_id m_candidate_id]. by rewrite !Z.eqb_refl.
Qed.

(** X22. Rescoring leaves the old flag in place until the shortlister
    runs; after the run the flag of the pair follows the new score.  For
    a score that is a number and a candidate with a row in [candidates]:
    every row of the pair then has the new score and the flag
    [score >= threshold], and the candidate is in the returned list
    exactly when the new score reaches the threshold. *)
Theorem rescore_then_shortlist conn (jid cid : Z) (score threshold : T)
    (rowid : Z) :
  store_ok conn → rowid ∉ map match_id (matches conn) →
  is_number score →
  (∃ c, c ∈ candidates conn ∧ candidate_id c = cid) →
  let conn1 := (add_or_update_match conn jid cid score rowid).2 in
  let res := shortlist_candidates_for_jd threshold jid conn1 in
  (∀ m', m' ∈ matches res.2 → same_pair jid cid m' = true →
     match_score m' = score ∧ shortlist_status m' = ngeb score threshold)
  ∧ (∃ m', m' ∈ matches res.2 ∧ same_pair jid cid m' = true)
  ∧ (cid ∈ map sl_candidate_id res.1 ↔ ngeb score threshold = true).
Proof.
  intros Hok Hfresh _ Hcand conn1 res.
  pose proof (add_or_update_match_ok conn jid cid score rowid Hok Hfresh) as Hok1.
  fold conn1 in Hok1. destruct Hok1 as [Hid1 Hpair1].
  assert (Hstored : ∀ m, same_pair jid cid m = true → stored_for conn1 jid m = true).
  { intros m Hp. apply andb_true_iff in Hp as [Hj Hc]. unfold stored_for.
    rewrite Hj. cbn [andb]. apply has_candidate_spec.
    destruct Hcand as (c & Hc1 & Hc2). exists c. split; [done|].
    apply Z.eqb_eq in Hc. congruence. }
  assert (Hscore : ∀ m, m ∈ matches conn1 → same_pair jid cid m = true →
                        match_score m = score).
  { intros m Hm Hp. subst conn1. apply upsert_rows in Hm as [[Hp' _]|(_ & Hs & _)];
      [congruence|done|done]. }
  assert (Hsome : ∃ m, m ∈ matches conn1 ∧ same_pair jid cid m = true).
  { destruct (upsert_has_row conn jid cid score rowid) as (m' & Hm' & Hp & _).
    by exists m'. }
  subst res. rewrite (shortlist_run threshold jid conn1 Hid1).
  cbn [fst snd matches with_matches].
  split; [|split].
  - intros m' Hm' Hp. apply list_elem_of_fmap in Hm' as (m & -> & Hm).
    destruct (decided_keeps threshold jid conn1 m) as (_ & Hj & Hc & Hs).
    assert (Hpm : same_pair jid cid m = true)
      by (revert Hp; unfold same_pair; by rewrite Hj, Hc).
    rewrite Hs, (Hscore m Hm Hpm). split; [done|].
    unfold decided. rewrite (Hstored m Hpm). cbn [shortlist_status set_status].
    by rewrite (Hscore m Hm Hpm).
  - destruct Hsome as (m & Hm & Hp). exists (decided threshold jid conn1 m).
    split; [by apply list_elem_of_fmap_2|].
    destruct (decided_keeps threshold jid conn1 m) as (_ & Hj & Hc & _).
    unfold same_pair. rewrite Hj, Hc. exact Hp.
  - rewrite map_map. rewrite list_elem_of_fmap. split.
    + intros (r & Hcid & Hr). apply list_elem_of_filter in Hr as [Hpass Hr].
      apply elem_of_get_matches in Hr as (Hm & Hj & _).
      cbn [shortlist_entry sl_candidate_id] in Hcid.
      assert (Hp : same_pair jid cid r.1 = true).
      { unfold same_pair. rewrite Hj, <- Hcid, !Z.eqb_refl. done. }
      unfold passes in Hpass. by rewrite (Hscore r.1 Hm Hp) in Hpass.
    + intros Hge. destruct Hsome as (m & Hm & Hp).
      destruct Hcand as (c & Hc1 & Hc2).
      pose proof Hp as Hp'. apply andb_true_iff in Hp' as [Hj Hc].
      apply Z.eqb_eq in Hj, Hc.
      exists (m, cv_filename c). split; [cbn; congruence|].
      apply list_elem_of_filter. split.
      * unfold passes. cbn [fst]. by rewrite (Hscore m Hm Hp).
      * apply elem_of_get_matches. cbn [fst snd]. split; [done|]. split; [done|].
        exists c. split; [done|]. split; [congruence|done].
Qed.
End UpsertFacts.

Lemma writers_keep_constraints_witness :
  store_ok (add_or_update_match store_scored 2 3 0.9%Q 14).2
  ∧ store_ok (shortlist_candidates_for_jd 0.75%Q 2 store_scored).2
  ∧ store_ok (shortlist_candidates_for_jd 0.75%Q 2
                (add_or_update_match store_scored 2 3 0.9%Q 14).2).2.
Proof.
  apply (writers_keep_constraints store_scored 2 3 0.9%Q 0.75%Q 14).
  - split; apply (bool_decide_unpack _); by vm_compute.
  - apply (bool_decide_unpack _). by vm_compute.
Defined.

Lemma add_or_update_match_upsert_witness :
  let res := add_or_update_match store_scored 1 1 0.9%Q 14 in
  res.1 = true
  ∧ job_descriptions res.2 = job_descriptions store_scored
  ∧ candidates res.2 = candidates store_scored
  ∧ (∃ m', m' ∈ matches res.2 ∧ same_pair 1 1 m' = true)
  ∧ (∀ m', m' ∈ matches res.2 → same_pair 1 1 m' = true →
       match_score m' = 0.9%Q
       ∧ ((∃ m, m ∈ matches store_scored ∧ same_pair 1 1 m = true
                ∧ match_id m' = match_id m
                ∧ shortlist_status m' = shortlist_status m)
          ∨ (((1, 1) ∉ map pair_of (matches store_scored))
             ∧ match_id m' = 14 ∧ shortlist_status m' = false)))
  ∧ (∀ m', same_pair 1 1 m' = false →
       (m' ∈ matches res.2 ↔ m' ∈ matches store_scored)).
Proof.
  apply (add_or_update_match_upsert store_scored 1 1 0.9%Q 14).
  - split; apply (bool_decide_unpack _); by vm_compute.
  - reflexivity.
Defined.

Lemma rescore_then_shortlist_witness :
  let conn1 := (add_or_update_match store_scored 1 1 0.9%Q 14).2 in
  let res := shortlist_candidates_for_jd 0.75%Q 1 conn1 in
  (∀ m', m' ∈ matches res.2 → same_pair 1 1 m' = true →
     match_score m' = 0.9%Q ∧ shortlist_status m' = ngeb 0.9%Q 0.75%Q)
  ∧ (∃ m', m' ∈ matches res.2 ∧ same_pair 1 1 m' = true)
  ∧ (1 ∈ map sl_candidate_id res.1 ↔ ngeb 0.9%Q 0.75%Q = true).
Proof.
  apply (rescore_then_shortlist store_scored 1 1 0.9%Q 0.75%Q 14).
  - split; apply (bool_decide_unpack _); by vm_compute.
  - apply (bool_decide_unpack _). by vm_compute.
  - reflexivity.
  - eexists. split; [apply list_elem_of_here|reflexivity].
Defined.

(** ** Orchestration *)

Lemma for_each_app {A S : Type} (body : S → A → pyres S) (l1 l2 : list A) (st : S) :
  for_each body (l1 ++ l2)%list st
  = (st' ←! for_each body l1 st; for_each body l2 st').
Proof.
  revert st. induction l1 as [|x l1 IH]; intros st; cbn [for_each app pybind]; [done|].
  destruct (body st x); cbn [pybind]; [apply IH | done].
Qed.

Section OrchestrationFacts.
Context {O : Type}.
Variable json_loads : string → option (pyjson O).
Variable jd_view : O → JobProfile.
Variable cv_view : O → CandidateProfile Q.
Variable weights : gmap string Q.
Variable threshold : Q.
Variable rowids : nat → Z.
Implicit Types (conn : database Q) (m : match_row Q).


Lemma find_elem {A} (f : A → bool) (l : list A) (x : A) :
  find f l = Some x → x ∈ l ∧ f x = true.
Proof. intros [? ?]%find_some. split; [by apply list_elem_of_In | done]. Qed.

Lemma find_nodup {A} (key : A → Z) (l : list A) (x : A) :
  NoDup (map key l) → x ∈ l → find (λ r, key r =? key x) l = Some x.
Proof.
  induction l as [|y l IH]; intros Hnd Hx; [by apply elem_of_nil in Hx|].
  cbn [map] in Hnd. apply NoDup_cons in Hnd as [Hy Hnd]. cbn [find].
  apply elem_of_cons in Hx as [->|Hx]; [by rewrite Z.eqb_refl|].
  destruct (Z.eqb_spec (key y) (key x)) as [Heq|Hne]; [|by apply IH].
  exfalso. apply Hy. rewrite Heq. by apply list_elem_of_fmap_2.
Qed.

(** Scoring reads the two payload tables only. *)
Lemma score_call_tables conn conn' (jid cid : Z) :
  job_descriptions conn' = job_descriptions conn →
  candidates conn' = candidates conn →
  calculate_match_score json_loads jd_view cv_view weights jid cid conn' = calculate_match_score json_loads jd_view cv_view weights jid cid conn
  ∧ get_jd conn' jid = get_jd conn jid
  ∧ get_candidate conn' cid = get_candidate conn cid.
Proof.
  intros Hj Hc. unfold calculate_match_score, get_jd, get_candidate.
  by rewrite Hj, Hc.
Qed.

(** Over exact numbers a pair of existing rows always gets a score. *)
Lemma score_call_existing conn (jid cid : Z) jd_r c_r :
  get_jd conn jid = Some jd_r → get_candidate conn cid = Some c_r →
  ∃ (s : Q) d, calculate_match_score json_loads jd_view cv_view weights jid cid conn = Ret (Some s, d).
Proof.
  intros Hj Hc. unfold calculate_match_score. rewrite Hj, Hc.
  destruct (safe_json_loads json_loads (summary_json jd_r)) as [jo| | | | | |];
    destruct (safe_json_loads json_loads (extracted_data_json c_r)) as [co| | | | | |];
    try (eexists _, _; reflexivity).
  destruct (score_loaded_returns weights (jd_view jo) (cv_view co))
    as (s & e & r & _ & _ & _ & _ & _ & _ & _ & ->).
  eexists _, _. reflexivity.
Qed.

Lemma score_of_eligible conn (jid cid : Z) :
  eligible conn jid cid = true → ∃ s, scored_pair json_loads jd_view cv_view weights conn jid cid = Some s.
Proof.
  intros He. unfold scored_pair. rewrite He. unfold eligible in He.
  destruct (get_jd conn jid) as [jd_r|] eqn:Hj; [|done].
  destruct (get_candidate conn cid) as [c_r|] eqn:Hc; [|done].
  destruct (score_call_existing conn jid cid jd_r c_r Hj Hc) as (s & d & ->).
  by exists s.
Qed.


Hypothesis rowids_inj : ∀ k k' : nat, rowids k = rowids k' → k = k'.

Lemma scoring_inv_weaken conn (P P' : Z → Z → Prop) st :
  (∀ j c, P' j c → P j c) →
  scoring_inv json_loads jd_view cv_view weights rowids conn P st →
  scoring_inv json_loads jd_view cv_view weights rowids conn P' st.
Proof.
  intros HP (H1 & H2 & H3 & H4 & H5 & H6).
  repeat (split; [done|]). split; [|done].
  intros j c s Hp. apply H5. by apply HP.
Qed.

Lemma score_of_some conn (jid cid : Z) (s : Q) :
  scored_pair json_loads jd_view cv_view weights conn jid cid = Some s →
  ∃ jd_r c_r d,
    get_jd conn jid = Some jd_r ∧ has_text (summary_json jd_r) = true
    ∧ get_candidate conn cid = Some c_r
    ∧ has_text (extracted_data_json c_r) = true
    ∧ calculate_match_score json_loads jd_view cv_view weights jid cid conn
      = Ret (Some s, d).
Proof.
  unfold scored_pair, eligible.
  destruct (get_jd conn jid) as [jd_r|]; [|done].
  destruct (get_candidate conn cid) as [c_r|]; [|done].
  destruct (has_text (summary_json jd_r)) eqn:Hj; [|done].
  destruct (has_text (extracted_data_json c_r)) eqn:Hc; [|done]. cbn [andb].
  destruct (calculate_match_score _ _ _ _ _ _ _) as [[[s'|] d]|] eqn:Hs; [|done|done].
  intros [= ->]. by exists jd_r, c_r, d.
Qed.

Lemma match_candidate_step conn (P : Z → Z → Prop) st (jid cid : Z) jd_r :
  get_jd conn jid = Some jd_r → has_text (summary_json jd_r) = true →
  scoring_inv json_loads jd_view cv_view weights rowids conn P st →
  ∃ st',
    match_candidate json_loads jd_view cv_view weights rowids jid st cid = Ret st'
    ∧ scoring_inv json_loads jd_view cv_view weights rowids conn
        (λ j c, P j c ∨ (j = jid ∧ c = cid)) st'.
Proof.
  intros Hjd Htext Hinv. pose proof Hinv as (H1 & H2 & H3 & H4 & H5 & H6).
  destruct st as [conn' n]. cbn [fst snd] in *.
  destruct (score_call_tables conn conn' jid cid H1 H2) as (Hcall & _ & Hcand).
  unfold match_candidate. rewrite Hcand, Hcall.
  assert (Hskip : scored_pair json_loads jd_view cv_view weights conn jid cid = None →
            scoring_inv json_loads jd_view cv_view weights rowids conn
              (λ j c, P j c ∨ (j = jid ∧ c = cid)) (conn', n)).
  { intros Hnone. repeat (split; [done|]). split; [|done].
    intros j c s [Hp|[-> ->]] Hs; [by apply (H5 j c)|congruence]. }
  destruct (get_candidate conn cid) as [c_r|] eqn:Hc.
  2:{ eexists. split; [done|]. apply Hskip. unfold scored_pair, eligible.
      by rewrite Hjd, Hc. }
  destruct (has_text (extracted_data_json c_r)) eqn:Hct.
  2:{ eexists. split; [done|]. apply Hskip. unfold scored_pair, eligible.
      by rewrite Hjd, Hc, Hct, andb_false_r. }
  destruct (score_call_existing conn jid cid jd_r c_r Hjd Hc) as (s & d & Hs).
  rewrite Hs. cbn [pybind fst].
  assert (Hsp : scored_pair json_loads jd_view cv_view weights conn jid cid = Some s).
  { unfold scored_pair, eligible. by rewrite Hjd, Hc, Htext, Hct, Hs. }
  eexists. split; [done|].
  set (conn2 := (add_or_update_match conn' jid cid s (rowids n)).2).
  assert (Hfresh : rowids n ∉ map match_id (matches conn')) by (apply H4; lia).
  unfold scoring_inv. cbn [fst snd].
  split; [done|]. split; [done|].
  split; [by apply add_or_update_match_ok|].
  split; [|split].
  - intros k Hk. subst conn2. unfold add_or_update_match.
    cbn [snd matches with_matches].
    destruct (existsb (same_pair jid cid) (matches conn')).
    + rewrite rescore_map_ids. apply H4. lia.
    + rewrite map_app. cbn [map match_id]. intros [Hin|Hin]%elem_of_app.
      * revert Hin. apply H4. lia.
      * apply list_elem_of_singleton, rowids_inj in Hin. lia.
  - assert (Hnew : ∃ m, m ∈ matches conn2 ∧ same_pair jid cid m = true
                        ∧ match_score m = s) by apply upsert_has_row.
    intros j c s' [Hp|[-> ->]] Hs'; [|by replace s' with s by congruence].
    destruct (H5 j c s' Hp Hs') as (m & Hm & Hpm & Hsm).
    destruct (same_pair jid cid m) eqn:Hsame.
    + apply same_pair_spec in Hpm, Hsame.
      assert (j = jid ∧ c = cid) as [-> ->] by (split; congruence).
      by replace s' with s by congruence.
    + exists m. split; [|done]. subst conn2. apply upsert_rows; [done|]. by left.
  - intros m Hm. subst conn2. apply upsert_rows in Hm; [|done].
    destruct Hm as [[_ Hm]|(Hp & Hsm & _)]; [by apply H6|].
    left. exists s. split; [|done].
    apply same_pair_spec in Hp. unfold pair_of in Hp. by injection Hp as -> ->.
Qed.

Lemma match_candidates_loop conn (jid : Z) jd_r (cs : list Z) :
  get_jd conn jid = Some jd_r → has_text (summary_json jd_r) = true →
  ∀ (P : Z → Z → Prop) st,
    scoring_inv json_loads jd_view cv_view weights rowids conn P st →
    ∃ st',
      for_each (match_candidate json_loads jd_view cv_view weights rowids jid) cs st
      = Ret st'
      ∧ scoring_inv json_loads jd_view cv_view weights rowids conn
          (λ j c, P j c ∨ (j = jid ∧ c ∈ cs)) st'.
Proof.
  intros Hjd Htext. induction cs as [|cid cs IH]; intros P st Hinv.
  - exists st. split; [done|]. revert Hinv. apply scoring_inv_weaken.
    intros j c [?|[_ []%elem_of_nil]]. done.
  - destruct (match_candidate_step conn P st jid cid jd_r Hjd Htext Hinv)
      as (st1 & Hrun1 & Hinv1).
    destruct (IH _ st1 Hinv1) as (st' & Hrun & Hinv').
    exists st'. cbn [for_each]. rewrite Hrun1. cbn [pybind]. split; [done|].
    revert Hinv'. apply scoring_inv_weaken.
    intros j c [Hp|[-> [->|Hc]%elem_of_cons]]; auto.
Qed.

Lemma match_jd_step conn (P : Z → Z → Prop) st (jid : Z) (cs : list Z) :
  scoring_inv json_loads jd_view cv_view weights rowids conn P st →
  ∃ st',
    match_jd json_loads jd_view cv_view weights rowids cs st jid = Ret st'
    ∧ scoring_inv json_loads jd_view cv_view weights rowids conn
        (λ j c, P j c ∨ (j = jid ∧ c ∈ cs)) st'.
Proof.
  intros Hinv. pose proof Hinv as (H1 & H2 & H3 & H4 & H5 & H6).
  destruct (score_call_tables conn st.1 jid 0 H1 H2) as (_ & Hget & _).
  unfold match_jd. rewrite Hget.
  assert (Hskip : (∀ c, scored_pair json_loads jd_view cv_view weights conn jid c = None) →
            scoring_inv json_loads jd_view cv_view weights rowids conn
              (λ j c, P j c ∨ (j = jid ∧ c ∈ cs)) st).
  { intros Hnone. repeat (split; [done|]). split; [|done].
    intros j c s [Hp|[-> _]] Hs; [by apply (H5 j c)|]. by rewrite Hnone in Hs. }
  destruct (get_jd conn jid) as [jd_r|] eqn:Hjd.
  2:{ exists st. split; [done|]. apply Hskip. intros c.
      unfold scored_pair, eligible. by rewrite Hjd. }
  destruct (has_text (summary_json jd_r)) eqn:Htext.
  2:{ exists st. split; [done|]. apply Hskip. intros c.
      unfold scored_pair, eligible. rewrite Hjd, Htext.
      by destruct (get_candidate conn c). }
  by apply (match_candidates_loop conn jid jd_r cs Hjd Htext).
Qed.

Lemma match_jds_loop conn (cs js : list Z) :
  ∀ (P : Z → Z → Prop) st,
    scoring_inv json_loads jd_view cv_view weights rowids conn P st →
    ∃ st',
      for_each (match_jd json_loads jd_view cv_view weights rowids cs) js st = Ret st'
      ∧ scoring_inv json_loads jd_view cv_view weights rowids conn
          (λ j c, P j c ∨ (j ∈ js ∧ c ∈ cs)) st'.
Proof.
  induction js as [|jid js IH]; intros P st Hinv.
  - exists st. split; [done|]. revert Hinv. apply scoring_inv_weaken.
    intros j c [?|[[]%elem_of_nil _]]. done.
  - destruct (match_jd_step conn P st jid cs Hinv) as (st1 & Hrun1 & Hinv1).
    destruct (IH _ st1 Hinv1) as (st' & Hrun & Hinv').
    exists st'. cbn [for_each]. rewrite Hrun1. cbn [pybind]. split; [done|].
    revert Hinv'. apply scoring_inv_weaken.
    intros j c [Hp|[[->|Hj]%elem_of_cons Hc]]; auto.
Qed.
End OrchestrationFacts.

Section ShortlistAll.
Context {T : Type} `{PyNum T}.
Implicit Types (conn : database T) (m : match_row T).

Lemma has_candidate_ids conn m :
  has_candidate conn m = true ↔ m_candidate_id m ∈ get_all_candidate_ids conn.
Proof.
  rewrite has_candidate_spec. unfold get_all_candidate_ids.
  rewrite list_elem_of_fmap. split.
  - intros (c & Hc & Hid). by exists c.
  - intros (c & Hid & Hc). by exists c.
Qed.

Lemma shortlist_all_cons (threshold : T) (jid : Z) (js : list Z) conn :
  shortlist_all threshold (jid :: js) conn
  = shortlist_all threshold js (shortlist_candidates_for_jd threshold jid conn).2.
Proof. done. Qed.

(** The second loop rewrites the flag of every row of a listed JD whose
    candidate exists, and nothing else. *)
Lemma shortlist_all_spec (threshold : T) (js : list Z) :
  ∀ conn, store_ok conn →
    ∃ D : match_row T → match_row T,
      shortlist_all threshold js conn = with_matches conn (map D (matches conn))
      ∧ (∀ m, match_id (D m) = match_id m ∧ m_jd_id (D m) = m_jd_id m
              ∧ m_candidate_id (D m) = m_candidate_id m
              ∧ match_score (D m) = match_score m)
      ∧ (∀ m, m_jd_id m ∈ js → has_candidate conn m = true →
              shortlist_status (D m) = ngeb (match_score m) threshold)
      ∧ (∀ m, ¬ (m_jd_id m ∈ js ∧ has_candidate conn m = true) → D m = m).
Proof.
  induction js as [|jid js IH]; intros conn Hok.
  - exists id. unfold shortlist_all. cbn [fold_left].
    rewrite map_id, with_matches_same. split; [done|]. split; [done|].
    split; [by intros m []%elem_of_nil | done].
  - pose proof Hok as [Hid _].
    rewrite shortlist_all_cons.
    pose proof (shortlist_ok threshold jid conn Hok) as Hok1.
    rewrite (shortlist_run threshold jid conn Hid) in Hok1 |- *. cbn [snd] in Hok1 |- *.
    destruct (IH _ Hok1) as (D & Hrun & Hkeep & Hflag & Hsame).
    set (d := decided threshold jid conn) in *.
    assert (Hd : ∀ m, match_id (d m) = match_id m ∧ m_jd_id (d m) = m_jd_id m
                      ∧ m_candidate_id (d m) = m_candidate_id m
                      ∧ match_score (d m) = match_score m)
      by (intros m; apply decided_keeps).
    assert (Hcand : ∀ m, has_candidate (with_matches conn (map d (matches conn))) (d m)
                         = has_candidate conn m).
    { intros m. unfold has_candidate. cbn [candidates with_matches].
      destruct (Hd m) as (_ & _ & -> & _). done. }
    exists (λ m, D (d m)). rewrite Hrun. cbn [matches with_matches].
    rewrite with_matches_twice, map_map. split; [done|]. split; [|split].
    + intros m. destruct (Hkeep (d m)) as (-> & -> & -> & ->). apply Hd.
    + intros m Hj Hc. destruct (Hd m) as (_ & Hdj & _ & Hds).
      destruct (decide (m_jd_id m ∈ js)) as [Hin|Hnin].
      * rewrite Hflag; [by rewrite Hds | by rewrite Hdj | by rewrite Hcand].
      * rewrite Hsame by (rewrite Hdj; tauto).
        apply elem_of_cons in Hj as [Hj|Hj]; [|done].
        subst d. unfold decided, stored_for. rewrite Hj, Z.eqb_refl, Hc. done.
    + intros m Hno. destruct (Hd m) as (_ & Hdj & _ & _).
      assert (Hdm : d m = m).
      { subst d. unfold decided, stored_for.
        destruct (Z.eqb_spec (m_jd_id m) jid) as [Hj|Hj]; [|done].
        destruct (has_candidate conn m) eqn:Hc; [|done].
        exfalso. apply Hno. split; [|done]. rewrite Hj. by left. }
      rewrite Hdm. apply Hsame. rewrite <- Hdm at 2. rewrite Hcand.
      intros [Hj Hc]. apply Hno. split; [by right | done].
Qed.
End ShortlistAll.

Section OrchestrationResult.
Context {O : Type}.
Variable json_loads : string → option (pyjson O).
Variable jd_view : O → JobProfile.
Variable cv_view : O → CandidateProfile Q.
Variable weights : gmap string Q.
Variable threshold : Q.
Variable rowids : nat → Z.
Implicit Types (conn : database Q) (m : match_row Q).

(** X23. One run of the orchestration over exact numbers always
    returns.  It leaves the payload tables alone and keeps the
    constraints of the matches table.  Afterwards every pair of a JD with
    a summary and a candidate with extracted data has a row that carries
    the score the aggregator gives the pair and the flag
    [score >= threshold]; the flag of every row of a stored JD and a
    stored candidate follows its score; and every row either carries the
    score of a scored pair or has the id, the pair and the score of a row
    that was there before. *)
Theorem run_matching_and_shortlisting_result conn :
  (∀ k k' : nat, rowids k = rowids k' → k = k') →
  (∀ k, rowids k ∉ map match_id (matches conn)) →
  store_ok conn →
  ∃ conn',
    run_matching_and_shortlisting json_loads jd_view cv_view weights threshold
      rowids conn = Ret conn'
    ∧ job_descriptions conn' = job_descriptions conn
    ∧ candidates conn' = candidates conn
    ∧ store_ok conn'
    ∧ (∀ j c, eligible conn j c = true →
         ∃ s d m',
           calculate_match_score json_loads jd_view cv_view weights j c conn
           = Ret (Some s, d)
           ∧ m' ∈ matches conn' ∧ same_pair j c m' = true
           ∧ match_score m' = s ∧ shortlist_status m' = ngeb s threshold)
    ∧ (∀ m', m' ∈ matches conn' → m_jd_id m' ∈ get_all_jd_ids conn →
         has_candidate conn m' = true →
         shortlist_status m' = ngeb (match_score m') threshold)
    ∧ (∀ m', m' ∈ matches conn' →
         (∃ s, scored_pair json_loads jd_view cv_view weights conn
                 (m_jd_id m') (m_candidate_id m') = Some s
               ∧ match_score m' = s)
         ∨ row_of conn m').
Proof.
  intros Hinj Hfresh Hok. unfold run_matching_and_shortlisting.
  set (js := get_all_jd_ids conn). set (cs := get_all_candidate_ids conn).
  assert (Hrows : ∀ j c, eligible conn j c = true → j ∈ js ∧ c ∈ cs).
  { intros j c He. unfold eligible in He.
    destruct (get_jd conn j) as [jd_r|] eqn:Hj; [|done].
    destruct (get_candidate conn c) as [c_r|] eqn:Hc; [|done].
    apply find_elem in Hj as [Hj Hjid], Hc as [Hc Hcid].
    apply Z.eqb_eq in Hjid, Hcid. subst j c.
    split; by apply list_elem_of_fmap_2. }
  destruct ((length js =? 0) || (length cs =? 0))%nat eqn:Hempty.
  - exists conn. split; [done|]. split; [done|]. split; [done|]. split; [done|].
    assert (Hnil : js = [] ∨ cs = []).
    { apply orb_true_iff in Hempty as [Hl|Hl]; apply Nat.eqb_eq in Hl;
        [left | right]; by apply length_zero_iff_nil. }
    split; [|split].
    + intros j c He. destruct (Hrows j c He) as [Hj Hc].
      destruct Hnil as [Hn|Hn]; rewrite Hn in *; by apply elem_of_nil in Hj || by apply elem_of_nil in Hc.
    + intros m' _ Hj Hc. apply has_candidate_ids in Hc. fold cs in Hc.
      destruct Hnil as [Hn|Hn]; rewrite Hn in *; by apply elem_of_nil in Hj || by apply elem_of_nil in Hc.
    + intros m' Hm'. right. by exists m'.
  - assert (Hinit : scoring_inv json_loads jd_view cv_view weights rowids conn
                      (λ _ _, False) (conn, 0%nat)).
    { unfold scoring_inv. cbn [fst snd]. split_and!; try done.
      intros m Hm. by right. }
    destruct (match_jds_loop json_loads jd_view cv_view weights rowids Hinj
                conn cs js _ _ Hinit) as ([conn1 n] & Hrun & Hinv).
    rewrite Hrun. cbn [pybind fst].
    destruct Hinv as (H1 & H2 & H3 & H4 & H5 & H6). cbn [fst snd] in *.
    destruct (shortlist_all_spec threshold js conn1 H3)
      as (D & HD & Hkeep & Hflag & Hsame).
    eexists. split; [done|]. rewrite HD. cbn [job_descriptions candidates matches with_matches].
    assert (Hcand : ∀ m, has_candidate conn (D m) = has_candidate conn1 m).
    { intros m. unfold has_candidate. rewrite H2.
      destruct (Hkeep m) as (_ & _ & -> & _). done. }
    split; [done|]. split; [done|]. split; [|split; [|split]].
    + destruct H3 as [Hid Hpair]. unfold store_ok. cbn [matches with_matches].
      rewrite !map_map. split.
      * erewrite map_ext; [exact Hid|]. intros m. apply Hkeep.
      * erewrite map_ext; [exact Hpair|]. intros m. unfold pair_of.
        destruct (Hkeep m) as (_ & -> & -> & _). done.
    + intros j c He. destruct (Hrows j c He) as [Hj Hc].
      destruct (score_of_eligible json_loads jd_view cv_view weights conn j c He)
        as (s & Hs).
      destruct (score_of_some json_loads jd_view cv_view weights conn j c s Hs)
        as (_ & _ & d & _ & _ & _ & _ & Hcall).
      destruct (H5 j c s (or_intror (conj Hj Hc)) Hs) as (m & Hm & Hp & Hsm).
      exists s, d, (D m). split; [done|].
      destruct (Hkeep m) as (_ & Hdj & Hdc & Hds).
      pose proof Hp as Hp'. apply andb_true_iff in Hp' as [Hmj Hmc].
      apply Z.eqb_eq in Hmj, Hmc.
      split; [by apply list_elem_of_fmap_2|].
      split; [unfold same_pair; by rewrite Hdj, Hdc|].
      split; [congruence|].
      rewrite Hflag; [by rewrite Hsm | by rewrite Hmj |].
      apply has_candidate_ids. unfold get_all_candidate_ids. rewrite H2, Hmc. exact Hc.
    + intros m' Hm' Hj Hc. apply list_elem_of_fmap in Hm' as (m & -> & Hm).
      destruct (Hkeep m) as (_ & Hdj & _ & Hds).
      rewrite Hds. apply Hflag; [by rewrite <- Hdj | by rewrite <- Hcand].
    + intros m' Hm'. apply list_elem_of_fmap in Hm' as (m & -> & Hm).
      destruct (Hkeep m) as (Hdi & Hdj & Hdc & Hds).
      destruct (H6 m Hm) as [(s & Hs & Hsm)|Hold].
      * left. exists s. rewrite Hdj, Hdc, Hds. done.
      * right. exists m. unfold pair_of. rewrite Hdi, Hdj, Hdc, Hds. done.
Qed.
End OrchestrationResult.

Lemma run_matching_and_shortlisting_result_witness :
  ∃ conn',
    run_matching_and_shortlisting loads_dict fixed_jd_view fixed_cv_view
      DEFAULT_WEIGHTS 0.75%Q rowids_from_100 store_pipeline = Ret conn'
    ∧ job_descriptions conn' = job_descriptions store_pipeline
    ∧ candidates conn' = candidates store_pipeline
    ∧ store_ok conn'
    ∧ (∀ j c, eligible store_pipeline j c = true →
         ∃ s d m',
           calculate_match_score loads_dict fixed_jd_view fixed_cv_view
             DEFAULT_WEIGHTS j c store_pipeline
           = Ret (Some s, d)
           ∧ m' ∈ matches conn' ∧ same_pair j c m' = true
           ∧ match_score m' = s ∧ shortlist_status m' = ngeb s 0.75%Q)
    ∧ (∀ m', m' ∈ matches conn' → m_jd_id m' ∈ get_all_jd_ids store_pipeline →
         has_candidate store_pipeline m' = true →
         shortlist_status m' = ngeb (match_score m') 0.75%Q)
    ∧ (∀ m', m' ∈ matches conn' →
         (∃ s, scored_pair loads_dict fixed_jd_view fixed_cv_view DEFAULT_WEIGHTS
                 store_pipeline (m_jd_id m') (m_candidate_id m') = Some s
               ∧ match_score m' = s)
         ∨ row_of store_pipeline m').
Proof.
  apply (run_matching_and_shortlisting_result loads_dict fixed_jd_view
           fixed_cv_view DEFAULT_WEIGHTS 0.75%Q rowids_from_100 store_pipeline).
  - unfold rowids_from_100. intros k k'. lia.
  - unfold rowids_from_100. intros k. cbn [map matches store_pipeline match_id].
    intros Hin. repeat (apply elem_of_cons in Hin as [Hin|Hin]; [lia|]).
    by apply elem_of_nil in Hin.
  - split; apply (bool_decide_unpack _); by vm_compute.
Defined.

(** ** The score in binary64 *)

Lemma f64_ltb_leb (x y : float) : PrimFloat.ltb x y = true → PrimFloat.leb x y = true.
Proof.
  rewrite FloatAxioms.ltb_spec, FloatAxioms.leb_spec. unfold SFltb, SFleb.
  by destruct (SFcompare _ _) as [[]|].
Qed.

Lemma f64_nan_ltb (x y : float) : PrimFloat.eqb x x = false → PrimFloat.ltb x y = false.
Proof.
  rewrite FloatAxioms.eqb_spec, FloatAxioms.ltb_spec. unfold SFeqb, SFltb.
  destruct (Prim2SF x) as [[]|[]| |s m e]; try done.
  cbn [SFcompare]. rewrite Z.compare_refl, Pos.compare_refl.
  by destruct s.
Qed.

Lemma f64_clamp (x : float) :
  let r := py_max (of_Q 0) (py_min (of_Q 1) x) in
  nleb (of_Q 0) r = true ∧ nleb r (of_Q 1) = true
  ∧ (neqb x x = false → r = of_Q 1).
Proof.
  unfold py_max, py_min, ngtb. cbn [nltb nleb neqb of_Q f64_PyNum].
  change (f64_of_Q 0) with 0%float. change (f64_of_Q 1) with 1%float.
  destruct (PrimFloat.ltb x 1) eqn:H1.
  - destruct (PrimFloat.ltb 0 x) eqn:H0.
    + split; [by apply f64_ltb_leb|]. split; [by apply f64_ltb_leb|].
      intros Hnan. by rewrite (f64_nan_ltb x 1 Hnan) in H1.
    + split; [done|]. split; [done|].
      intros Hnan. by rewrite (f64_nan_ltb x 1 Hnan) in H1.
  - change (PrimFloat.ltb 0 1) with true. cbv iota. done.
Qed.

(** X24. In binary64, the arithmetic the program runs on, the aggregator
    never reports a score outside [0,1], whatever the component scores and
    the weights are: it raises, or it returns a score [v] with
    [0 <= v <= 1], or, for a missing row, no score.  The clamp
    [max(0.0, min(1.0, x))] sends every float into [0,1]; a sum that is
    not a number comes out as 1.0. *)
Theorem float_score_in_unit :
  (∀ x : float,
     let r := py_max (of_Q 0) (py_min (of_Q 1) x) in
     nleb (of_Q 0) r = true ∧ nleb r (of_Q 1) = true
     ∧ (neqb x x = false → r = of_Q 1))
  ∧ (∀ (weights : gmap string float) (jd : JobProfile) (cv : CandidateProfile float),
       match score_loaded weights jd cv with
       | Ret (Some v, _) => nleb (of_Q 0) v = true ∧ nleb v (of_Q 1) = true
       | Ret (None, _) => False
       | Raise e => e = ZeroDivisionError
       end)
  ∧ (∀ (O : Type) (json_loads : string → option (pyjson O))
       (jd_view : O → JobProfile) (cv_view : O → CandidateProfile float)
       (weights : gmap string float) (jid cid : Z) (conn : database float),
       match calculate_match_score json_loads jd_view cv_view weights jid cid conn with
       | Ret (Some v, _) => nleb (of_Q 0) v = true ∧ nleb v (of_Q 1) = true
       | Ret (None, _) => get_jd conn jid = None ∨ get_candidate conn cid = None
       | Raise e => e = ZeroDivisionError
       end).
Proof.
  assert (Hloaded : ∀ (weights : gmap string float) jd (cv : CandidateProfile float),
            match score_loaded weights jd cv with
            | Ret (Some v, _) => nleb (of_Q 0) v = true ∧ nleb v (of_Q 1) = true
            | Ret (None, _) => False
            | Raise e => e = ZeroDivisionError
            end).
  { intros weights jd cv. unfold score_loaded.
    destruct (calculate_skill_match jd cv) as [s|[]]; [|done]. cbn [pybind].
    destruct (calculate_experience_match _ _) as [e|[]]; [|done]. cbn [pybind].
    destruct (check_essential_requirements jd cv) as [r|[]]; [|done]. cbn [pybind].
    split; apply f64_clamp. }
  split; [exact f64_clamp|]. split; [exact Hloaded|].
  intros O json_loads jd_view cv_view weights jid cid conn.
  unfold calculate_match_score.
  destruct (get_jd conn jid) as [jd_r|]; [|by left].
  destruct (get_candidate conn cid) as [c_r|]; [|by right].
  destruct (safe_json_loads json_loads (summary_json jd_r)) as [jo| | | | | |];
    destruct (safe_json_loads json_loads (extracted_data_json c_r)) as [co| | | | | |];
    try (split; reflexivity).
  specialize (Hloaded weights (jd_view jo) (cv_view co)).
  by destruct (score_loaded weights (jd_view jo) (cv_view co)) as [[[v|] d]|e].
Qed.

(** ** Reading the model's answer *)

Lemma append_cons (c : ascii) (s t : string) :
  (String c s ++ t = String c (s ++ t))%string.
Proof. done. Qed.

Lemma is_prefix_app (p s : string) : is_prefix p (p ++ s) = true.
Proof.
  induction p as [|c p IH]; [by destruct s|].
  rewrite append_cons. cbn [is_prefix]. by rewrite Ascii.eqb_refl, IH.
Qed.

Lemma drop_chars_app (p s : string) : drop_chars (String.length p) (p ++ s) = s.
Proof.
  induction p as [|c p IH]; [by destruct s|].
  rewrite append_cons. cbn [String.length drop_chars]. exact IH.
Qed.

Lemma endswith_app (p suf : string) : endswith suf (p ++ suf) = true.
Proof.
  induction p as [|c p IH].
  - change (endswith suf suf = true). destruct suf; cbn [endswith];
      by rewrite String.eqb_refl.
  - rewrite append_cons. cbn [endswith]. rewrite IH. apply orb_true_r.
Qed.

Lemma length_append (p s : string) :
  String.length (p ++ s) = (String.length p + String.length s)%nat.
Proof.
  induction p as [|c p IH]; [done|].
  rewrite append_cons. cbn [String.length]. by rewrite IH.
Qed.

Lemma take_chars_app (p s : string) : take_chars (String.length p) (p ++ s) = p.
Proof.
  induction p as [|c p IH]; [by destruct s|].
  rewrite append_cons. cbn [String.length take_chars]. by rewrite IH.
Qed.

Lemma drop_last_app (p suf : string) : drop_last (String.length suf) (p ++ suf) = p.
Proof.
  unfold drop_last. rewrite length_append.
  replace (String.length p + String.length suf - String.length suf)%nat
    with (String.length p) by lia.
  apply take_chars_app.
Qed.

Lemma lstrip_no_space (s : string) :
  match lstrip s with
  | EmptyString => True
  | String c _ => is_space c = false
  end.
Proof.
  induction s as [|c s IH]; [done|]. cbn [lstrip].
  by destruct (is_space c) eqn:Hc.
Qed.

Lemma rstrip_idemp (s : string) : rstrip (rstrip s) = rstrip s.
Proof.
  induction s as [|c s IH]; [done|]. cbn [rstrip].
  destruct (rstrip s) as [|c' r] eqn:Hr.
  - destruct (is_space c) eqn:Hc; [done|]. cbn [rstrip]. by rewrite Hc.
  - cbn [rstrip]. cbn [rstrip] in IH.
    destruct (rstrip r) as [|c'' r'] eqn:Hr'.
    + destruct (is_space c') eqn:Hc'; [done|]. by rewrite IH.
    + by rewrite IH.
Qed.

Lemma rstrip_head (s : string) (c : ascii) (s' : string) :
  s = String c s' → is_space c = false →
  ∃ r, rstrip s = String c r.
Proof.
  intros -> Hc. cbn [rstrip]. destruct (rstrip s'); [rewrite Hc|]; by eexists.
Qed.

Lemma py_strip_idemp (s : string) : py_strip (py_strip s) = py_strip s.
Proof.
  unfold py_strip. pose proof (lstrip_no_space s) as Hl.
  destruct (lstrip s) as [|c s'] eqn:Hs; [done|].
  destruct (rstrip_head (String c s') c s' eq_refl Hl) as (r & Hr).
  rewrite Hr. cbn [lstrip]. rewrite Hl, <- Hr. apply rstrip_idemp.
Qed.

(** X25. The markdown fence around an answer is undone: an answer
    wrapped as [```json ... ```] is parsed as the text it wraps, stripped
    of surrounding white space, whatever that text is; either fence is
    also removed on its own.  What is handed to the parser has no white
    space left to strip. *)
Theorem structured_output_unwraps_fence {O : Type}
    (json_loads : string → option (pyjson O)) (p : string) :
  generate_structured_output json_loads ("```json" ++ p ++ "```")
  = json_loads (py_strip p)
  ∧ unfence ("```json" ++ p) = (if endswith "```" p then py_strip (drop_last 3 p)
                                else py_strip p)
  ∧ (is_prefix "```json" (p ++ "```") = false →
     unfence (p ++ "```") = py_strip p)
  ∧ py_strip (unfence p) = unfence p.
Proof.
  assert (Hopen : ∀ s, is_prefix "```json" ("```json" ++ s) = true
                       ∧ drop_chars 7 ("```json" ++ s) = s).
  { intros s. split; [apply is_prefix_app|].
    apply (drop_chars_app "```json" s). }
  assert (Hclose : ∀ s, endswith "```" (s ++ "```") = true
                        ∧ drop_last 3 (s ++ "```") = s).
  { intros s. split; [apply endswith_app|]. apply (drop_last_app s "```"). }
  split; [|split; [|split]].
  - change (json_loads (unfence ("```json" ++ p ++ "```")) = json_loads (py_strip p)).
    unfold unfence. destruct (Hopen (p ++ "```")) as [-> ->].
    by destruct (Hclose p) as [-> ->].
  - unfold unfence. cbv zeta. destruct (Hopen p) as [-> ->].
    by destruct (endswith _ p).
  - intros Hno. unfold unfence. rewrite Hno. by destruct (Hclose p) as [-> ->].
  - unfold unfence. cbv zeta.
    destruct (is_prefix _ p); destruct (endswith _ _); apply py_strip_idemp.
Qed.

(** ** Registering a candidate *)

Section CandidateFacts.
Context {T : Type}.
Implicit Types (conn : database T) (c : candidate_row).

Lemma find_filename_none (cs : list candidate_row) (f : string) :
  find (λ c, String.eqb (cv_filename c) f) cs = None ↔ f ∉ map cv_filename cs.
Proof.
  induction cs as [|c cs IH]; cbn [find map].
  - split; [intros _ []%elem_of_nil | done].
  - destruct (String.eqb_spec (cv_filename c) f) as [Heq|Hne].
    + split; [done|]. intros Hno. exfalso. apply Hno. rewrite Heq. by left.
    + rewrite IH. split.
      * intros Hno [Heq|Hin]%elem_of_cons; [congruence | done].
      * intros Hno Hin. apply Hno. by right.
Qed.

Lemma find_app_none {A} (f : A → bool) (l1 l2 : list A) :
  find f l1 = None → find f (l1 ++ l2)%list = find f l2.
Proof.
  induction l1 as [|x l1 IH]; [done|]. cbn [find app].
  destruct (f x); [done | exact IH].
Qed.

(** X26. [add_candidate] registers a file once: a second call with the
    same file name returns the same id and changes nothing.  The id it
    returns is that of a row with this file name; the rows that were
    there stay as they are, extracted data included, and at most one row
    is added; the other tables are not touched.  With an unused id for
    the added row the key and the uniqueness of file names are kept. *)
Theorem add_candidate_registers_once conn (filename : string) (rowid rowid2 : Z) :
  let res := add_candidate conn filename rowid in
  add_candidate res.2 filename rowid2 = res
  ∧ (∃ c, c ∈ candidates res.2 ∧ candidate_id c = res.1 ∧ cv_filename c = filename)
  ∧ (∃ added, candidates res.2 = (candidates conn ++ added)%list
              ∧ (length added <= 1)%nat
              ∧ (filename ∈ map cv_filename (candidates conn) → added = []))
  ∧ job_descriptions res.2 = job_descriptions conn
  ∧ matches res.2 = matches conn
  ∧ (candidates_ok conn → rowid ∉ map candidate_id (candidates conn) →
     candidates_ok res.2).
Proof.
  cbv zeta. unfold add_candidate.
  destruct (find _ (candidates conn)) as [c|] eqn:Hfind.
  - cbn [fst snd]. rewrite Hfind. split; [done|].
    apply find_elem in Hfind as [Hc Hf]. apply String.eqb_eq in Hf.
    split; [by exists c|].
    split; [exists []; rewrite app_nil_r; cbn [length]; split_and!; [done|lia|done]|].
    done.
  - cbn [fst snd candidates with_candidates].
    rewrite find_app_none by done. cbn [find cv_filename].
    rewrite String.eqb_refl. split; [done|].
    split; [eexists; split; [apply elem_of_app; right; by left|done]|].
    split.
    { eexists. split; [done|]. split; [cbn [length]; lia|].
      intros Hin. by apply find_filename_none in Hfind. }
    split; [done|]. split; [done|].
    intros [Hid Hname] Hfresh. unfold candidates_ok.
    cbn [candidates with_candidates]. rewrite !map_app. cbn [map candidate_id cv_filename].
    split; apply NoDup_app; (split; [done|]); (split; [|apply NoDup_singleton]).
    + intros x Hx ->%list_elem_of_singleton. done.
    + intros x Hx ->%list_elem_of_singleton. by apply find_filename_none in Hfind.
Qed.

(** X27. What [update_candidate_extraction] writes is what
    [get_candidate] reads back: the row of the id carries the new
    payload and keeps its file name, every other id reads as before, the
    other tables are not touched, and for an id without a row nothing
    changes. *)
Theorem update_candidate_extraction_read_back conn (cid : Z)
    (data_str : string) :
  let res := update_candidate_extraction conn cid data_str in
  res.1 = true
  ∧ get_candidate res.2 cid
    = (c ← get_candidate conn cid; Some (set_extraction c data_str))
  ∧ (∀ cid', cid' ≠ cid → get_candidate res.2 cid' = get_candidate conn cid')
  ∧ map candidate_id (candidates res.2) = map candidate_id (candidates conn)
  ∧ map cv_filename (candidates res.2) = map cv_filename (candidates conn)
  ∧ job_descriptions res.2 = job_descriptions conn
  ∧ matches res.2 = matches conn
  ∧ (get_candidate conn cid = None → res.2 = conn).
Proof.
  cbv zeta. unfold update_candidate_extraction, get_candidate.
  cbn [fst snd candidates with_candidates job_descriptions matches].
  split; [done|]. split; [|split; [|split; [|split; [|split; [done|split; [done|]]]]]].
  - induction (candidates conn) as [|c cs IH]; [done|]. cbn [map find].
    destruct (Z.eqb_spec (candidate_id c) cid) as [Heq|Hne].
    + cbn [set_extraction candidate_id]. apply Z.eqb_eq in Heq. by rewrite Heq.
    + apply Z.eqb_neq in Hne. by rewrite Hne.
  - intros cid' Hne. induction (candidates conn) as [|c cs IH]; [done|]. cbn [map find].
    destruct (Z.eqb_spec (candidate_id c) cid) as [Heq|Hne'].
    + cbn [set_extraction candidate_id].
      destruct (Z.eqb_spec (candidate_id c) cid'); [congruence | exact IH].
    + destruct (candidate_id c =? cid'); [done | exact IH].
  - rewrite map_map. apply map_ext. intros c. by destruct (candidate_id c =? cid).
  - rewrite map_map. apply map_ext. intros c. by destruct (candidate_id c =? cid).
  - intros Hnone. destruct conn as [jds cs ms]. unfold with_candidates.
    cbn [job_descriptions candidates matches] in *. f_equal.
    induction cs as [|c cs IH]; [done|]. cbn [map find] in *.
    destruct (candidate_id c =? cid); [done|]. by rewrite IH.
Qed.
End CandidateFacts.

(** ** Cleaning a list of texts *)

Lemma is_space_lower (c : ascii) : is_space (lower_ascii c) = is_space c.
Proof. by destruct c as [[] [] [] [] [] [] [] []]. Qed.

Lemma lower_lstrip (s : string) : lower (lstrip s) = lstrip (lower s).
Proof.
  induction s as [|c s IH]; [done|]. cbn [lstrip lower].
  rewrite is_space_lower. by destruct (is_space c).
Qed.

Lemma lower_rstrip (s : string) : lower (rstrip s) = rstrip (lower s).
Proof.
  induction s as [|c s IH]; [done|]. cbn [rstrip lower].
  rewrite <- IH, is_space_lower.
  destruct (rstrip s) as [|c' r]; cbn [lower]; [by destruct (is_space c) | done].
Qed.

Lemma lower_py_strip (s : string) : lower (py_strip s) = py_strip (lower s).
Proof. unfold py_strip. by rewrite lower_rstrip, lower_lstrip. Qed.

Lemma elem_of_clean_texts (items : list jitem) (x : string) :
  x ∈ clean_texts items
  ↔ ∃ s, JText s ∈ items ∧ s ≠ "" ∧ x = py_strip (lower s).
Proof.
  unfold clean_texts. rewrite list_elem_of_In, in_flat_map. split.
  - intros (r & Hr%list_elem_of_In & Hx). destruct r as [[|c s]|]; try done.
    destruct Hx as [<-|[]]. by exists (String c s).
  - intros (s & Hs & Hne & ->). exists (JText s).
    split; [by apply list_elem_of_In|]. destruct s; [done | by left].
Qed.

Lemma elem_of_strip_texts (items : list jitem) (x : string) :
  x ∈ strip_texts items
  ↔ ∃ s, JText s ∈ items ∧ s ≠ "" ∧ x = py_strip s.
Proof.
  unfold strip_texts. rewrite list_elem_of_In, in_flat_map. split.
  - intros (r & Hr%list_elem_of_In & Hx). destruct r as [[|c s]|]; try done.
    destruct Hx as [<-|[]]. by exists (String c s).
  - intros (s & Hs & Hne & ->). exists (JText s).
    split; [by apply list_elem_of_In|]. destruct s; [done | by left].
Qed.

Lemma clean_texts_lower_strip (items : list jitem) :
  clean_texts items = map lower (strip_texts items).
Proof.
  unfold clean_texts, strip_texts.
  induction items as [|r items IH]; [done|]. cbn [flat_map].
  rewrite map_app, <- IH. f_equal.
  destruct r as [[|c s]|]; [done| |done]. cbn [map]. by rewrite lower_py_strip.
Qed.

(** X28. What the cleaners leave of the lists they keep texts of.  For
    the lower-cased lists (the JD's domain expertise, soft skills and
    essential requirements; the CV's soft skills, domain expertise,
    certifications and industry experience): exactly the lower-cased,
    stripped forms of the non-empty texts; every entry is a fixed point
    of lower-casing and stripping; a text of white space only is kept as
    the empty string, and cleaning the cleaned list again drops exactly
    these empty strings.  For the lists whose letter case is kept (the
    CV's education, the JD's key responsibilities): exactly the stripped
    forms of the non-empty texts, every entry a fixed point of stripping,
    and lower-casing them gives what the first cleaning gives.  The
    recent job titles are at most two entries of the stripped list. *)
Theorem cleaned_texts_normalised :
  ∀ items : list jitem,
    (∀ x, x ∈ clean_texts items
          ↔ ∃ s, JText s ∈ items ∧ s ≠ "" ∧ x = py_strip (lower s))
    ∧ (∀ x, x ∈ clean_texts items → lower x = x ∧ py_strip x = x)
    ∧ (∀ s, s ≠ "" → py_strip s = "" → JText s ∈ items → "" ∈ clean_texts items)
    ∧ clean_texts (map JText (clean_texts items))
      = filter (λ x, x ≠ "") (clean_texts items)
    ∧ (∀ x, x ∈ strip_texts items
            ↔ ∃ s, JText s ∈ items ∧ s ≠ "" ∧ x = py_strip s)
    ∧ (∀ x, x ∈ strip_texts items → py_strip x = x)
    ∧ clean_texts items = map lower (strip_texts items)
    ∧ (length (clean_job_titles items) <= 2)%nat
    ∧ (∀ x, x ∈ clean_job_titles items → x ∈ strip_texts items).
Proof.
  intros items.
  assert (Hfix : ∀ x, x ∈ clean_texts items → lower x = x ∧ py_strip x = x).
  { intros x (s & _ & _ & ->)%elem_of_clean_texts. split.
    - by rewrite lower_py_strip, lower_idemp.
    - apply py_strip_idemp. }
  split; [apply elem_of_clean_texts|]. split; [exact Hfix|]. split; [|split].
  - intros s Hne Hblank Hin. apply elem_of_clean_texts. exists s.
    split; [done|]. split; [done|]. by rewrite <- lower_py_strip, Hblank.
  - induction (clean_texts items) as [|x l IH]; [done|].
    cbn [map clean_texts flat_map]. fold (clean_texts (map JText l)).
    rewrite IH by (intros y Hy; apply Hfix; by right).
    destruct (Hfix x (list_elem_of_here _ _)) as [Hl Hs].
    rewrite filter_cons. destruct x as [|c x].
    + by rewrite decide_False by (by intros ?).
    + rewrite decide_True by done. by rewrite Hl, Hs.
  - split; [apply elem_of_strip_texts|]. split; [|split; [|split]].
    + intros x (s & _ & _ & ->)%elem_of_strip_texts. apply py_strip_idemp.
    + apply clean_texts_lower_strip.
    + unfold clean_job_titles. rewrite length_take. lia.
    + unfold clean_job_titles. intros x Hx.
      by apply (subseteq_take 2 (strip_texts items)).
Qed.

(** X29. A requirement of white space only is met by everybody: when the
    essential requirements of a JD are what cleaning leaves of a list
    whose texts are all white space, the JD scores 1 on the essential
    requirements against every CV. *)
Theorem blank_requirements_score_full (jd : JobProfile) (cv : CandidateProfile Q)
    (items : list jitem) :
  essential_requirements jd = clean_texts items →
  (∀ s, JText s ∈ items → py_strip s = "") →
  ∃ v : Q, check_essential_requirements jd cv = Ret v ∧ (v == 1)%Q.
Proof.
  intros Hreqs Hblank.
  apply requirements_all_met. intros r Hr.
  apply elem_of_list_to_set in Hr. rewrite Hreqs in Hr.
  apply elem_of_clean_texts in Hr as (s & Hs & _ & ->).
  rewrite <- lower_py_strip, (Hblank s Hs). cbn [lower].
  right. by exists ""%string, (join " " (map lower (education cv))).
Qed.

Lemma blank_requirements_score_full_witness :
  ∃ v : Q, check_essential_requirements jd_blank_requirement (cv_e2e (T:=Q)) = Ret v
           ∧ (v == 1)%Q.
Proof.
  apply (blank_requirements_score_full jd_blank_requirement cv_e2e
           [JText "  "; JNotText]).
  - reflexivity.
  - intros s Hs. apply elem_of_cons in Hs as [Hs|Hs]; [by injection Hs as ->|].
    apply elem_of_cons in Hs as [Hs|Hs]; [done | by apply elem_of_nil in Hs].
Defined.
